(** * WebCAMO (Windows receiver): frame hand-off buffer and signaling client

    A shallow embedding of [FrameBuffer.cpp] and [SignalingClient.cpp]
    together with the properties their specification states about them,
    followed by the code around them ([Application.cpp],
    [SimpleReceiver.cpp], [VirtualCamera.cpp]) and further properties
    of the code.

    Conventions.
    - [size_t] values are natural numbers; a [std::queue] is the list of
      its elements, front first.
    - An octet ([unsigned char]) is a [Z] in [0, 256); a [std::string] is a
      [string]; [u8] and [chr] convert between a [char] and its octet.
    - Calling [pop()] on an empty [std::queue] is undefined behaviour; the
      operations that can reach it return [option], [None] standing for
      that outcome.
    - A function that an exception can leave, or that can end in
      [std::terminate], returns [option] as well, [None] standing for
      the call that does not return. *)

From Stdlib Require Import String Ascii ZArith List Lia Bool DecimalString.
Import ListNotations.

Set Implicit Arguments.

(** ** Common.h *)

Inductive ConnectionState : Type :=
| Disconnected
| Connecting
| Connected
| Error.

Record VideoFrame : Type := mkVideoFrame {
  data : list Z;
  width : Z;
  height : Z;
  timestamp : Z
}.

(** ** FrameBuffer.cpp *)

Module FrameBuffer.

Record t : Type := mk {
  m_frames : list VideoFrame;   (* std::queue, oldest first *)
  m_maxFrames : nat
}.

(** [FrameBuffer(size_t maxFrames)] *)
Definition create (maxFrames : nat) : t := mk [] maxFrames.

(** The loop [while (m_frames.size() >= m_maxFrames) m_frames.pop();].
    The result is the pair of the frames dropped (in the order they were
    dropped) and the frames kept.  When the guard holds on an empty queue
    the loop calls [pop()] on it. *)
Fixpoint evict (maxFrames : nat) (q : list VideoFrame)
  : option (list VideoFrame * list VideoFrame) :=
  if maxFrames <=? length q then
    match q with
    | [] => None
    | f :: q' =>
        match evict maxFrames q' with
        | Some (dropped, kept) => Some (f :: dropped, kept)
        | None => None
        end
    end
  else Some ([], q).

(** [Push]: both overloads have the same body up to the move. *)
Definition Push (fb : t) (frame : VideoFrame) : option t :=
  match evict (m_maxFrames fb) (m_frames fb) with
  | Some (_, kept) => Some (mk (kept ++ [frame]) (m_maxFrames fb))
  | None => None
  end.

(** [Pop]: with the mutex held, [wait_for] returns at once when the queue
    is not empty; on an empty queue nothing is pushed during the wait in
    a sequential run, so the wait times out. *)
Definition Pop (fb : t) : option VideoFrame * t :=
  match m_frames fb with
  | f :: q' => (Some f, mk q' (m_maxFrames fb))
  | [] => (None, fb)
  end.

(** [Peek] copies [m_frames.back()]. *)
Definition Peek (fb : t) : option VideoFrame :=
  match m_frames fb with
  | [] => None
  | f :: q' => Some (last q' f)
  end.

Definition Clear (fb : t) : t := mk [] (m_maxFrames fb).

Definition Empty (fb : t) : bool :=
  match m_frames fb with [] => true | _ => false end.

Definition Size (fb : t) : nat := length (m_frames fb).

(** *** Runs of operations, with the history they leave *)

Inductive op : Type :=
| OpPush (f : VideoFrame)
| OpPop
| OpPeek
| OpClear.

Inductive event : Type :=
| EvPushed (f : VideoFrame)
| EvEvicted (f : VideoFrame)
| EvPopped (f : VideoFrame)
| EvTimeout
| EvCleared (fs : list VideoFrame).

Definition step (fb : t) (o : op) : option (t * list event) :=
  match o with
  | OpPush f =>
      match evict (m_maxFrames fb) (m_frames fb), Push fb f with
      | Some (dropped, _), Some fb' =>
          Some (fb', map EvEvicted dropped ++ [EvPushed f])
      | _, _ => None
      end
  | OpPop =>
      match Pop fb with
      | (Some f, fb') => Some (fb', [EvPopped f])
      | (None, fb') => Some (fb', [EvTimeout])
      end
  | OpPeek => Some (fb, [])
  | OpClear => Some (Clear fb, [EvCleared (m_frames fb)])
  end.

Fixpoint run (fb : t) (ops : list op) : option (t * list event) :=
  match ops with
  | [] => Some (fb, [])
  | o :: ops' =>
      match step fb o with
      | Some (fb', evs) =>
          match run fb' ops' with
          | Some (fb'', evs') => Some (fb'', evs ++ evs')
          | None => None
          end
      | None => None
      end
  end.

(** Frames pushed, in push order. *)
Definition pushed (h : list event) : list VideoFrame :=
  flat_map (fun e => match e with EvPushed f => [f] | _ => [] end) h.

(** Frames handed to the consumer, in the order they were popped. *)
Definition popped (h : list event) : list VideoFrame :=
  flat_map (fun e => match e with EvPopped f => [f] | _ => [] end) h.

(** Frames that left the queue (evicted, popped or cleared), in the order
    they left it. *)
Definition departed (h : list event) : list VideoFrame :=
  flat_map (fun e => match e with
                     | EvEvicted f | EvPopped f => [f]
                     | EvCleared fs => fs
                     | _ => []
                     end) h.

Definition is_push (o : op) : bool :=
  match o with OpPush _ => true | _ => false end.

End FrameBuffer.

(** [Subseq l1 l2]: [l1] is [l2] with some elements left out, order kept. *)
Inductive Subseq (A : Type) : list A -> list A -> Prop :=
| Subseq_nil : Subseq [] []
| Subseq_skip : forall x l1 l2, Subseq l1 l2 -> Subseq l1 (x :: l2)
| Subseq_take : forall x l1 l2, Subseq l1 l2 -> Subseq (x :: l1) (x :: l2).

(** ** Octets, characters and machine integers *)

Open Scope Z_scope.

(** [static_cast<unsigned char>(c)] for a [char] [c]. *)
Definition u8 (c : ascii) : Z := Z.of_N (N_of_ascii c).

(** The value of a [char] as the compiler promotes it to [int]: [char] is
    signed on the target (MSVC, x64). *)
Definition char_val (c : ascii) : Z :=
  if u8 c <? 128 then u8 c else u8 c - 256.

(** Conversion of an integer to [unsigned char]. *)
Definition to_uchar (z : Z) : Z := z mod 256.

(** The [char] holding octet [b]. *)
Definition chr (b : Z) : ascii := ascii_of_N (Z.to_N (b mod 256)).

(** Conversion to [int] (32 bits, two's complement). *)
Definition to_int (z : Z) : Z := (z + 2 ^ 31) mod 2 ^ 32 - 2 ^ 31.

(** Conversion to [uint64_t]. *)
Definition to_u64 (z : Z) : Z := z mod 2 ^ 64.

Definition INT_MAX : Z := 2147483647.

Definition bytes_of_string (s : string) : list Z :=
  map u8 (list_ascii_of_string s).

Definition string_of_bytes (bs : list Z) : string :=
  string_of_list_ascii (map chr bs).

Definition dquote : ascii := ascii_of_nat 34.
Definition CR : ascii := ascii_of_nat 13.
Definition LF : ascii := ascii_of_nat 10.
Definition CRLF : string := String CR (String LF EmptyString).

(** ** Winsock: a connected stream socket

    [inbound] is what the peer sends, cut into the pieces successive
    [recv] calls can return at most; an empty piece is a [recv] that
    returns 0.  Once [inbound] is used up every [recv] returns [drained]
    (0 for an orderly close, [SOCKET_ERROR] for a failure).  [outbound]
    collects what [send] accepted; [writable] tells whether [send]
    succeeds. *)

Definition SOCKET_ERROR : Z := -1.

Record Socket : Type := mkSocket {
  inbound : list (list Z);
  drained : Z;
  outbound : list (list Z);
  writable : bool
}.

(** A [SOCKET] handle; [INVALID_SOCKET] is [None]. *)
Definition SOCKET : Type := option Socket.

(** The inbound side of a socket with [bytes] waiting in one piece. *)
Definition pending (bytes : list Z) : list (list Z) :=
  match bytes with
  | [] => []
  | _ => [bytes]
  end.

(** [recv(s, buf, len, 0)]: the return value, the octets stored at [buf]
    and the socket afterwards. *)
Definition recv (s : SOCKET) (len : Z) : Z * list Z * SOCKET :=
  match s with
  | None => (SOCKET_ERROR, [], s)
  | Some sk =>
      if len <? 0 then (SOCKET_ERROR, [], s)
      else
        match inbound sk with
        | [] => (drained sk, [], s)
        | piece :: rest =>
            let got := firstn (Z.to_nat len) piece in
            let left := skipn (Z.to_nat len) piece in
            (Z.of_nat (length got), got,
             Some (mkSocket (match left with [] => rest | _ => left :: rest end)
                            (drained sk) (outbound sk) (writable sk)))
        end
  end.

(** [send(s, buf, len, 0)] on a blocking socket. *)
Definition send (s : SOCKET) (buf : list Z) (len : Z) : Z * SOCKET :=
  match s with
  | None => (SOCKET_ERROR, s)
  | Some sk =>
      if (len <? 0) || negb (writable sk) then (SOCKET_ERROR, s)
      else (len,
            Some (mkSocket (inbound sk) (drained sk)
                           (outbound sk ++ [firstn (Z.to_nat len) buf])
                           (writable sk)))
  end.

(** ** <regex>: the part of the ECMAScript grammar the client uses

    Matching is the backtracking of ECMA-262 written with continuations:
    quantifiers are greedy, an iteration of a quantifier that may be
    skipped has to consume input, and the captures of the groups inside a
    quantified term are reset when an iteration starts. *)

Module Regex.

Local Open Scope nat_scope.

Inductive t : Type :=
| Chr (c : ascii)                          (* a literal character *)
| Class (negated : bool) (cs : list ascii) (* [...] and [^...] *)
| Digit                                    (* \d *)
| Space                                    (* \s *)
| Dot                                      (* . *)
| Eps
| Seq (r1 r2 : t)
| Group (i : nat) (r : t)                  (* the i-th ( ... ) *)
| Quest (r : t)                            (* r? *)
| Star (r : t)                             (* r* *)
| Plus (r : t).                            (* r+ *)

(** The literal string [s] as a term. *)
Fixpoint lit (s : string) : t :=
  match s with
  | EmptyString => Eps
  | String c s' => Seq (Chr c) (lit s')
  end.

Definition captures : Type := list (nat * string).

(** [match[i]]: [None] when [match[i].matched] is false. *)
Fixpoint sub_match (i : nat) (caps : captures) : option string :=
  match caps with
  | [] => None
  | (j, v) :: caps' => if Nat.eqb i j then Some v else sub_match i caps'
  end.

Fixpoint groups (r : t) : list nat :=
  match r with
  | Seq r1 r2 => groups r1 ++ groups r2
  | Group i r1 => i :: groups r1
  | Quest r1 | Star r1 | Plus r1 => groups r1
  | _ => []
  end.

Definition reset (gs : list nat) (caps : captures) : captures :=
  filter (fun p => negb (existsb (Nat.eqb (fst p)) gs)) caps.

Definition is_digit (c : ascii) : bool :=
  (48 <=? nat_of_ascii c)%nat && (nat_of_ascii c <=? 57)%nat.

(** [\s]: space, \t, \n, \v, \f, \r. *)
Definition is_space (c : ascii) : bool :=
  let n := nat_of_ascii c in
  Nat.eqb n 32 || ((9 <=? n)%nat && (n <=? 13)%nat).

(** [.] matches everything but a line terminator. *)
Definition is_line_terminator (c : ascii) : bool :=
  Ascii.eqb c LF || Ascii.eqb c CR.

Definition in_class (negated : bool) (cs : list ascii) (c : ascii) : bool :=
  xorb negated (existsb (Ascii.eqb c) cs).

Section Matcher.
Variable R : Type.

Definition cont : Type := string -> captures -> option R.

Definition one (p : ascii -> bool) (s : string) (caps : captures)
           (k : cont) : option R :=
  match s with
  | String c s' => if p c then k s' caps else None
  | EmptyString => None
  end.

(** What the input lost between [s] and its suffix [s']. *)
Definition consumed (s s' : string) : string :=
  substring 0 (String.length s - String.length s') s.

Definition progress (s : string) (k : cont) : cont :=
  fun s' caps' =>
    if (String.length s' <? String.length s)%nat then k s' caps' else None.

(** Zero or more further iterations of [body], as many as possible
    first. *)
Fixpoint iterate (body : string -> captures -> cont -> option R)
         (gs : list nat) (k : cont) (fuel : nat)
         (s : string) (caps : captures) : option R :=
  match fuel with
  | O => k s caps
  | S fuel' =>
      match body s (reset gs caps)
                 (progress s (iterate body gs k fuel')) with
      | Some x => Some x
      | None => k s caps
      end
  end.

Fixpoint run (r : t) (s : string) (caps : captures) (k : cont)
  {struct r} : option R :=
  match r with
  | Chr c => one (Ascii.eqb c) s caps k
  | Class negated cs => one (in_class negated cs) s caps k
  | Digit => one is_digit s caps k
  | Space => one is_space s caps k
  | Dot => one (fun c => negb (is_line_terminator c)) s caps k
  | Eps => k s caps
  | Seq r1 r2 => run r1 s caps (fun s1 caps1 => run r2 s1 caps1 k)
  | Group i r1 =>
      run r1 s caps (fun s1 caps1 => k s1 ((i, consumed s s1) :: caps1))
  | Quest r1 =>
      match run r1 s (reset (groups r1) caps) (progress s k) with
      | Some x => Some x
      | None => k s caps
      end
  | Star r1 =>
      iterate (run r1) (groups r1) k (S (String.length s)) s caps
  | Plus r1 =>
      run r1 s (reset (groups r1) caps)
          (fun s1 caps1 =>
             iterate (run r1) (groups r1) k (S (String.length s1))
                     s1 caps1)
  end.
End Matcher.

(** [std::regex_match]: the whole of [s] has to match. *)
Definition regex_match (s : string) (r : t) : option captures :=
  run r s []
      (fun s' caps =>
         match s' with EmptyString => Some caps | _ => None end).

(** [std::regex_search]: the first match, tried from every position of
    [s] from the left. *)
Fixpoint regex_search (s : string) (r : t) : option captures :=
  match run r s [] (fun _ caps => Some caps) with
  | Some caps => Some caps
  | None =>
      match s with
      | EmptyString => None
      | String _ s' => regex_search s' r
      end
  end.

(** *** The constructor of [std::regex]

    What the constructor makes of a pattern text, for the part of the
    grammar in which the patterns of this program are written: literal
    characters, the dot, the escapes for a digit and for white space,
    bracket expressions that list plain characters, groups, and the
    three quantifiers question mark, star and plus.  A pattern in
    which a group is opened and not closed is refused with
    [regex_constants::error_paren]. *)

Inductive token : Type :=
| Atom (r : t)
| Open
| Close
| Quantifier (q : t -> t).

(** The tokens of a pattern text, [bracket] holding what has been read
    of a bracket expression that is still open.  [None] when the text
    leaves the part of the grammar described above. *)
Fixpoint tokens (bracket : option (bool * list ascii)) (s : string)
  : option (list token) :=
  match s with
  | EmptyString =>
      match bracket with
      | None => Some []
      | Some _ => None
      end
  | String c s' =>
      match bracket with
      | Some (negated, cs) =>
          if Ascii.eqb c "]" then
            match cs with
            | [] => None
            | _ :: _ =>
                option_map (cons (Atom (Class negated (rev cs))))
                           (tokens None s')
            end
          else if existsb (Ascii.eqb c) ["\"; "-"; "["]%char then None
          else tokens (Some (negated, c :: cs)) s'
      | None =>
          if Ascii.eqb c "[" then
            match s' with
            | String "^" s'' => tokens (Some (true, [])) s''
            | _ => tokens (Some (false, [])) s'
            end
          else if Ascii.eqb c "\" then
            match s' with
            | String "d" s'' =>
                option_map (cons (Atom Digit)) (tokens None s'')
            | String "s" s'' =>
                option_map (cons (Atom Space)) (tokens None s'')
            | _ => None
            end
          else if Ascii.eqb c "(" then
            match s' with
            | String "?" _ => None
            | _ => option_map (cons Open) (tokens None s')
            end
          else if Ascii.eqb c ")" then
            option_map (cons Close) (tokens None s')
          else if Ascii.eqb c "?" then
            option_map (cons (Quantifier Quest)) (tokens None s')
          else if Ascii.eqb c "*" then
            option_map (cons (Quantifier Star)) (tokens None s')
          else if Ascii.eqb c "+" then
            option_map (cons (Quantifier Plus)) (tokens None s')
          else if Ascii.eqb c "." then
            option_map (cons (Atom Dot)) (tokens None s')
          else if existsb (Ascii.eqb c) ["|"; "{"; "}"; "^"; "$"; "]"]%char
          then None
          else option_map (cons (Atom (Chr c))) (tokens None s')
      end
  end.

(** The terms of a sequence, one after the other. *)
Fixpoint sequence (rs : list t) : t :=
  match rs with
  | [] => Eps
  | [r] => r
  | r :: rs' => Seq r (sequence rs')
  end.

Inductive compiled : Type :=
| Pattern (r : t)
| error_paren       (* std::regex_error is thrown *)
| unsupported.      (* the text is outside the grammar above *)

(** The terms read so far of the sequence at hand are in [seen], newest
    first; [enclosing] holds, for every group that is open, its number
    and the terms that came before it; [next] numbers the next group
    and [quantifiable] tells whether a quantifier may follow. *)
Fixpoint parse (ts : list token) (next : nat) (quantifiable : bool)
         (seen : list t) (enclosing : list (nat * list t)) : compiled :=
  match ts with
  | [] =>
      match enclosing with
      | [] => Pattern (sequence (rev seen))
      | _ :: _ => error_paren
      end
  | Atom r :: ts' => parse ts' next true (r :: seen) enclosing
  | Open :: ts' => parse ts' (S next) false [] ((next, seen) :: enclosing)
  | Close :: ts' =>
      match enclosing with
      | [] => unsupported
      | (i, before) :: enclosing' =>
          parse ts' next true (Group i (sequence (rev seen)) :: before)
                enclosing'
      end
  | Quantifier q :: ts' =>
      match quantifiable, seen with
      | true, r :: seen' => parse ts' next false (q r :: seen') enclosing
      | _, _ => unsupported
      end
  end.

(** [std::regex re(pattern)]. *)
Definition compile (pattern : string) : compiled :=
  match tokens None pattern with
  | Some ts => parse ts 1 false [] []
  | None => unsupported
  end.

End Regex.

(** ** C strings *)

(** The string a [char] buffer holds when read as a C string: the
    characters before the first NUL. *)
Fixpoint c_str (buffer : list Z) : string :=
  match buffer with
  | [] => EmptyString
  | b :: buffer' =>
      if b mod 256 =? 0 then EmptyString else String (chr b) (c_str buffer')
  end.

(** [strstr(haystack, needle)]: the suffix of [haystack] that starts at
    the first occurrence of [needle], [None] for [nullptr]. *)
Fixpoint strstr (haystack needle : string) : option string :=
  if prefix needle haystack then Some haystack
  else
    match haystack with
    | EmptyString => None
    | String _ haystack' => strstr haystack' needle
    end.

(** [std::stoi] on a string of decimal digits; [None] is the
    [std::out_of_range] it throws when the value does not fit an [int]. *)
Definition stoi (digits : string) : option Z :=
  let v := fold_left (fun acc c => 10 * acc + (u8 c - 48))
                     (list_ascii_of_string digits) 0 in
  if v <=? INT_MAX then Some v else None.

(** ** SignalingClient.cpp *)

Module SignalingClient.

(** What the environment sees of a client, kept for the statements:
    the values [SetState] stored in [m_state], the calls of the two
    callbacks, the sockets given to [closesocket] and the number of
    threads started on [RunLoop], all oldest first. *)
Record Observed : Type := mkObserved {
  states_entered : list ConnectionState;
  state_notified : list ConnectionState;
  dispatched : list (string * string);
  closed : list Socket;
  threads_started : nat
}.

Record t : Type := mk {
  m_socket : SOCKET;
  m_thread : bool;             (* m_thread.joinable() *)
  m_running : bool;
  m_state : ConnectionState;
  m_messageCallback : bool;    (* a handler is registered *)
  m_stateCallback : bool;
  m_serverUrl : string;
  m_room : string;
  observed : Observed
}.

(** A client as its constructor leaves it. *)
Definition create : t :=
  mk None false false Disconnected false false EmptyString EmptyString
     (mkObserved [] [] [] [] 0).

Definition with_socket (c : t) (s : SOCKET) : t :=
  mk s (m_thread c) (m_running c) (m_state c) (m_messageCallback c)
     (m_stateCallback c) (m_serverUrl c) (m_room c) (observed c).

Definition with_thread (c : t) (joinable : bool) : t :=
  mk (m_socket c) joinable (m_running c) (m_state c) (m_messageCallback c)
     (m_stateCallback c) (m_serverUrl c) (m_room c) (observed c).

Definition with_running (c : t) (b : bool) : t :=
  mk (m_socket c) (m_thread c) b (m_state c) (m_messageCallback c)
     (m_stateCallback c) (m_serverUrl c) (m_room c) (observed c).

Definition with_observed (c : t) (o : Observed) : t :=
  mk (m_socket c) (m_thread c) (m_running c) (m_state c)
     (m_messageCallback c) (m_stateCallback c) (m_serverUrl c) (m_room c) o.

Definition SetMessageCallback (c : t) : t :=
  mk (m_socket c) (m_thread c) (m_running c) (m_state c) true
     (m_stateCallback c) (m_serverUrl c) (m_room c) (observed c).


Definition GetState (c : t) : ConnectionState := m_state c.

Definition IsConnected (c : t) : bool :=
  match m_state c with Connected => true | _ => false end.

Definition SetState (c : t) (state : ConnectionState) : t :=
  let o := observed c in
  mk (m_socket c) (m_thread c) (m_running c) state (m_messageCallback c)
     (m_stateCallback c) (m_serverUrl c) (m_room c)
     (mkObserved (states_entered o ++ [state])
                 (if m_stateCallback c
                  then state_notified o ++ [state] else state_notified o)
                 (dispatched o) (closed o) (threads_started o)).

(** [closesocket(m_socket); m_socket = INVALID_SOCKET;] *)
Definition close (c : t) : t :=
  let o := observed c in
  mk None (m_thread c) (m_running c) (m_state c) (m_messageCallback c)
     (m_stateCallback c) (m_serverUrl c) (m_room c)
     (mkObserved (states_entered o) (state_notified o) (dispatched o)
                 (match m_socket c with
                  | Some sk => closed o ++ [sk]
                  | None => closed o
                  end)
                 (threads_started o)).

(** [m_thread = std::thread(&SignalingClient::RunLoop, this);]  The
    assignment calls [std::terminate] when [m_thread] is still
    joinable: [None]. *)
Definition start_thread (c : t) : option t :=
  if m_thread c then None
  else
    let o := observed c in
    Some (with_thread
            (with_observed c
               (mkObserved (states_entered o) (state_notified o)
                           (dispatched o) (closed o)
                           (S (threads_started o))))
            true).

(** The network a client runs against: name resolution, the outcome of
    [socket] and [connect], the socket a successful [socket] call gives,
    and the draws of the random number generator. *)
Record Network : Type := mkNetwork {
  resolves : string -> Z -> bool;
  socket_created : bool;
  connects : bool;
  peer : Socket;
  random_byte : nat -> Z
}.

Definition ConnectSocket (net : Network) (c : t) (host : string) (port : Z)
  : bool * t :=
  if negb (resolves net host port) then (false, c)
  else if negb (socket_created net) then (false, with_socket c None)
  else
    let c1 := with_socket c (Some (peer net)) in
    if negb (connects net) then (false, close c1)
    else (true, c1).

Definition base64_chars : string :=
  "ABCDEFGHIJKLMNOPQRSTUVWXYZabcdefghijklmnopqrstuvwxyz0123456789+/".

Definition base64_char (i : Z) : ascii :=
  match String.get (Z.to_nat i) base64_chars with
  | Some ch => ch
  | None => zero
  end.

(** The loop [for (i = 0; i < key.size(); i += 3)]. *)
Fixpoint base64 (key : list Z) : string :=
  match key with
  | [] => EmptyString
  | [k0] =>
      let n := Z.shiftl k0 16 in
      String (base64_char (Z.land (Z.shiftr n 18) 0x3F))
     (String (base64_char (Z.land (Z.shiftr n 12) 0x3F))
     (String "=" (String "=" EmptyString)))
  | [k0; k1] =>
      let n := Z.lor (Z.shiftl k0 16) (Z.shiftl k1 8) in
      String (base64_char (Z.land (Z.shiftr n 18) 0x3F))
     (String (base64_char (Z.land (Z.shiftr n 12) 0x3F))
     (String (base64_char (Z.land (Z.shiftr n 6) 0x3F))
     (String "=" EmptyString)))
  | k0 :: k1 :: k2 :: key' =>
      let n := Z.lor (Z.lor (Z.shiftl k0 16) (Z.shiftl k1 8)) k2 in
      String (base64_char (Z.land (Z.shiftr n 18) 0x3F))
     (String (base64_char (Z.land (Z.shiftr n 12) 0x3F))
     (String (base64_char (Z.land (Z.shiftr n 6) 0x3F))
     (String (base64_char (Z.land n 0x3F)) (base64 key'))))
  end.

(** The sixteen characters of the key, [static_cast<char>(dis(gen))]. *)
Definition websocket_key (net : Network) : list ascii :=
  map (fun i => chr (random_byte net i)) (seq 0 16).

Definition handshake_request (path encodedKey : string) : string :=
  ("GET " ++ path ++ " HTTP/1.1" ++ CRLF
   ++ "Host: localhost" ++ CRLF
   ++ "Upgrade: websocket" ++ CRLF
   ++ "Connection: Upgrade" ++ CRLF
   ++ "Sec-WebSocket-Key: " ++ encodedKey ++ CRLF
   ++ "Sec-WebSocket-Version: 13" ++ CRLF
   ++ CRLF)%string.

Definition PerformHandshake (net : Network) (c : t) (path : string)
  : bool * t :=
  let key := websocket_key net in
  let encodedKey := base64 (map u8 key) in
  let requestStr := handshake_request path encodedKey in
  let '(sent, s1) :=
    send (m_socket c) (bytes_of_string requestStr)
         (to_int (Z.of_nat (String.length requestStr))) in
  if sent =? SOCKET_ERROR then (false, with_socket c s1)
  else
    let '(received, buffer, s2) := recv s1 (1024 - 1) in
    if received <=? 0 then (false, with_socket c s2)
    else
      (match strstr (c_str (buffer ++ [0])) "101" with
       | Some _ => true
       | None => false
       end,
       with_socket c s2).


(** The pattern of [Connect]: the scheme [ws://]; group 1, one or more
    characters other than [:] and [/]; an optional [:]; optionally
    group 2, one or more digits; optionally group 3, an optional [/]
    followed by any number of characters. *)
Definition urlRegex : Regex.t :=
  Regex.Seq (Regex.lit "ws://")
 (Regex.Seq (Regex.Group 1 (Regex.Plus (Regex.Class true [":"; "/"]%char)))
 (Regex.Seq (Regex.Quest (Regex.Chr ":"))
 (Regex.Seq (Regex.Quest (Regex.Group 2 (Regex.Plus Regex.Digit)))
            (Regex.Quest
               (Regex.Group 3 (Regex.Seq (Regex.Quest (Regex.Chr "/"))
                                         (Regex.Star Regex.Dot))))))).

(** The first part of [Connect]: host, port and path from [url], with
    the query parameters added to the path.  [None] when [std::stoi]
    throws. *)
Definition ParseUrl (url room : string) : option (string * Z * string) :=
  let host := "localhost"%string in
  let port := 8080 in
  let path := "/"%string in
  let parsed :=
    match Regex.regex_match url urlRegex with
    | Some caps =>
        let host :=
          match Regex.sub_match 1 caps with
          | Some h => h
          | None => EmptyString
          end in
        let port :=
          match Regex.sub_match 2 caps with
          | Some digits => stoi digits
          | None => Some port
          end in
        let path :=
          match Regex.sub_match 3 caps with
          | Some (String a p) => String a p
          | _ => path
          end in
        match port with
        | Some port => Some (host, port, path)
        | None => None
        end
    | None => Some (host, port, path)
    end in
  match parsed with
  | Some (host, port, path) =>
      Some (host, port, (path ++ "?room=" ++ room ++ "&role=receiver")%string)
  | None => None
  end.

(** [Connect]; [None] when it does not return: [std::stoi] throws, or
    the thread is assigned while the one before is still joinable. *)
Definition Connect (net : Network) (c : t) (url room : string)
  : option (bool * t) :=
  let c :=
    mk (m_socket c) (m_thread c) (m_running c) (m_state c)
       (m_messageCallback c) (m_stateCallback c) url room (observed c) in
  match ParseUrl url room with
  | None => None
  | Some (host, port, path) =>
      let '(connected, c1) := ConnectSocket net c host port in
      if negb connected then Some (false, SetState c1 Error)
      else
        let '(upgraded, c2) := PerformHandshake net c1 path in
        if negb upgraded then Some (false, SetState (close c2) Error)
        else
          let c3 := SetState c2 Connected in
          match start_thread (with_running c3 true) with
          | Some c4 => Some (true, c4)
          | None => None
          end
  end.

(** [Disconnect]; a joinable receive thread is joined. *)
Definition Disconnect (c : t) : t :=
  let c1 := with_running c false in
  let c2 := match m_socket c1 with Some _ => close c1 | None => c1 end in
  let c3 := if m_thread c2 then with_thread c2 false else c2 in
  SetState c3 Disconnected.

(** [recv] into [&payload[totalReceived]]: the octets of [got] stored in
    the buffer from index [at_]. *)
Definition store (payload : list Z) (at_ : Z) (got : list Z) : list Z :=
  firstn (Z.to_nat at_) payload ++ got
  ++ skipn (Z.to_nat at_ + length got) payload.

(** The loop [while (totalReceived < payloadLen)] of [ReadFrame].  Every
    iteration that does not leave the loop adds at least one to
    [totalReceived], so [payloadLen] iterations are enough. *)
Fixpoint read_payload (fuel : nat) (s : SOCKET) (payloadLen : Z)
         (totalReceived : Z) (payload : list Z) : list Z * SOCKET :=
  match fuel with
  | O => (payload, s)
  | S fuel' =>
      if totalReceived <? payloadLen then
        let '(received, got, s') :=
          recv s (to_int (payloadLen - totalReceived)) in
        if received <=? 0 then (payload, s')
        else read_payload fuel' s' payloadLen (totalReceived + received)
                          (store payload totalReceived got)
      else (payload, s)
  end.

(** The length of the payload after the two header octets: [None] when
    the read of an extended length comes back short. *)
Definition read_length (s : SOCKET) (header : list Z) : option Z * SOCKET :=
  let payloadLen := Z.land (nth 1 header 0) 0x7F in
  if payloadLen =? 126 then
    let '(received, len16, s') := recv s 2 in
    if negb (received =? 2) then (None, s')
    else (Some (Z.lor (Z.shiftl (nth 0 len16 0) 8) (nth 1 len16 0)), s')
  else if payloadLen =? 127 then
    let '(received, len64, s') := recv s 8 in
    if negb (received =? 8) then (None, s')
    else
      (Some (fold_left (fun payloadLen i =>
                          Z.lor (to_u64 (Z.shiftl payloadLen 8))
                                (nth i len64 0))
                       (seq 0 8) 0), s')
  else (Some payloadLen, s).

(** [payload.max_size()], the largest size [payload.resize] accepts:
    [PTRDIFF_MAX], [size_t] having 64 bits. *)
Definition max_size : Z := 2 ^ 63 - 1.

(** Whether [ReadFrame] leaves by the [std::length_error] of
    [payload.resize]: the frame announces more than [max_size]
    octets. *)
Definition ReadFrame_throws (c : t) : bool :=
  let '(received, header, s1) := recv (m_socket c) 2 in
  if negb (received =? 2) then false
  else
    match read_length s1 header with
    | (None, _) => false
    | (Some payloadLen, _) => max_size <? payloadLen
    end.

(** [ReadFrame] when it returns; below [max_size], [payload.resize] is
    taken to find the memory it asks for. *)
Definition ReadFrame (c : t) : string * t :=
  let '(received, header, s1) := recv (m_socket c) 2 in
  if negb (received =? 2) then (EmptyString, with_socket c s1)
  else
    match read_length s1 header with
    | (None, s2) => (EmptyString, with_socket c s2)
    | (Some payloadLen, s2) =>
        let payload := repeat 0 (Z.to_nat payloadLen) in
        let '(payload, s3) :=
          read_payload (Z.to_nat payloadLen) s2 payloadLen 0 payload in
        (string_of_bytes payload, with_socket c s3)
    end.

Definition mask : list Z := [0x12; 0x34; 0x56; 0x78].

(** The [std::vector<unsigned char> frame] that [WriteFrame] builds;
    [size_t] has 64 bits. *)
Definition build_frame (data : string) : list Z :=
  let size := Z.of_nat (String.length data) in
  let frame := [0x81] in
  let frame :=
    if size <=? 125 then frame ++ [Z.lor 0x80 (to_uchar size)]
    else if size <=? 65535 then
      (frame ++ [Z.lor 0x80 126])
        ++ [Z.land (Z.shiftr size 8) 0xFF] ++ [Z.land size 0xFF]
    else
      (frame ++ [Z.lor 0x80 127])
        ++ map (fun i => Z.land (Z.shiftr size (i * 8)) 0xFF)
               [7; 6; 5; 4; 3; 2; 1; 0] in
  let frame := frame ++ mask in
  frame
    ++ map (fun i =>
              to_uchar
                (Z.lxor (char_val (nth i (list_ascii_of_string data) zero))
                        (nth (i mod 4) mask 0)))
           (seq 0 (String.length data)).

Definition WriteFrame (c : t) (data : string) : bool * t :=
  let frame := build_frame data in
  let '(sent, s') :=
    send (m_socket c) frame (to_int (Z.of_nat (length frame))) in
  (negb (sent =? SOCKET_ERROR), with_socket c s').

(** [Send]: [WriteFrame] with [m_sendMutex] held. *)
Definition Send (c : t) (message : string) : bool * t :=
  WriteFrame c message.

(** The pattern of [OnMessage] as its raw string literal delimits it:
    the literal ends at the first closing parenthesis that a double
    quote follows, which is the one meant to close the group.  The
    text is: the word type in double quotes, white space, a colon,
    white space, a double quote, and the opening of group 1 with one
    or more characters other than the double quote; the group is left
    open. *)
Definition type_pattern : string :=
  (String dquote "type" ++ String dquote "\s*:\s*"
   ++ String dquote "([^" ++ String dquote "]+")%string.

(** [OnMessage] from [std::smatch match;] on, the pattern having been
    constructed as [re]. *)
Definition OnMessage_with (re : Regex.t) (c : t) (message : string) : t :=
  let type :=
    match Regex.regex_search message re with
    | Some caps =>
        match Regex.sub_match 1 caps with
        | Some v => v
        | None => EmptyString
        end
    | None => EmptyString
    end in
  if m_messageCallback c then
    let o := observed c in
    with_observed c
      (mkObserved (states_entered o) (state_notified o)
                  (dispatched o ++ [(type, message)])
                  (closed o) (threads_started o))
  else c.

(** [OnMessage]; [None] when the constructor of [typeRegex] throws
    [std::regex_error].  The pattern is within the grammar that
    [Regex.compile] covers. *)
Definition OnMessage (c : t) (message : string) : option t :=
  match Regex.compile type_pattern with
  | Regex.Pattern typeRegex => Some (OnMessage_with typeRegex c message)
  | _ => None
  end.

(** [RunLoop], for at most [fuel] turns of its loop; [None] when an
    exception leaves [ReadFrame] or [OnMessage], and with it the
    loop. *)
Fixpoint RunLoop (fuel : nat) (c : t) : option t :=
  match fuel with
  | O => Some c
  | S fuel' =>
      if m_running c && (match m_socket c with Some _ => true | None => false end)
      then
        if ReadFrame_throws c then None
        else
          let '(message, c1) := ReadFrame c in
          match message with
          | EmptyString => RunLoop fuel' c1
          | _ =>
              match OnMessage c1 message with
              | Some c2 => RunLoop fuel' c2
              | None => None
              end
          end
      else Some c
  end.

(** The text [operator<<] writes for an [int]. *)
Definition int_to_string (z : Z) : string :=
  NilZero.string_of_int (Z.to_int z).

(** The text [SendAnswer] puts together. *)
Definition answer_json (sdp : string) : string :=
  ("{" ++ String dquote "type" ++ String dquote ":"
       ++ String dquote "answer" ++ String dquote ","
       ++ String dquote "sdp" ++ String dquote ":"
       ++ String dquote sdp ++ String dquote "}")%string.

(** [SendAnswer]; the result of [Send] is dropped. *)
Definition SendAnswer (c : t) (sdp : string) : t :=
  snd (Send c (answer_json sdp)).

(** The text [SendIceCandidate] puts together. *)
Definition candidate_json (sdpMid : string) (sdpMLineIndex : Z)
           (candidate : string) : string :=
  ("{" ++ String dquote "type" ++ String dquote ":"
       ++ String dquote "ice-candidate" ++ String dquote ","
       ++ String dquote "candidate" ++ String dquote ":{"
       ++ String dquote "sdpMid" ++ String dquote ":"
       ++ String dquote sdpMid ++ String dquote ","
       ++ String dquote "sdpMLineIndex" ++ String dquote ":"
       ++ int_to_string sdpMLineIndex ++ ","
       ++ String dquote "candidate" ++ String dquote ":"
       ++ String dquote candidate ++ String dquote "}}")%string.

(** [SendIceCandidate]; the result of [Send] is dropped. *)
Definition SendIceCandidate (c : t) (sdpMid : string) (sdpMLineIndex : Z)
           (candidate : string) : t :=
  snd (Send c (candidate_json sdpMid sdpMLineIndex candidate)).

End SignalingClient.

(** ** Application.cpp: the handler of signaling messages

    [WebRTCReceiver.cpp] is not among the sources: [CreateAnswer] is a
    parameter, and the calls of [AddIceCandidate] are recorded, as are
    the calls of [UpdateTrayStatus]. *)

Module Application.

Section WithReceiver.
Variable CreateAnswer : string -> string.

Record t : Type := mk {
  m_signalingClient : SignalingClient.t;
  ice_candidates : list (string * Z * string);
  tray_updates : nat
}.

(** The patterns of [OnSignalingMessage] as their raw string literals
    delimit them: a name in double quotes, white space, a colon, white
    space, and the value as group 1.  For sdp, sdpMid and candidate
    the value is a double quote followed by any number of characters
    other than the double quote, and the literal ends, as in
    [SignalingClient::OnMessage], at the parenthesis meant to close the
    group, which is left open.  For sdpMLineIndex the value is one or
    more digits and the group is closed. *)
Definition sdp_pattern : string :=
  (String dquote "sdp" ++ String dquote "\s*:\s*"
   ++ String dquote "([^" ++ String dquote "]*")%string.

Definition mid_pattern : string :=
  (String dquote "sdpMid" ++ String dquote "\s*:\s*"
   ++ String dquote "([^" ++ String dquote "]*")%string.

Definition index_pattern : string :=
  (String dquote "sdpMLineIndex" ++ String dquote "\s*:\s*(\d+)")%string.

Definition candidate_pattern : string :=
  (String dquote "candidate" ++ String dquote "\s*:\s*"
   ++ String dquote "([^" ++ String dquote "]*")%string.

(** [match[1].str()] after a [regex_search]. *)
Definition first_group (payload : string) (re : Regex.t) : option string :=
  match Regex.regex_search payload re with
  | Some caps =>
      Some (match Regex.sub_match 1 caps with
            | Some v => v
            | None => EmptyString
            end)
  | None => None
  end.

Definition UpdateTrayStatus (app : t) : t :=
  mk (m_signalingClient app) (ice_candidates app) (S (tray_updates app)).

(** [OnSignalingMessage]; [None] when an exception leaves it: the
    [std::regex_error] of the constructor of a pattern, or the
    [std::out_of_range] of [std::stoi].  The four patterns are within
    the grammar that [Regex.compile] covers. *)
Definition OnSignalingMessage (app : t) (type payload : string)
  : option t :=
  if String.eqb type "offer" then
    match Regex.compile sdp_pattern with
    | Regex.Pattern sdpRegex =>
        match first_group payload sdpRegex with
        | Some offerSdp =>
            let answerSdp := CreateAnswer offerSdp in
            Some (mk (SignalingClient.SendAnswer (m_signalingClient app)
                                                 answerSdp)
                     (ice_candidates app) (tray_updates app))
        | None => Some app
        end
    | _ => None
    end
  else if String.eqb type "ice-candidate" then
    match Regex.compile mid_pattern, Regex.compile index_pattern,
          Regex.compile candidate_pattern with
    | Regex.Pattern midRegex, Regex.Pattern indexRegex,
      Regex.Pattern candidateRegex =>
        let sdpMid :=
          match first_group payload midRegex with
          | Some v => v
          | None => EmptyString
          end in
        let sdpMLineIndex :=
          match first_group payload indexRegex with
          | Some digits => stoi digits
          | None => Some 0
          end in
        let candidate :=
          match first_group payload candidateRegex with
          | Some v => v
          | None => EmptyString
          end in
        match sdpMLineIndex with
        | Some sdpMLineIndex =>
            Some (mk (m_signalingClient app)
                     (ice_candidates app
                        ++ [(sdpMid, sdpMLineIndex, candidate)])
                     (tray_updates app))
        | None => None
        end
    | _, _, _ => None
    end
  else if String.eqb type "peer-joined" then Some (UpdateTrayStatus app)
  else if String.eqb type "peer-left" then Some (UpdateTrayStatus app)
  else Some app.

End WithReceiver.

End Application.

(** ** Common.h: the dimensions of a video frame *)

Definition VIDEO_WIDTH : Z := 1280.
Definition VIDEO_HEIGHT : Z := 720.

(** [VideoFrame(int w, int h)]: [data.resize(w * h * 4)] gives that
    many octets of value 0. *)
Definition VideoFrame_sized (w h : Z) : VideoFrame :=
  mkVideoFrame (repeat 0 (Z.to_nat (w * h * 4))) w h 0.

(** ** SimpleReceiver.cpp: the receive side

    The stream carries frames one after the other: four octets with the
    size of the frame, least significant first, then that many octets.
    [Start], [Stop] and [AcceptLoop] live on [bind], [listen], [select]
    and [accept] and are left out; [ReceiveLoop] is the body of the
    thread started for an accepted client. *)

Module SimpleReceiver.

Record t : Type := mk {
  m_frameBuffer : FrameBuffer.t;   (* the shared buffer *)
  m_clientSocket : SOCKET;
  m_running : bool;
  m_stateCallback : bool;          (* a callback is registered *)
  notified : list ConnectionState; (* the calls of m_stateCallback *)
  clock_readings : nat             (* readings of the system clock so far *)
}.

Definition with_socket (c : t) (s : SOCKET) : t :=
  mk (m_frameBuffer c) s (m_running c) (m_stateCallback c) (notified c)
     (clock_readings c).

Definition with_buffer (c : t) (fb : FrameBuffer.t) : t :=
  mk fb (m_clientSocket c) (m_running c) (m_stateCallback c) (notified c)
     (clock_readings c).

(** [if (m_stateCallback) m_stateCallback(state);] *)
Definition notify (c : t) (state : ConnectionState) : t :=
  if m_stateCallback c
  then mk (m_frameBuffer c) (m_clientSocket c) (m_running c)
          (m_stateCallback c) (notified c ++ [state]) (clock_readings c)
  else c.

(** The loop of [ReceiveExact] and its [return received == size].
    Every iteration that does not return adds at least one to
    [received], so [size] iterations are enough. *)
Fixpoint receive (fuel : nat) (s : SOCKET) (running : bool)
         (size received : Z) (buffer : list Z) : bool * list Z * SOCKET :=
  match fuel with
  | O => (received =? size, buffer, s)
  | S fuel' =>
      if (received <? size) && running then
        let '(result, got, s') := recv s (to_int (size - received)) in
        if result <=? 0 then (false, buffer, s')
        else receive fuel' s' running size (received + result)
                     (SignalingClient.store buffer received got)
      else (received =? size, buffer, s)
  end.

(** [ReceiveExact(buffer, size)]: the result, the buffer afterwards and
    the receiver afterwards. *)
Definition ReceiveExact (c : t) (buffer : list Z) (size : Z)
  : bool * list Z * t :=
  let '(ok, buffer', s') :=
    receive (Z.to_nat size) (m_clientSocket c) (m_running c) size 0 buffer in
  (ok, buffer', with_socket c s').

(** The [uint32_t] whose four octets in memory are [b]; the target is
    little-endian. *)
Definition uint32_of (b : list Z) : Z :=
  nth 0 b 0 + 2 ^ 8 * nth 1 b 0 + 2 ^ 16 * nth 2 b 0 + 2 ^ 24 * nth 3 b 0.

(** [d[i] = v] on a [std::vector]; [None] when [i] is out of range. *)
Definition assign (d : list Z) (i v : Z) : option (list Z) :=
  if (0 <=? i) && (i <? Z.of_nat (length d))
  then Some (firstn (Z.to_nat i) d ++ v :: skipn (S (Z.to_nat i)) d)
  else None.

(** The values [0 .. n-1] a [for] loop goes through. *)
Definition range (n : Z) : list Z := map Z.of_nat (seq 0 (Z.to_nat n)).

(** The body of the inner loop of [DecodeJPEG]: the four octets of the
    pixel ([x], [y]). *)
Definition set_pixel (jpeg_size y : Z) (d : option (list Z)) (x : Z)
  : option (list Z) :=
  let offset := (y * VIDEO_WIDTH + x) * 4 in
  match d with
  | None => None
  | Some d =>
  match assign d (offset + 0)
               (to_uchar (Z.land (Z.shiftr jpeg_size 8) 0xFF)) with
  | None => None
  | Some d =>
  match assign d (offset + 1) (to_uchar (Z.rem y 256)) with
  | None => None
  | Some d =>
  match assign d (offset + 2) (to_uchar (Z.rem x 256)) with
  | None => None
  | Some d => assign d (offset + 3) 255
  end end end end.

(** The two loops of [DecodeJPEG]. *)
Definition fill (jpeg_size : Z) (d : list Z) : option (list Z) :=
  fold_left
    (fun d y => fold_left (set_pixel jpeg_size y) (range VIDEO_WIDTH) d)
    (range VIDEO_HEIGHT) (Some d).

(** The outcome of a step that may run into undefined behaviour,
    handed to what follows it. *)
Definition and_then (A B : Type) (r : option A) (k : A -> option B)
  : option B :=
  match r with
  | Some a => k a
  | None => None
  end.

Section WithClock.

(** The value of [system_clock::now()], in milliseconds since the
    epoch, at its [k]-th reading. *)
Variable now_ms : nat -> Z.

(** [DecodeJPEG]: the result, the frame and the receiver afterwards;
    [None] when a write falls outside [frame.data]. *)
Definition DecodeJPEG (c : t) (jpeg : list Z)
  : option (bool * VideoFrame * t) :=
  let frame := VideoFrame_sized VIDEO_WIDTH VIDEO_HEIGHT in
  let ts := now_ms (clock_readings c) in
  let c := mk (m_frameBuffer c) (m_clientSocket c) (m_running c)
              (m_stateCallback c) (notified c) (S (clock_readings c)) in
  and_then (fill (Z.of_nat (length jpeg)) (data frame))
           (fun d =>
              Some (true, mkVideoFrame d (width frame) (height frame) ts, c)).

(** [ReceiveLoop], for at most [fuel] turns of its loop; [None] when it
    runs into undefined behaviour. *)
Fixpoint ReceiveLoop (fuel : nat) (c : t) : option t :=
  match fuel with
  | O => Some c
  | S fuel' =>
      if m_running c
         && (match m_clientSocket c with Some _ => true | None => false end)
      then
        let '(ok, header, c1) := ReceiveExact c [0; 0; 0; 0] 4 in
        if negb ok then Some (notify c1 Disconnected)
        else
          let frameSize := uint32_of header in
          if (frameSize =? 0) || (frameSize >? 10 * 1024 * 1024)
          then Some (notify c1 Disconnected)
          else
            let '(ok, jpegData, c2) :=
              ReceiveExact c1 (repeat 0 (Z.to_nat frameSize)) frameSize in
            if negb ok then Some (notify c2 Disconnected)
            else
              and_then
                (DecodeJPEG c2 jpegData)
                (fun '(decoded, frame, c3) =>
                   if decoded : bool then
                     and_then
                       (FrameBuffer.Push (m_frameBuffer c3) frame)
                       (fun fb => ReceiveLoop fuel' (with_buffer c3 fb))
                   else ReceiveLoop fuel' c3)
      else Some (notify c Disconnected)
  end.

End WithClock.

End SimpleReceiver.

(** ** VirtualCamera.cpp: frames for the filter

    The shared memory is four [int]s followed by the octets of the
    picture.  [Start] and [CreateSharedMemory] obtain it from the
    system and are left out, as are the registration functions. *)

Module VirtualCamera.

Record SharedMemory : Type := mkSharedMemory {
  header : list Z;   (* int header[4] *)
  pixels : list Z    (* VIDEO_WIDTH * VIDEO_HEIGHT * 4 octets *)
}.

Record t : Type := mk {
  m_frameBuffer : FrameBuffer.t;   (* the shared buffer *)
  m_running : bool;
  m_sharedMemoryPtr : option SharedMemory;
  m_frameEvent : bool;             (* the event handle is not null *)
  events_set : nat                 (* the calls of SetEvent *)
}.

Definition with_buffer (c : t) (fb : FrameBuffer.t) : t :=
  mk fb (m_running c) (m_sharedMemoryPtr c) (m_frameEvent c) (events_set c).

(** [PushFrame] *)
Definition PushFrame (c : t) (frame : VideoFrame) : t :=
  match m_sharedMemoryPtr c with
  | Some mem =>
      if negb (m_frameEvent c) then c
      else
        let header :=
          [width frame; height frame;
           to_int (Z.land (timestamp frame) 0xFFFFFFFF);
           to_int (Z.land (Z.shiftr (timestamp frame) 32) 0xFFFFFFFF)] in
        let pixelSize :=
          Z.min (Z.of_nat (length (data frame)))
                (VIDEO_WIDTH * VIDEO_HEIGHT * 4) in
        let pixels :=
          firstn (Z.to_nat pixelSize) (data frame)
          ++ skipn (Z.to_nat pixelSize) (pixels mem) in
        mk (m_frameBuffer c) (m_running c)
           (Some (mkSharedMemory header pixels)) (m_frameEvent c)
           (S (events_set c))
  | None => c
  end.

(** [FrameLoop], for at most [fuel] turns of its loop. *)
Fixpoint FrameLoop (fuel : nat) (c : t) : t :=
  match fuel with
  | O => c
  | S fuel' =>
      if m_running c then
        match FrameBuffer.Pop (m_frameBuffer c) with
        | (Some frame, fb) =>
            FrameLoop fuel' (PushFrame (with_buffer c fb) frame)
        | (None, fb) => FrameLoop fuel' (with_buffer c fb)
        end
      else c
  end.

End VirtualCamera.

(** ** The wire format as the specification words it *)

Module Wire.

(** [n] in [k] octets, most significant first. *)
Fixpoint big_endian (k : nat) (n : Z) : list Z :=
  match k with
  | O => []
  | S k' => (n / 256 ^ Z.of_nat k') mod 256 :: big_endian k' n
  end.

(** The value of a big-endian octet string. *)
Definition of_big_endian (bs : list Z) : Z :=
  fold_left (fun acc b => 256 * acc + b) bs 0.

(** The length field of a frame whose payload has [n] octets, [mask_bit]
    being 128 for a masked frame and 0 otherwise. *)
Definition length_field (mask_bit : Z) (n : Z) : list Z :=
  if n <=? 125 then [mask_bit + n]
  else if n <=? 65535 then (mask_bit + 126) :: big_endian 2 n
  else (mask_bit + 127) :: big_endian 8 n.

(** Octet [i] of the payload XORed with octet [i mod 4] of the key. *)
Fixpoint masked_from (i : nat) (key : list Z) (payload : list ascii)
  : list Z :=
  match payload with
  | [] => []
  | ch :: payload' =>
      Z.lxor (u8 ch) (nth (i mod 4) key 0) :: masked_from (S i) key payload'
  end.

Definition masked (key : list Z) (payload : string) : list Z :=
  masked_from 0 key (list_ascii_of_string payload).

(** A frame from client to server: final text frame, masked. *)
Definition client_frame (key : list Z) (payload : string) : list Z :=
  [0x81] ++ length_field 128 (Z.of_nat (String.length payload))
         ++ key ++ masked key payload.

(** A frame from server to client: the same length coding, no mask bit,
    no key, the payload in clear.  The peer is not part of the source;
    this is the format the specification gives for it. *)
Definition server_frame (payload : string) : list Z :=
  [0x81] ++ length_field 0 (Z.of_nat (String.length payload))
         ++ bytes_of_string payload.

(** [s] contains [token]. *)
Definition contains (s token : string) : Prop :=
  exists before after : string, s = (before ++ token ++ after)%string.

End Wire.

(** ** Scenarios *)

Module Scenario.
Import SignalingClient.

(** An empty frame with time stamp [ts]. *)
Definition blank (ts : Z) : VideoFrame := mkVideoFrame [] 0 0 ts.

(** A client whose socket is connected to a peer that sends [pieces] and
    then closes. *)
Definition receiving (pieces : list (list Z)) : t :=
  with_socket create (Some (mkSocket pieces 0 [] true)).

(** What a client has put on the wire. *)
Definition on_the_wire (c : t) : list (list Z) :=
  match m_socket c with
  | Some sk => outbound sk
  | None => []
  end.

(** [WriteFrame] on one client, [ReadFrame] by another on the octets the
    first one sent. *)
Definition loopback (data : string) : string :=
  let (_, sender) := WriteFrame (receiving []) data in
  fst (ReadFrame (receiving (on_the_wire sender))).

(** A control message that starts with the field type, of value offer,
    and goes on with [rest]. *)
Definition offer_with (rest : string) : string :=
  ("{" ++ String dquote "type" ++ String dquote ":"
       ++ String dquote "offer" ++ String dquote rest)%string.

(** The control message of the offer scenario: the object with the
    fields type (offer) and sdp (v=0...). *)
Definition offer : string :=
  offer_with ("," ++ String dquote "sdp" ++ String dquote ":"
                  ++ String dquote "v=0..." ++ String dquote "}")%string.

(** A running client with a message handler, connected to a peer that
    sends [offer] in one frame. *)
Definition listening : t :=
  with_running
    (SetMessageCallback (receiving [Wire.server_frame offer])) true.

(** The reply of the mock peer of the connect scenario. *)
Definition switching_protocols : string :=
  ("HTTP/1.1 101 Switching Protocols" ++ CRLF ++ CRLF)%string.

(** A network where the connection succeeds and the peer answers the
    handshake with [reply]. *)
Definition mock (reply : list Z) : Network :=
  mkNetwork (fun _ _ => true) true true
            (mkSocket [reply] 0 [] true) (fun i => Z.of_nat i).

End Scenario.

(** ** Auxiliary notions for the statements *)

Definition is_empty (s : string) : bool :=
  match s with
  | EmptyString => true
  | _ => false
  end.

(** The first character of [s] satisfies [p]. *)
Definition first_is (p : ascii -> bool) (s : string) : bool :=
  match s with
  | String c _ => p c
  | EmptyString => false
  end.

(** Every character of [s] satisfies [p]. *)
Definition every (p : ascii -> bool) (s : string) : bool :=
  forallb p (list_ascii_of_string s).

(** The characters a host name is made of for the pattern of
    [Connect]: all but the colon and the slash. *)
Definition not_separator : ascii -> bool :=
  Regex.in_class true [":"; "/"]%char.

(** The characters the dot of a pattern matches. *)
Definition not_line_terminator (c : ascii) : bool :=
  negb (Regex.is_line_terminator c).

(** The inbound side of a socket once a [recv] has left [left] of its
    first piece unread. *)
Definition requeue (left : list Z) (rest : list (list Z)) : list (list Z) :=
  match left with
  | [] => rest
  | _ => left :: rest
  end.

(** The newest [n] elements of [l], oldest first. *)
Definition newest (A : Type) (n : nat) (l : list A) : list A :=
  skipn (length l - n) l.

(** The picture [DecodeJPEG] stands in for a frame of [jpeg_size]
    octets: row after row, four octets for a pixel. *)
Definition gradient (jpeg_size : Z) : list Z :=
  flat_map
    (fun y =>
       flat_map
         (fun x => [(jpeg_size / 256) mod 256; y mod 256; x mod 256; 255])
         (SimpleReceiver.range VIDEO_WIDTH))
    (SimpleReceiver.range VIDEO_HEIGHT).

(** The frames [ReceiveLoop] makes of the frames [jpegs] of a stream,
    the first one at the [k]-th reading of the clock. *)
Fixpoint decoded_frames (now_ms : nat -> Z) (k : nat)
         (jpegs : list (list Z)) : list VideoFrame :=
  match jpegs with
  | [] => []
  | jpeg :: jpegs' =>
      mkVideoFrame (gradient (Z.of_nat (length jpeg)))
                   VIDEO_WIDTH VIDEO_HEIGHT (now_ms k)
      :: decoded_frames now_ms (S k) jpegs'
  end.

(** [n] in [k] octets, least significant first. *)
Definition little_endian (k : nat) (n : Z) : list Z :=
  map (fun i => (n / 256 ^ Z.of_nat i) mod 256) (seq 0 k).

(** A frame as the stream carries it: its size in four octets, then
    its octets. *)
Definition stream_frame (jpeg : list Z) : list Z :=
  little_endian 4 (Z.of_nat (length jpeg)) ++ jpeg.

(** What [ReceiveLoop] does not take for a frame: fewer than four
    octets, or four octets that announce a size of zero, a size above
    10 MiB, or more octets than follow. *)
Definition ends_stream (tail : list Z) : Prop :=
  (length tail < 4)%nat
  \/ SimpleReceiver.uint32_of (firstn 4 tail) = 0
  \/ 10 * 1024 * 1024 < SimpleReceiver.uint32_of (firstn 4 tail)
  \/ Z.of_nat (length tail) < 4 + SimpleReceiver.uint32_of (firstn 4 tail).

(** * Properties *)

Unset Implicit Arguments.

(** ** Lists *)

Lemma Subseq_refl (A : Type) (l : list A) : Subseq l l.
Proof. induction l; constructor; assumption. Qed.

Lemma Subseq_app_r (A : Type) (l r : list A) : Subseq l (l ++ r).
Proof.
  induction l as [|x l IH]; simpl.
  - induction r; constructor; assumption.
  - constructor; exact IH.
Qed.

Lemma Subseq_app (A : Type) (l1 l2 r1 r2 : list A) :
  Subseq l1 l2 -> Subseq r1 r2 -> Subseq (l1 ++ r1) (l2 ++ r2).
Proof.
  induction 1 as [|x l1 l2 H IH|x l1 l2 H IH]; simpl; intros Hr.
  - exact Hr.
  - apply Subseq_skip. auto.
  - apply Subseq_take. auto.
Qed.

Lemma Subseq_trans (A : Type) (l1 l2 l3 : list A) :
  Subseq l1 l2 -> Subseq l2 l3 -> Subseq l1 l3.
Proof.
  intros H12 H23. revert l1 H12.
  induction H23 as [|x l2 l3 H IH|x l2 l3 H IH]; intros l1 H12.
  - exact H12.
  - constructor. apply IH. exact H12.
  - inversion H12; subst.
    + constructor. apply IH. assumption.
    + apply Subseq_take. apply IH. assumption.
Qed.

Lemma Subseq_In (A : Type) (l1 l2 : list A) (x : A) :
  Subseq l1 l2 -> In x l1 -> In x l2.
Proof.
  induction 1; simpl; intros Hin; auto.
  destruct Hin; auto.
Qed.

(** ** FrameBuffer *)

Section FrameBufferFacts.
Import FrameBuffer.
Local Open Scope nat_scope.

Lemma evict_split maxFrames q dropped kept :
  evict maxFrames q = Some (dropped, kept) -> q = dropped ++ kept.
Proof.
  revert dropped kept.
  induction q as [|f q IH]; intros dropped kept; simpl.
  - destruct (maxFrames <=? 0); [discriminate|].
    intros H; injection H as <- <-. reflexivity.
  - destruct (maxFrames <=? S (length q)).
    + destruct (evict maxFrames q) as [[d k]|] eqn:E; [|discriminate].
      intros H; injection H as <- <-. simpl. f_equal. apply IH. reflexivity.
    + intros H; injection H as <- <-. reflexivity.
Qed.

(** With room for no frame the guard of the loop never fails. *)
Lemma evict_zero q : evict 0 q = None.
Proof. induction q as [|f q IH]; simpl; [reflexivity|now rewrite IH]. Qed.

Lemma evict_positive maxFrames q :
  1 <= maxFrames ->
  exists dropped kept,
    evict maxFrames q = Some (dropped, kept)
    /\ length kept < maxFrames
    /\ (length q < maxFrames -> dropped = [])
    /\ (maxFrames <= length q -> length kept = maxFrames - 1).
Proof.
  intros Hmax. induction q as [|f q IH]; simpl.
  - destruct (Nat.leb_spec maxFrames 0) as [H|H]; [lia|].
    exists [], []. simpl. repeat split; auto; lia.
  - destruct IH as (d & k & E & Hlen & Hnone & Hfull).
    destruct (Nat.leb_spec maxFrames (S (length q))) as [H|H].
    + rewrite E. exists (f :: d), k. repeat split; auto; try lia.
      intros _. destruct (Nat.le_gt_cases maxFrames (length q)) as [H'|H'].
      * auto.
      * rewrite (Hnone H') in E. apply evict_split in E. simpl in E.
        subst k. lia.
    + exists [], (f :: q). simpl. repeat split; auto; lia.
Qed.

Lemma evict_full maxFrames oldest rest :
  1 <= maxFrames -> length (oldest :: rest) = maxFrames ->
  evict maxFrames (oldest :: rest) = Some ([oldest], rest).
Proof.
  intros Hmax Hlen. simpl in *.
  destruct (Nat.leb_spec maxFrames (S (length rest))) as [H|H]; [|lia].
  destruct (evict_positive _ rest Hmax) as (d & k & E & _ & Hnone & _).
  rewrite E. rewrite Hnone in * by lia.
  apply evict_split in E. simpl in E. subst k. reflexivity.
Qed.

Lemma Push_positive fb frame :
  1 <= m_maxFrames fb ->
  exists fb',
    Push fb frame = Some fb'
    /\ Size fb' <= m_maxFrames fb
    /\ m_maxFrames fb' = m_maxFrames fb
    /\ last (m_frames fb') frame = frame
    /\ exists kept, m_frames fb' = kept ++ [frame].
Proof.
  intros Hmax. unfold Push.
  destruct (evict_positive _ (m_frames fb) Hmax) as (d & k & E & Hlen & _).
  rewrite E. eexists. split; [reflexivity|]. unfold Size. simpl.
  rewrite length_app, last_last. simpl. repeat split; try lia.
  exists k. reflexivity.
Qed.

Lemma step_positive fb o :
  1 <= m_maxFrames fb -> Size fb <= m_maxFrames fb ->
  exists fb' evs,
    step fb o = Some (fb', evs)
    /\ m_maxFrames fb' = m_maxFrames fb
    /\ Size fb' <= m_maxFrames fb.
Proof.
  intros Hmax Hsize. destruct o as [f| | |]; simpl.
  - destruct (Push_positive fb f Hmax) as (fb' & E & Hs & Hm & _).
    rewrite E.
    destruct (evict_positive _ (m_frames fb) Hmax) as (d & k & E' & _).
    rewrite E'. eauto.
  - unfold Pop, Size in *. destruct (m_frames fb) as [|f q] eqn:E.
    + do 2 eexists. split; [reflexivity|]. rewrite E. simpl. lia.
    + do 2 eexists. split; [reflexivity|]. simpl in *. lia.
  - eauto.
  - do 2 eexists. split; [reflexivity|]. unfold Size; simpl. lia.
Qed.

Lemma run_positive ops : forall fb,
  1 <= m_maxFrames fb -> Size fb <= m_maxFrames fb ->
  exists fb' h,
    run fb ops = Some (fb', h)
    /\ m_maxFrames fb' = m_maxFrames fb
    /\ Size fb' <= m_maxFrames fb.
Proof.
  induction ops as [|o ops IH]; intros fb Hmax Hsize; simpl.
  - eauto.
  - destruct (step_positive fb o Hmax Hsize) as (fb1 & evs & E & Hm & Hs).
    rewrite E.
    destruct (IH fb1) as (fb2 & h & E2 & Hm2 & Hs2); try lia.
    rewrite E2. do 2 eexists. split; [reflexivity|]. split; lia.
Qed.

Lemma departed_app h1 h2 : departed (h1 ++ h2) = departed h1 ++ departed h2.
Proof. apply flat_map_app. Qed.

Lemma pushed_app h1 h2 : pushed (h1 ++ h2) = pushed h1 ++ pushed h2.
Proof. apply flat_map_app. Qed.

Lemma popped_app h1 h2 : popped (h1 ++ h2) = popped h1 ++ popped h2.
Proof. apply flat_map_app. Qed.

Lemma departed_evicted d : departed (map EvEvicted d) = d.
Proof. induction d; simpl; f_equal; auto. Qed.

Lemma pushed_evicted d : pushed (map EvEvicted d) = [].
Proof. induction d; simpl; auto. Qed.

(** Every frame that entered the queue has left it or is still in it,
    and the queue hands frames on in the order it received them. *)
Lemma step_conserves fb o fb' evs :
  step fb o = Some (fb', evs) ->
  departed evs ++ m_frames fb' = m_frames fb ++ pushed evs.
Proof.
  destruct o as [f| | |]; simpl.
  - unfold Push.
    destruct (evict (m_maxFrames fb) (m_frames fb)) as [[d k]|] eqn:E;
      [|discriminate].
    intros H; injection H as <- <-. simpl.
    rewrite departed_app, pushed_app, departed_evicted, pushed_evicted.
    simpl. rewrite app_nil_r, (evict_split _ _ _ _ E), app_assoc. reflexivity.
  - unfold Pop. destruct (m_frames fb) as [|f q] eqn:E;
      intros H; injection H as <- <-; simpl.
    + rewrite E. reflexivity.
    + rewrite app_nil_r. reflexivity.
  - intros H; injection H as <- <-. simpl. now rewrite app_nil_r.
  - intros H; injection H as <- <-. simpl. now rewrite !app_nil_r.
Qed.

Lemma run_conserves ops : forall fb fb' h,
  run fb ops = Some (fb', h) ->
  departed h ++ m_frames fb' = m_frames fb ++ pushed h.
Proof.
  induction ops as [|o ops IH]; intros fb fb' h; simpl.
  - intros H; injection H as <- <-. simpl. now rewrite app_nil_r.
  - destruct (step fb o) as [[fb1 evs]|] eqn:E1; [|discriminate].
    destruct (run fb1 ops) as [[fb2 evs']|] eqn:E2; [|discriminate].
    intros H; injection H as <- <-.
    rewrite departed_app, pushed_app, <- app_assoc, (IH _ _ _ E2).
    rewrite !app_assoc. f_equal. apply step_conserves with (o := o).
    exact E1.
Qed.

Lemma popped_departed h : Subseq (popped h) (departed h).
Proof.
  induction h as [|e h IH]; simpl; [constructor|].
  destruct e; simpl; auto.
  - constructor; assumption.
  - constructor; assumption.
  - change (popped h) with ([] ++ popped h).
    apply Subseq_app; [|exact IH].
    clear. induction fs; constructor; assumption.
Qed.

Lemma step_fails fb o :
  step fb o = None -> m_maxFrames fb = 0 /\ is_push o = true.
Proof.
  destruct o as [f| | |]; simpl; try discriminate.
  - intros H. split; [|reflexivity].
    destruct (Nat.eq_0_gt_0_cases (m_maxFrames fb)) as [E|E]; [exact E|].
    destruct (Push_positive fb f E) as (fb' & E1 & _).
    destruct (evict_positive _ (m_frames fb) E) as (d & k & E2 & _).
    rewrite E1, E2 in H. discriminate.
  - unfold Pop. destruct (m_frames fb); discriminate.
Qed.

Lemma step_capacity fb o fb' evs :
  step fb o = Some (fb', evs) -> m_maxFrames fb' = m_maxFrames fb.
Proof.
  destruct o as [f| | |]; simpl.
  - unfold Push.
    destruct (evict (m_maxFrames fb) (m_frames fb)) as [[d k]|];
      [|discriminate].
    intros H; injection H as <- <-. reflexivity.
  - unfold Pop. destruct (m_frames fb);
      intros H; injection H as <- <-; reflexivity.
  - intros H; injection H as <- <-; reflexivity.
  - intros H; injection H as <- <-; reflexivity.
Qed.

Lemma run_fails ops : forall fb,
  run fb ops = None -> m_maxFrames fb = 0 /\ existsb is_push ops = true.
Proof.
  induction ops as [|o ops IH]; intros fb; simpl; [discriminate|].
  destruct (step fb o) as [[fb1 evs]|] eqn:E1.
  - destruct (run fb1 ops) as [[fb2 evs']|] eqn:E2; [discriminate|].
    intros _. destruct (IH _ E2) as [Hm Hp].
    rewrite Hp, orb_true_r. split; [|reflexivity].
    rewrite <- (step_capacity _ _ _ _ E1). exact Hm.
  - intros _. destruct (step_fails _ _ E1) as [Hm Hp].
    rewrite Hp. auto.
Qed.

End FrameBufferFacts.

Section FrameBufferClaims.
Import FrameBuffer.
Local Open Scope nat_scope.

(** C2 (as amended).  For a buffer of capacity at least one whose size
    equals its capacity, [Push] drops exactly the oldest frame and puts
    the new frame last, the size staying at the capacity; and on every
    buffer of capacity at least one, full or not, [Push] returns a
    buffer whose size is at most the capacity and whose newest frame is
    the one pushed. *)
Theorem Push_full_drops_oldest (fb : t) (frame : VideoFrame)
        (Hcap : 1 <= m_maxFrames fb) :
  (Size fb = m_maxFrames fb ->
   exists oldest rest,
     m_frames fb = oldest :: rest
     /\ Push fb frame = Some (mk (rest ++ [frame]) (m_maxFrames fb))
     /\ Size (mk (rest ++ [frame]) (m_maxFrames fb)) = m_maxFrames fb)
  /\ exists fb',
       Push fb frame = Some fb'
       /\ Size fb' <= m_maxFrames fb
       /\ m_maxFrames fb' = m_maxFrames fb
       /\ exists kept, m_frames fb' = kept ++ [frame].
Proof.
  split.
  - unfold Size. intros Hfull.
    destruct (m_frames fb) as [|oldest rest] eqn:E.
    + simpl in Hfull. lia.
    + exists oldest, rest. split; [reflexivity|].
      unfold Push. rewrite E, (evict_full _ _ _ Hcap Hfull).
      split; [reflexivity|]. simpl. rewrite length_app. simpl in *. lia.
  - destruct (Push_positive fb frame Hcap) as (fb' & E & Hs & Hm & _ & Hk).
    exists fb'. auto.
Qed.

Lemma Push_full_drops_oldest_witness :
  let fb := mk [Scenario.blank 1; Scenario.blank 2; Scenario.blank 3] 3 in
  Push fb (Scenario.blank 4)
  = Some (mk [Scenario.blank 2; Scenario.blank 3; Scenario.blank 4] 3).
Proof.
  intros fb.
  destruct (Push_full_drops_oldest fb (Scenario.blank 4)) as [H _].
  - simpl. lia.
  - destruct H as (oldest & rest & E & HP & _); [reflexivity|].
    injection E as <- <-. exact HP.
Defined.

(** C2, the claim as it is worded: a buffer made with capacity 0 has its
    size equal to its capacity, and [Push] on it does not return. *)
Lemma Push_without_capacity_fails :
  Size (create 0) = m_maxFrames (create 0)
  /\ ~ (exists fb',
          Push (create 0) (Scenario.blank 1) = Some fb'
          /\ Size fb' <= m_maxFrames (create 0)).
Proof.
  split; [reflexivity|].
  intros (fb' & H & _). discriminate H.
Qed.

(** C5.  [Pop] takes the frame at the front of the queue, the oldest one
    held, and leaves the others as they were; on an empty queue it gives
    no frame.  In every run from an empty buffer the frames that left
    the queue (popped, evicted or cleared), in the order they left it,
    followed by the frames still held are the frames pushed, in push
    order; so the frames popped are frames pushed before, come out in
    the order they were pushed, and none of them was evicted.  A run
    fails to complete only with capacity 0 and a [Push] in it. *)
Theorem Pop_fifo_among_survivors :
  (forall fb,
      match Pop fb with
      | (Some f, fb') =>
          m_frames fb = f :: m_frames fb'
          /\ m_maxFrames fb' = m_maxFrames fb
      | (None, fb') => m_frames fb = [] /\ fb' = fb
      end)
  /\ (forall capacity ops,
         match run (create capacity) ops with
         | Some (fb, h) =>
             departed h ++ m_frames fb = pushed h
             /\ Subseq (popped h) (pushed h)
             /\ (forall f, In f (popped h) -> In f (pushed h))
         | None => capacity = 0 /\ existsb is_push ops = true
         end).
Proof.
  split.
  - intros fb. unfold Pop. destruct (m_frames fb) eqn:E; simpl; auto.
  - intros capacity ops.
    destruct (run (create capacity) ops) as [[fb h]|] eqn:E.
    + pose proof (run_conserves _ _ _ _ E) as Hc. simpl in Hc.
      assert (Hs : Subseq (popped h) (pushed h)).
      { rewrite <- Hc.
        apply Subseq_trans with (l2 := departed h).
        - apply popped_departed.
        - apply Subseq_app_r. }
      repeat split; auto.
      intros f. apply Subseq_In. exact Hs.
    + apply run_fails in E. exact E.
Qed.

(** C10 (as amended).  With a capacity of at least one, every sequence
    of operations on a new buffer runs to its end and leaves the size
    at most the capacity. *)
Theorem size_bounded_after_every_operation
        (capacity : nat) (ops : list op) (Hcap : 1 <= capacity) :
  exists fb h,
    run (create capacity) ops = Some (fb, h)
    /\ m_maxFrames fb = capacity
    /\ Size fb <= capacity.
Proof.
  destruct (run_positive ops (create capacity)) as (fb & h & E & Hm & Hs).
  - exact Hcap.
  - unfold Size. simpl. lia.
  - exists fb, h. simpl in *. repeat split; auto; lia.
Qed.

Lemma size_bounded_after_every_operation_witness :
  exists fb h,
    run (create 2)
        [OpPush (Scenario.blank 1); OpPush (Scenario.blank 2);
         OpPush (Scenario.blank 3); OpPop; OpPeek; OpClear]
    = Some (fb, h)
    /\ m_maxFrames fb = 2
    /\ Size fb <= 2.
Proof.
  apply (size_bounded_after_every_operation 2). lia.
Defined.

(** C10, the claim as it is worded: on a buffer made with capacity 0
    [Push] does not insert the frame and leave a buffer of size 1; the
    guard of its loop compares an unsigned size with 0 and cannot fail,
    so the loop pops the empty queue. *)
Lemma Push_capacity_zero_not_size_one :
  ~ (exists fb',
        Push (create 0) (Scenario.blank 1) = Some fb' /\ Size fb' = 1).
Proof.
  intros (fb' & H & _). discriminate H.
Qed.

End FrameBufferClaims.

(** ** Octets and machine integers *)

Lemma u8_range (c : ascii) : 0 <= u8 c < 256.
Proof.
  unfold u8. pose proof (N_ascii_bounded c) as H. lia.
Qed.

Lemma chr_u8 (c : ascii) : chr (u8 c) = c.
Proof.
  unfold chr. rewrite Z.mod_small by apply u8_range.
  unfold u8. rewrite N2Z.id. apply ascii_N_embedding.
Qed.

Lemma string_of_bytes_of_string (s : string) :
  string_of_bytes (bytes_of_string s) = s.
Proof.
  unfold string_of_bytes, bytes_of_string.
  rewrite map_map, (map_ext _ (fun c => c)) by apply chr_u8.
  rewrite map_id. apply string_of_list_ascii_of_string.
Qed.

Lemma length_list_ascii_of_string (s : string) :
  length (list_ascii_of_string s) = String.length s.
Proof. induction s; simpl; congruence. Qed.

Lemma length_bytes_of_string (s : string) :
  length (bytes_of_string s) = String.length s.
Proof.
  unfold bytes_of_string. rewrite length_map.
  apply length_list_ascii_of_string.
Qed.

Lemma length_string_of_bytes (bs : list Z) :
  String.length (string_of_bytes bs) = length bs.
Proof.
  unfold string_of_bytes. induction bs; simpl; congruence.
Qed.

Lemma to_int_small (z : Z) : - 2 ^ 31 <= z < 2 ^ 31 -> to_int z = z.
Proof. intros H. unfold to_int. rewrite Z.mod_small; lia. Qed.

(** XOR of a promoted [char] with an octet of the key, converted back to
    [unsigned char], is the XOR of the two octets. *)
Lemma xor_promoted (c : ascii) (m : Z) :
  In m SignalingClient.mask ->
  to_uchar (Z.lxor (char_val c) m) = Z.lxor (u8 c) m.
Proof.
  intros Hm. simpl in Hm.
  destruct c as [[] [] [] [] [] [] [] []];
    (destruct Hm as [<-|[<-|[<-|[<-|[]]]]]; vm_compute; reflexivity).
Qed.

Lemma byte_of_shift (n i : Z) :
  0 <= i -> Z.land (Z.shiftr n (i * 8)) 0xFF = (n / 256 ^ i) mod 256.
Proof.
  intros Hi. change 0xFF with (Z.ones 8).
  rewrite Z.land_ones, Z.shiftr_div_pow2 by lia.
  rewrite (Z.mul_comm i 8), Z.pow_mul_r by lia. reflexivity.
Qed.

Lemma mask_bit_small (n : Z) :
  0 <= n <= 125 -> Z.lor 0x80 (to_uchar n) = 128 + n.
Proof.
  intros Hn.
  assert (Hall : forallb (fun x => Z.lor 0x80 (to_uchar x) =? 128 + x)
                         (map Z.of_nat (seq 0 126)) = true)
    by (vm_compute; reflexivity).
  rewrite forallb_forall in Hall.
  apply Z.eqb_eq, Hall.
  rewrite <- (Z2Nat.id n) by lia.
  apply in_map, in_seq. lia.
Qed.

Lemma lor_shift8 (h l : Z) :
  0 <= l < 256 -> Z.lor (Z.shiftl h 8) l = 256 * h + l.
Proof.
  intros Hl.
  assert (Hland : Z.land (Z.shiftl h 8) l = 0).
  { apply Z.bits_inj'. intros i Hi.
    rewrite Z.land_spec, Z.bits_0.
    destruct (Z.lt_ge_cases i 8) as [Hlow|Hhigh].
    - rewrite Z.shiftl_spec_low by lia. reflexivity.
    - rewrite <- (Z.mod_small l (2 ^ 8)) by lia.
      rewrite Z.mod_pow2_bits_high by lia. apply andb_false_r. }
  pose proof (Z.add_lor_land (Z.shiftl h 8) l) as H.
  pose proof (Z.shiftl_mul_pow2 h 8 ltac:(lia)) as Hs.
  change (2 ^ 8) with 256 in Hs. lia.
Qed.

(** One turn of the loop that reads a big-endian length. *)
Lemma big_endian_step (q : Z) :
  0 <= q < 2 ^ 64 ->
  Z.lor (to_u64 (Z.shiftl (q / 256) 8)) (q mod 256) = q.
Proof.
  intros Hq.
  pose proof (Z.div_mod q 256 ltac:(lia)) as Hdm.
  pose proof (Z.mod_pos_bound q 256 ltac:(lia)) as Hm.
  assert (Hd : 0 <= q / 256) by (apply Z.div_pos; lia).
  unfold to_u64. rewrite Z.shiftl_mul_pow2 by lia.
  rewrite Z.mod_small by lia.
  rewrite <- Z.shiftl_mul_pow2 by lia.
  rewrite lor_shift8 by lia. lia.
Qed.

Lemma fold_by_index (f : Z -> Z -> Z) (l pre : list Z) (a : Z) :
  fold_left (fun p i => f p (nth i (pre ++ l) 0))
            (seq (length pre) (length l)) a
  = fold_left f l a.
Proof.
  revert pre a. induction l as [|b l IH]; intros pre a; cbn [length seq fold_left].
  - reflexivity.
  - rewrite nth_middle.
    specialize (IH (pre ++ [b]) (f a b)).
    rewrite <- app_assoc, length_app, Nat.add_1_r in IH. exact IH.
Qed.

Lemma decode_big_endian (k : nat) (n : Z) :
  0 <= n < 2 ^ 64 ->
  fold_left (fun p b => Z.lor (to_u64 (Z.shiftl p 8)) b)
            (Wire.big_endian k n) (n / 256 ^ Z.of_nat k)
  = n.
Proof.
  intros Hn. induction k as [|k IH]; cbn [Wire.big_endian fold_left].
  - change (Z.of_nat 0) with 0. rewrite Z.pow_0_r. apply Z.div_1_r.
  - rewrite Nat2Z.inj_succ, Z.pow_succ_r by lia.
    rewrite (Z.mul_comm 256), <- Z.div_div by lia.
    rewrite big_endian_step; [exact IH|].
    split.
    + apply Z.div_pos; lia.
    + apply Z.le_lt_trans with n; [|lia].
      apply Z.div_le_upper_bound; nia.
Qed.

Lemma length_big_endian (k : nat) (n : Z) :
  length (Wire.big_endian k n) = k.
Proof. induction k; simpl; congruence. Qed.

(** The loop of [ReadFrame] over the eight octets of an extended length
    gives back the length they code. *)
Lemma decode_length_64 (n : Z) :
  0 <= n < 2 ^ 64 ->
  fold_left (fun payloadLen i =>
               Z.lor (to_u64 (Z.shiftl payloadLen 8))
                     (nth i (Wire.big_endian 8 n) 0))
            (seq 0 8) 0
  = n.
Proof.
  intros Hn.
  pose proof (fold_by_index (fun p b => Z.lor (to_u64 (Z.shiftl p 8)) b)
                            (Wire.big_endian 8 n) [] 0) as H.
  rewrite length_big_endian in H. cbn [app length] in H. rewrite H.
  pose proof (decode_big_endian 8 n Hn) as H8.
  rewrite Z.div_small in H8 by (change (256 ^ Z.of_nat 8) with (2 ^ 64); lia).
  exact H8.
Qed.

Lemma decode_length_16 (n : Z) :
  0 <= n <= 65535 ->
  match Wire.big_endian 2 n with
  | [hi; lo] => Z.lor (Z.shiftl hi 8) lo = n
  | _ => False
  end.
Proof.
  intros Hn. cbn [Wire.big_endian].
  change (256 ^ Z.of_nat 1) with 256. change (256 ^ Z.of_nat 0) with 1.
  rewrite Z.div_1_r.
  pose proof (Z.div_mod n 256 ltac:(lia)) as Hdm.
  pose proof (Z.mod_pos_bound n 256 ltac:(lia)) as Hm.
  assert (Hd : 0 <= n / 256 < 256).
  { split; [apply Z.div_pos; lia|apply Z.div_lt_upper_bound; lia]. }
  rewrite (Z.mod_small (n / 256)) by lia.
  rewrite lor_shift8 by lia. lia.
Qed.

(** ** Sockets *)

Lemma recv_pending (bytes : list Z) (d : Z) (o : list (list Z)) (w : bool)
      (len : Z) :
  0 < len -> len <= Z.of_nat (length bytes) ->
  recv (Some (mkSocket (pending bytes) d o w)) len
  = (len, firstn (Z.to_nat len) bytes,
     Some (mkSocket (pending (skipn (Z.to_nat len) bytes)) d o w)).
Proof.
  intros Hpos Hlen. unfold recv.
  destruct (Z.ltb_spec len 0) as [H|_]; [lia|].
  destruct bytes as [|b bytes]; [simpl in Hlen; lia|].
  cbn [pending inbound drained outbound writable].
  rewrite length_firstn, Nat.min_l by lia.
  rewrite Z2Nat.id by lia.
  reflexivity.
Qed.

Lemma recv_drained (d : Z) (o : list (list Z)) (w : bool) (len : Z) :
  0 <= len ->
  recv (Some (mkSocket [] d o w)) len = (d, [], Some (mkSocket [] d o w)).
Proof.
  intros H. unfold recv. destruct (Z.ltb_spec len 0); [lia|reflexivity].
Qed.

(** ** The frame codec *)

Section Codec.
Import SignalingClient.

Lemma masked_loop (chars pre : list ascii) :
  map (fun i : nat =>
         to_uchar (Z.lxor (char_val (nth i (pre ++ chars) zero))
                          (nth (i mod 4) mask 0)))
      (seq (length pre) (length chars))
  = Wire.masked_from (length pre) mask chars.
Proof.
  revert pre. induction chars as [|ch chars IH]; intros pre;
    cbn [length seq map Wire.masked_from].
  - reflexivity.
  - rewrite nth_middle. f_equal.
    + apply xor_promoted, nth_In.
      apply Nat.mod_upper_bound. discriminate.
    + specialize (IH (pre ++ [ch])).
      rewrite <- app_assoc, length_app, Nat.add_1_r in IH. exact IH.
Qed.

(** The vector [WriteFrame] builds is the client frame of the
    specification under the key of the source. *)
Lemma build_frame_eq (data : string) :
  build_frame data = Wire.client_frame mask data.
Proof.
  unfold build_frame, Wire.client_frame, Wire.length_field, Wire.masked.
  pose proof (masked_loop (list_ascii_of_string data) []) as Hm.
  rewrite length_list_ascii_of_string in Hm. cbn [app length] in Hm.
  rewrite Hm.
  set (size := Z.of_nat (String.length data)).
  assert (Hsize : 0 <= size) by (subst size; lia).
  rewrite <- app_assoc, (app_assoc [0x81]). f_equal.
  destruct (Z.leb_spec size 125) as [H|H].
  - rewrite mask_bit_small by lia. reflexivity.
  - destruct (Z.leb_spec size 65535) as [H'|H'].
    + change (Z.land (Z.shiftr size 8) 0xFF)
        with (Z.land (Z.shiftr size (1 * 8)) 0xFF).
      change (Z.land size 0xFF) with (Z.land (Z.shiftr size (0 * 8)) 0xFF).
      rewrite !byte_of_shift by lia. reflexivity.
    + cbn [map]. rewrite !byte_of_shift by lia. reflexivity.
Qed.

Lemma length_masked_from (i : nat) (key : list Z) (chars : list ascii) :
  length (Wire.masked_from i key chars) = length chars.
Proof.
  revert i. induction chars; intros i; simpl; [reflexivity|].
  now rewrite IHchars.
Qed.

Lemma length_masked (key : list Z) (data : string) :
  length (Wire.masked key data) = String.length data.
Proof.
  unfold Wire.masked.
  now rewrite length_masked_from, length_list_ascii_of_string.
Qed.

(** When the payload is waiting in one piece the loop of [ReadFrame]
    takes it with one [recv]. *)
Lemma read_payload_whole (fuel : nat) (bytes : list Z) (d : Z)
      (o : list (list Z)) (w : bool) (n : Z) :
  0 <= n <= INT_MAX -> n <= Z.of_nat (length bytes) ->
  fuel = Z.to_nat n ->
  read_payload fuel (Some (mkSocket (pending bytes) d o w)) n 0
               (repeat 0 (Z.to_nat n))
  = (firstn (Z.to_nat n) bytes,
     Some (mkSocket (pending (skipn (Z.to_nat n) bytes)) d o w)).
Proof.
  intros Hn Hlen Hfuel. unfold INT_MAX in Hn.
  destruct fuel as [|fuel].
  - assert (n = 0) by lia. subst n. reflexivity.
  - assert (Hpos : 0 < n) by lia.
    cbn [read_payload].
    destruct (Z.ltb_spec 0 n) as [_|H]; [|lia].
    rewrite Z.sub_0_r, to_int_small by lia.
    rewrite recv_pending by lia.
    destruct (Z.leb_spec n 0) as [H|_]; [lia|].
    assert (Hstore : store (repeat 0 (Z.to_nat n)) 0
                           (firstn (Z.to_nat n) bytes)
                     = firstn (Z.to_nat n) bytes).
    { unfold store. simpl.
      rewrite length_firstn, Nat.min_l by lia.
      rewrite skipn_all2 by (rewrite repeat_length; lia).
      apply app_nil_r. }
    rewrite Hstore. simpl (0 + n).
    destruct fuel as [|fuel]; cbn [read_payload].
    + reflexivity.
    + rewrite Z.ltb_irrefl. reflexivity.
Qed.

Lemma ReadFrame_header (c : t) (b0 b1 : Z) (tail : list Z) (d : Z)
      (o : list (list Z)) (w : bool) :
  m_socket c = Some (mkSocket (pending (b0 :: b1 :: tail)) d o w) ->
  ReadFrame c
  = match read_length (Some (mkSocket (pending tail) d o w)) [b0; b1] with
    | (None, s2) => (EmptyString, with_socket c s2)
    | (Some payloadLen, s2) =>
        let '(payload, s3) :=
          read_payload (Z.to_nat payloadLen) s2 payloadLen 0
                       (repeat 0 (Z.to_nat payloadLen)) in
        (string_of_bytes payload, with_socket c s3)
    end.
Proof.
  intros Hs. unfold ReadFrame. rewrite Hs.
  rewrite recv_pending by (cbn [length]; lia).
  reflexivity.
Qed.

(** A frame of the first length class, waiting in one piece. *)
Lemma ReadFrame_short (c : t) (b0 b1 : Z) (body : list Z) (d : Z)
      (o : list (list Z)) (w : bool) (n : Z) :
  m_socket c = Some (mkSocket (pending (b0 :: b1 :: body)) d o w) ->
  Z.land b1 0x7F = n -> 0 <= n < 126 -> n <= Z.of_nat (length body) ->
  fst (ReadFrame c) = string_of_bytes (firstn (Z.to_nat n) body).
Proof.
  intros Hs Hb1 Hn Hlen.
  rewrite (ReadFrame_header _ _ _ _ _ _ _ Hs).
  unfold read_length. cbn [nth]. rewrite Hb1.
  destruct (Z.eqb_spec n 126) as [E|_]; [lia|].
  destruct (Z.eqb_spec n 127) as [E|_]; [lia|].
  rewrite read_payload_whole by (unfold INT_MAX; lia).
  reflexivity.
Qed.

(** A frame of the second length class, waiting in one piece. *)
Lemma ReadFrame_medium (c : t) (b0 b1 hi lo : Z) (body : list Z) (d : Z)
      (o : list (list Z)) (w : bool) (n : Z) :
  m_socket c
  = Some (mkSocket (pending (b0 :: b1 :: hi :: lo :: body)) d o w) ->
  Z.land b1 0x7F = 126 -> Z.lor (Z.shiftl hi 8) lo = n ->
  0 <= n <= INT_MAX -> n <= Z.of_nat (length body) ->
  fst (ReadFrame c) = string_of_bytes (firstn (Z.to_nat n) body).
Proof.
  intros Hs Hb1 Hval Hn Hlen.
  rewrite (ReadFrame_header _ _ _ _ _ _ _ Hs).
  unfold read_length. cbn [nth]. rewrite Hb1.
  change (126 =? 126) with true. cbv iota.
  rewrite recv_pending by (cbn [length]; lia).
  change (Z.to_nat 2) with 2%nat. cbn [firstn skipn nth].
  change (negb (2 =? 2)) with false. cbv iota. rewrite Hval.
  rewrite read_payload_whole by lia.
  reflexivity.
Qed.

(** A frame of the third length class, waiting in one piece. *)
Lemma ReadFrame_long (c : t) (b0 b1 : Z) (ext body : list Z) (d : Z)
      (o : list (list Z)) (w : bool) (n : Z) :
  m_socket c = Some (mkSocket (pending (b0 :: b1 :: ext ++ body)) d o w) ->
  Z.land b1 0x7F = 127 -> length ext = 8%nat ->
  fold_left (fun payloadLen i =>
               Z.lor (to_u64 (Z.shiftl payloadLen 8)) (nth i ext 0))
            (seq 0 8) 0 = n ->
  0 <= n <= INT_MAX -> n <= Z.of_nat (length body) ->
  fst (ReadFrame c) = string_of_bytes (firstn (Z.to_nat n) body).
Proof.
  intros Hs Hb1 Hext Hval Hn Hlen.
  rewrite (ReadFrame_header _ _ _ _ _ _ _ Hs).
  unfold read_length. cbn [nth]. rewrite Hb1.
  change (127 =? 126) with false. change (127 =? 127) with true. cbv iota.
  rewrite recv_pending by (try rewrite length_app; lia).
  destruct ext as [|e0 [|e1 [|e2 [|e3 [|e4 [|e5 [|e6 [|e7 [|e8 ext]]]]]]]]];
    try discriminate Hext.
  change (Z.to_nat 8) with 8%nat. cbn [firstn skipn app].
  change (negb (8 =? 8)) with false. cbv iota. rewrite Hval.
  rewrite read_payload_whole by lia.
  reflexivity.
Qed.

(** [ReadFrame] on a frame with the length field of the specification,
    masked or not, waiting in one piece: the payload length is decoded
    in each of the three classes and that many octets after the length
    field are returned. *)
Lemma ReadFrame_framed (c : t) (mask_bit : Z) (body : list Z) (d : Z)
      (o : list (list Z)) (w : bool) (n : Z) :
  mask_bit = 0 \/ mask_bit = 128 ->
  0 <= n <= INT_MAX -> n <= Z.of_nat (length body) ->
  m_socket c
  = Some (mkSocket
            (pending ([0x81] ++ Wire.length_field mask_bit n ++ body))
            d o w) ->
  fst (ReadFrame c) = string_of_bytes (firstn (Z.to_nat n) body).
Proof.
  intros Hmb Hn Hlen. unfold Wire.length_field, INT_MAX in *.
  destruct (Z.leb_spec n 125) as [H|H]; [|destruct (Z.leb_spec n 65535) as [H'|H']];
    cbn [app]; intros Hs.
  - apply (ReadFrame_short _ _ _ _ _ _ _ n Hs); try lia.
    change 0x7F with (Z.ones 7). rewrite Z.land_ones by lia.
    destruct Hmb as [-> | ->].
    + apply Z.mod_small. lia.
    + replace (128 + n) with (n + 1 * 2 ^ 7) by lia.
      rewrite Z.mod_add by lia. apply Z.mod_small. lia.
  - pose proof (decode_length_16 n ltac:(lia)) as H16.
    cbn [Wire.big_endian app] in *.
    apply (ReadFrame_medium _ _ _ _ _ _ _ _ _ n Hs); try (unfold INT_MAX; lia).
    destruct Hmb as [-> | ->]; reflexivity.
  - apply (ReadFrame_long _ _ _ (Wire.big_endian 8 n) _ _ _ _ n Hs);
      try (unfold INT_MAX; lia).
    + destruct Hmb as [-> | ->]; reflexivity.
    + apply length_big_endian.
    + apply decode_length_64. lia.
Qed.

Lemma length_length_field (mask_bit n : Z) :
  (length (Wire.length_field mask_bit n) <= 9)%nat.
Proof.
  unfold Wire.length_field.
  destruct (n <=? 125); [simpl; lia|].
  destruct (n <=? 65535); simpl; lia.
Qed.

Lemma length_build_frame (data : string) :
  Z.of_nat (length (build_frame data))
  <= Z.of_nat (String.length data) + 14.
Proof.
  rewrite build_frame_eq. unfold Wire.client_frame.
  rewrite !length_app, length_masked.
  pose proof (length_length_field 128 (Z.of_nat (String.length data))).
  simpl length. lia.
Qed.

(** On a connected, writable socket [WriteFrame] hands the whole frame
    to one [send] and reports success. *)
Lemma WriteFrame_sends (c : t) (sk : Socket) (data : string) :
  m_socket c = Some sk -> writable sk = true ->
  Z.of_nat (length (build_frame data)) <= INT_MAX ->
  WriteFrame c data
  = (true,
     with_socket c
       (Some (mkSocket (inbound sk) (drained sk)
                       (outbound sk ++ [build_frame data]) (writable sk)))).
Proof.
  intros Hs Hw Hlen. unfold INT_MAX in Hlen.
  unfold WriteFrame, send. rewrite Hs, Hw.
  rewrite to_int_small by lia.
  destruct (Z.ltb_spec (Z.of_nat (length (build_frame data))) 0) as [H|_];
    [lia|].
  cbn [negb orb]. rewrite Nat2Z.id, firstn_all.
  destruct (Z.eqb_spec (Z.of_nat (length (build_frame data))) SOCKET_ERROR)
    as [E|_]; [unfold SOCKET_ERROR in E; lia|].
  reflexivity.
Qed.

(** What comes back when a frame written by [WriteFrame] is read by
    [ReadFrame]: as many octets as the payload had, taken from the
    masking key and the masked payload that follow the length field. *)
Lemma loopback_reads_key (data : string) :
  Z.of_nat (String.length data) + 14 <= INT_MAX ->
  Scenario.loopback data
  = string_of_bytes
      (firstn (String.length data) (mask ++ Wire.masked mask data)).
Proof.
  intros Hlen. pose proof (length_build_frame data) as Hf.
  unfold Scenario.loopback.
  rewrite (WriteFrame_sends (Scenario.receiving []) _ data eq_refl eq_refl)
    by lia.
  cbn [Scenario.on_the_wire Scenario.receiving with_socket m_socket
       outbound app].
  rewrite <- (Nat2Z.id (String.length data)).
  apply ReadFrame_framed with (mask_bit := 128) (d := 0) (o := [])
                              (w := true).
  - right. reflexivity.
  - lia.
  - rewrite length_app, length_masked. lia.
  - rewrite build_frame_eq. reflexivity.
Qed.

(** A frame in the server-to-client form is read back as its payload. *)
Lemma server_frame_read (data : string) :
  Z.of_nat (String.length data) <= INT_MAX ->
  fst (ReadFrame (Scenario.receiving [Wire.server_frame data])) = data.
Proof.
  intros Hlen.
  rewrite <- (string_of_bytes_of_string data) at 2.
  rewrite <- (firstn_all (bytes_of_string data)).
  rewrite length_bytes_of_string, <- (Nat2Z.id (String.length data)).
  apply ReadFrame_framed with (mask_bit := 0) (d := 0) (o := [])
                              (w := true).
  - left. reflexivity.
  - lia.
  - rewrite length_bytes_of_string. lia.
  - reflexivity.
Qed.

End Codec.

Lemma of_big_endian_from (k : nat) (n : Z) :
  0 <= n ->
  fold_left (fun acc b => 256 * acc + b) (Wire.big_endian k n)
            (n / 256 ^ Z.of_nat k)
  = n.
Proof.
  intros Hn. induction k as [|k IH]; cbn [Wire.big_endian fold_left].
  - change (Z.of_nat 0) with 0. rewrite Z.pow_0_r. apply Z.div_1_r.
  - rewrite Nat2Z.inj_succ, Z.pow_succ_r by lia.
    rewrite (Z.mul_comm 256 (256 ^ Z.of_nat k)), <- Z.div_div by lia.
    rewrite <- Z.div_mod by lia. exact IH.
Qed.

(** The octets of [big_endian] are the big-endian digits of a number
    that fits them. *)
Lemma of_big_endian_big_endian (k : nat) (n : Z) :
  0 <= n < 256 ^ Z.of_nat k ->
  Wire.of_big_endian (Wire.big_endian k n) = n.
Proof.
  intros Hn. unfold Wire.of_big_endian.
  rewrite <- (Z.div_small n (256 ^ Z.of_nat k)) at 1 by lia.
  apply of_big_endian_from. lia.
Qed.

Lemma nth_error_masked_from (key : list Z) (chars : list ascii) :
  forall (k i : nat) (ch : ascii),
    nth_error chars i = Some ch ->
    nth_error (Wire.masked_from k key chars) i
    = Some (Z.lxor (u8 ch) (nth ((k + i) mod 4) key 0)).
Proof.
  induction chars as [|x chars IH]; intros k i ch Hi.
  - destruct i; discriminate Hi.
  - destruct i as [|i]; cbn [nth_error Wire.masked_from] in *.
    + injection Hi as ->. rewrite Nat.add_0_r. reflexivity.
    + rewrite (IH (S k) i ch Hi), Nat.add_succ_r. reflexivity.
Qed.

Section CodecClaims.
Import SignalingClient.

(** C1 (as amended).  For a payload whose length is one of the boundary
    classes 0, 1, 125, 126, 65535 and 65536, [ReadFrame] gives back the
    payload exactly when the frame comes in the server-to-client form
    (the same length coding, no mask bit, no key, payload in clear).
    On the octets [WriteFrame] itself produced it gives a string of the
    length of the payload, made of the first octets of the masking key
    followed by the masked payload: it neither skips the key nor
    removes the mask.  That string is the payload when the payload is
    empty. *)
Theorem ReadFrame_boundary_classes (data : string)
        (Hclass : In (Z.of_nat (String.length data))
                     [0; 1; 125; 126; 65535; 65536]) :
  fst (ReadFrame (Scenario.receiving [Wire.server_frame data])) = data
  /\ Scenario.loopback data
     = string_of_bytes
         (firstn (String.length data) (mask ++ Wire.masked mask data))
  /\ String.length (Scenario.loopback data) = String.length data
  /\ (String.length data = 0%nat -> Scenario.loopback data = data).
Proof.
  assert (Hlen : Z.of_nat (String.length data) <= 65536).
  { simpl in Hclass. intuition lia. }
  assert (Hloop := loopback_reads_key data ltac:(unfold INT_MAX; lia)).
  split; [apply server_frame_read; unfold INT_MAX; lia|].
  split; [exact Hloop|]. split.
  - rewrite Hloop, length_string_of_bytes, length_firstn, length_app,
      length_masked.
    simpl length. lia.
  - intros H0. rewrite Hloop, H0.
    destruct data; [reflexivity|discriminate H0].
Qed.

Lemma ReadFrame_boundary_classes_witness :
  fst (ReadFrame (Scenario.receiving [Wire.server_frame "a"])) = "a"%string
  /\ Scenario.loopback "a" = String (chr 0x12) EmptyString.
Proof.
  destruct (ReadFrame_boundary_classes "a") as (H1 & H2 & _).
  - right. left. reflexivity.
  - split; [exact H1|exact H2].
Defined.

(** C1, the claim as it is worded: the one-octet payload a is encoded
    by [WriteFrame] and decoded by [ReadFrame] into the first octet of
    the masking key. *)
Lemma loopback_is_not_the_payload :
  Scenario.loopback "a" <> "a"%string.
Proof. vm_compute. discriminate. Qed.

(** The failure paths of [ReadFrame] before the payload: a short or
    failed read of the header or of an extended length gives the empty
    string. *)
Lemma ReadFrame_header_failure (c : t) :
  fst (fst (recv (m_socket c) 2)) <> 2 -> fst (ReadFrame c) = EmptyString.
Proof.
  intros H. unfold ReadFrame.
  destruct (recv (m_socket c) 2) as [[received header] s1]. simpl in H.
  destruct (Z.eqb_spec received 2); [contradiction|reflexivity].
Qed.

Lemma ReadFrame_length_failure (c : t) (header : list Z) (s1 s2 : SOCKET) :
  recv (m_socket c) 2 = (2, header, s1) ->
  read_length s1 header = (None, s2) ->
  fst (ReadFrame c) = EmptyString.
Proof.
  intros H1 H2. unfold ReadFrame. rewrite H1. cbn [Z.eqb Pos.eqb negb].
  rewrite H2. reflexivity.
Qed.

(** C3, at the failing input.  The peer sends a header that announces
    five payload octets, then two of them, then closes.  The payload
    loop leaves at the failed read and [ReadFrame] returns the buffer
    it had sized for the payload, the two octets received followed by
    three NUL characters: a string that is not empty. *)
Theorem ReadFrame_failed_payload_read_is_not_empty :
  let message :=
    fst (ReadFrame (Scenario.receiving [[0x81; 5]; [97; 98]])) in
  message
  = String "a" (String "b" (String zero (String zero (String zero
      EmptyString))))
  /\ message <> EmptyString.
Proof.
  split; [vm_compute; reflexivity|vm_compute; discriminate].
Qed.

(** C4.  The vector [WriteFrame] builds is, for every payload, the
    octet 0x81, the length field of the class of the payload length
    with the mask bit set in its first octet, the key 12 34 56 78
    (hexadecimal) and the payload with octet [i] XORed with octet
    [i mod 4] of the key; the two or eight octets that follow an escape
    value are the length, most significant octet first.  On a connected
    socket that accepts data, [WriteFrame] sends exactly this vector
    with one [send] and returns true, as long as the size of the vector
    fits the [int] that [send] takes. *)
Theorem WriteFrame_emits_masked_text_frame (data : string) :
  let n := Z.of_nat (String.length data) in
  let key := [0x12; 0x34; 0x56; 0x78] in
  build_frame data
  = [0x81] ++ Wire.length_field 128 n ++ key ++ Wire.masked key data
  /\ (n <= 125 -> Wire.length_field 128 n = [128 + n])
  /\ (125 < n <= 65535 ->
      exists hi lo,
        Wire.length_field 128 n = [128 + 126; hi; lo]
        /\ Wire.of_big_endian [hi; lo] = n)
  /\ (65535 < n < 2 ^ 64 ->
      exists octets,
        Wire.length_field 128 n = (128 + 127) :: octets
        /\ length octets = 8%nat /\ Wire.of_big_endian octets = n)
  /\ (forall i ch,
         nth_error (list_ascii_of_string data) i = Some ch ->
         nth_error (Wire.masked key data) i
         = Some (Z.lxor (u8 ch) (nth (i mod 4) key 0)))
  /\ (forall c sk,
         m_socket c = Some sk -> writable sk = true ->
         Z.of_nat (length (build_frame data)) <= INT_MAX ->
         WriteFrame c data
         = (true,
            with_socket c
              (Some (mkSocket (inbound sk) (drained sk)
                              (outbound sk ++ [build_frame data])
                              (writable sk))))).
Proof.
  intros n key.
  assert (Hn : 0 <= n) by (subst n; lia).
  split; [apply build_frame_eq|].
  split.
  { intros H. unfold Wire.length_field.
    destruct (Z.leb_spec n 125); [reflexivity|lia]. }
  split.
  { intros H. unfold Wire.length_field.
    destruct (Z.leb_spec n 125); [lia|].
    destruct (Z.leb_spec n 65535); [|lia].
    pose proof (of_big_endian_big_endian 2 n) as Hbe.
    cbn [Wire.big_endian] in *. do 2 eexists. split; [reflexivity|].
    apply Hbe. change (256 ^ Z.of_nat 2) with 65536. lia. }
  split.
  { intros H. unfold Wire.length_field.
    destruct (Z.leb_spec n 125); [lia|].
    destruct (Z.leb_spec n 65535); [lia|].
    exists (Wire.big_endian 8 n). split; [reflexivity|].
    split; [apply length_big_endian|].
    apply of_big_endian_big_endian.
    change (256 ^ Z.of_nat 8) with (2 ^ 64). lia. }
  split.
  { intros i ch Hi. unfold Wire.masked.
    rewrite (nth_error_masked_from key _ 0 i ch Hi). reflexivity. }
  intros c sk Hsocket Hwritable Hfits.
  apply WriteFrame_sends; auto.
Qed.

Lemma WriteFrame_emits_masked_text_frame_witness :
  WriteFrame (Scenario.receiving []) "a"
  = (true,
     with_socket (Scenario.receiving [])
       (Some (mkSocket [] 0 [[0x81; 0x81; 0x12; 0x34; 0x56; 0x78; 0x73]]
                       true))).
Proof.
  destruct (WriteFrame_emits_masked_text_frame "a")
    as (_ & _ & _ & _ & _ & H).
  apply (H (Scenario.receiving []) (mkSocket [] 0 [] true)).
  - reflexivity.
  - reflexivity.
  - vm_compute. discriminate.
Defined.

End CodecClaims.

(** ** Strings *)

Lemma prefix_app (p s : string) :
  prefix p s = true <-> exists rest, s = (p ++ rest)%string.
Proof.
  revert s. induction p as [|a p IH]; intros s.
  - split; [intros _; exists s; reflexivity|intros _; destruct s; reflexivity].
  - destruct s as [|b s]; simpl.
    + split; [discriminate|intros [rest H]; discriminate H].
    + destruct (ascii_dec a b) as [->|Hab].
      * rewrite IH. split; intros [rest H]; exists rest.
        -- now rewrite H.
        -- now injection H.
      * split; [discriminate|].
        intros [rest H]. injection H as H _. congruence.
Qed.

(** [strstr] finds the needle exactly when the haystack contains it. *)
Lemma strstr_contains (haystack needle : string) :
  (exists r, strstr haystack needle = Some r)
  <-> Wire.contains haystack needle.
Proof.
  unfold Wire.contains.
  induction haystack as [|c h IH]; cbn [strstr].
  - destruct (prefix needle EmptyString) eqn:E.
    + split; [|intros _; eexists; reflexivity].
      intros _. apply prefix_app in E. destruct E as [rest E].
      exists EmptyString, rest. exact E.
    + split; [intros [r H]; discriminate H|].
      intros (before & after & H).
      destruct before; [|discriminate H].
      assert (prefix needle EmptyString = true)
        by (apply prefix_app; exists after; exact H).
      congruence.
  - destruct (prefix needle (String c h)) eqn:E.
    + split; [|intros _; eexists; reflexivity].
      intros _. apply prefix_app in E. destruct E as [rest E].
      exists EmptyString, rest. exact E.
    + rewrite IH. split.
      * intros (before & after & H).
        exists (String c before), after. simpl. now rewrite H.
      * intros (before & after & H).
        destruct before as [|c' before].
        -- assert (prefix needle (String c h) = true)
             by (apply prefix_app; exists after; exact H).
           congruence.
        -- injection H as _ H. exists before, after. exact H.
Qed.

Lemma strstr_true_iff (haystack needle : string) :
  match strstr haystack needle with Some _ => true | None => false end = true
  <-> Wire.contains haystack needle.
Proof.
  rewrite <- strstr_contains.
  destruct (strstr haystack needle) as [r|].
  - split; [intros _; exists r; reflexivity|reflexivity].
  - split; [discriminate|intros [r H]; discriminate H].
Qed.

(** The terminator that [PerformHandshake] stores after the octets
    received does not change the C string when one of them is NUL, and
    ends it otherwise. *)
Lemma c_str_terminated (buffer : list Z) : c_str (buffer ++ [0]) = c_str buffer.
Proof.
  induction buffer as [|b buffer IH]; simpl; [reflexivity|].
  destruct (b mod 256 =? 0); [reflexivity|now rewrite IH].
Qed.

(** ** Sockets, continued *)

Lemma send_accepted (sk : Socket) (buf : list Z) (len : Z) :
  writable sk = true -> 0 <= len ->
  send (Some sk) buf len
  = (len,
     Some (mkSocket (inbound sk) (drained sk)
                    (outbound sk ++ [firstn (Z.to_nat len) buf])
                    (writable sk))).
Proof.
  intros Hw Hlen. unfold send. rewrite Hw.
  destruct (Z.ltb_spec len 0); [lia|reflexivity].
Qed.

Lemma send_keeps_socket (s : SOCKET) (buf : list Z) (len : Z) :
  s <> None -> snd (send s buf len) <> None.
Proof.
  destruct s as [sk|]; [intros _|congruence]. unfold send.
  destruct ((len <? 0) || negb (writable sk)); discriminate.
Qed.

Lemma recv_keeps_socket (s : SOCKET) (len : Z) :
  s <> None -> snd (recv s len) <> None.
Proof.
  destruct s as [sk|]; [intros _|congruence]. unfold recv.
  destruct (len <? 0); [discriminate|].
  destruct (inbound sk); discriminate.
Qed.

(** ** Regular expressions *)

Section RegexFacts.
Variable R : Type.

Lemma reset_nothing (caps : Regex.captures) : Regex.reset [] caps = caps.
Proof.
  unfold Regex.reset. induction caps as [|p caps IH]; [reflexivity|].
  cbn [filter existsb negb]. f_equal. exact IH.
Qed.

Lemma length_append (s1 s2 : string) :
  String.length (s1 ++ s2) = (String.length s1 + String.length s2)%nat.
Proof. induction s1; simpl; congruence. Qed.

Lemma consumed_append (w s : string) : Regex.consumed (w ++ s) s = w.
Proof.
  unfold Regex.consumed. rewrite length_append, Nat.add_sub.
  induction w as [|c w IH]; simpl.
  - destruct s; reflexivity.
  - now rewrite IH.
Qed.

Lemma progress_tail (c : ascii) (s : string) (k : Regex.cont R)
      (caps : Regex.captures) :
  Regex.progress (String c s) k s caps = k s caps.
Proof.
  unfold Regex.progress. simpl String.length.
  destruct (Nat.ltb_spec (String.length s) (S (String.length s)));
    [reflexivity|lia].
Qed.

Lemma run_seq (r1 r2 : Regex.t) (s : string) (caps : Regex.captures)
      (k : Regex.cont R) :
  Regex.run (Regex.Seq r1 r2) s caps k
  = Regex.run r1 s caps (fun s1 caps1 => Regex.run r2 s1 caps1 k).
Proof. reflexivity. Qed.

Lemma run_group (i : nat) (r : Regex.t) (s : string) (caps : Regex.captures)
      (k : Regex.cont R) :
  Regex.run (Regex.Group i r) s caps k
  = Regex.run r s caps
              (fun s1 caps1 => k s1 ((i, Regex.consumed s s1) :: caps1)).
Proof. reflexivity. Qed.

Lemma run_chr_match (c : ascii) (s : string) (caps : Regex.captures)
      (k : Regex.cont R) :
  Regex.run (Regex.Chr c) (String c s) caps k = k s caps.
Proof. cbn [Regex.run Regex.one]. now rewrite Ascii.eqb_refl. Qed.

Lemma run_chr_mismatch (c c' : ascii) (s : string) (caps : Regex.captures)
      (k : Regex.cont R) :
  c <> c' -> Regex.run (Regex.Chr c) (String c' s) caps k = None.
Proof.
  intros H. cbn [Regex.run Regex.one].
  destruct (Ascii.eqb_spec c c'); [contradiction|reflexivity].
Qed.

Lemma run_lit_match (p s : string) (caps : Regex.captures)
      (k : Regex.cont R) :
  Regex.run (Regex.lit p) (p ++ s) caps k = k s caps.
Proof.
  induction p as [|a p IH]; [reflexivity|].
  cbn [Regex.lit append]. cbn [Regex.run Regex.one].
  rewrite Ascii.eqb_refl. exact IH.
Qed.

End RegexFacts.

Lemma run_lit_mismatch (R : Type) (p : string) :
  forall (s : string) (caps : Regex.captures) (k : Regex.cont R),
    prefix p s = false -> Regex.run (Regex.lit p) s caps k = None.
Proof.
  induction p as [|a p IH]; intros s caps k H.
  - destruct s; discriminate H.
  - destruct s as [|b s]; [reflexivity|].
    simpl in H. cbn [Regex.lit Regex.run Regex.one].
    destruct (ascii_dec a b) as [->|Hab].
    + rewrite Ascii.eqb_refl. apply IH. exact H.
    + destruct (Ascii.eqb_spec a b); [congruence|reflexivity].
Qed.

(** ** The handshake and the session *)

Section Session.
Import SignalingClient.

(** [PerformHandshake] touches nothing of the client but its socket,
    and leaves a valid socket valid. *)
Lemma PerformHandshake_socket_only (net : Network) (c : t) (path : string) :
  exists s',
    snd (PerformHandshake net c path) = with_socket c s'
    /\ (m_socket c <> None -> s' <> None).
Proof.
  unfold PerformHandshake.
  set (request := handshake_request _ _).
  pose proof (send_keeps_socket (m_socket c) (bytes_of_string request)
                (to_int (Z.of_nat (String.length request)))) as Hsend.
  destruct (send _ _ _) as [sent s1]. simpl in Hsend.
  destruct (sent =? SOCKET_ERROR); [exists s1; auto|].
  pose proof (recv_keeps_socket s1 (1024 - 1)) as Hrecv.
  destruct (recv s1 (1024 - 1)) as [[received buffer] s2]. simpl in Hrecv.
  destruct (received <=? 0); exists s2; auto.
Qed.

(** Without a socket, or on a socket that refuses data, the request
    cannot be sent and the handshake fails. *)
Lemma PerformHandshake_send_fails (net : Network) (c : t) (path : string) :
  (m_socket c = None
   \/ exists sk, m_socket c = Some sk /\ writable sk = false) ->
  fst (PerformHandshake net c path) = false.
Proof.
  intros [H|(sk & H & Hw)]; unfold PerformHandshake, send; rewrite H.
  - reflexivity.
  - rewrite Hw, orb_true_r. reflexivity.
Qed.

(** The outcome of the handshake once the request is sent: the search
    of 101 in what one [recv] of at most 1023 octets returned, read as
    a C string. *)
Lemma PerformHandshake_reads_once (net : Network) (c : t) (path : string)
      (sk : Socket) :
  m_socket c = Some sk -> writable sk = true ->
  Z.of_nat (String.length
              (handshake_request path (base64 (map u8 (websocket_key net)))))
  <= INT_MAX ->
  fst (PerformHandshake net c path)
  = match inbound sk with
    | reply :: _ =>
        match strstr (c_str (firstn 1023 reply)) "101" with
        | Some _ => true
        | None => false
        end
    | [] => false
    end.
Proof.
  intros Hs Hw Hfit. unfold INT_MAX in Hfit.
  unfold PerformHandshake. rewrite Hs.
  set (request := handshake_request _ _) in *.
  rewrite to_int_small by lia.
  rewrite send_accepted by (auto; lia).
  destruct (Z.eqb_spec (Z.of_nat (String.length request)) SOCKET_ERROR)
    as [E|_]; [unfold SOCKET_ERROR in E; lia|].
  unfold recv. change (1024 - 1 <? 0) with false.
  cbn [inbound drained outbound writable].
  destruct (inbound sk) as [|reply more].
  - destruct (drained sk <=? 0); reflexivity.
  - change (Z.to_nat (1024 - 1)) with 1023%nat.
    destruct (firstn 1023 reply) as [|b got] eqn:E; [reflexivity|].
    cbn [length]. destruct (Z.leb_spec (Z.of_nat (S (length got))) 0);
      [lia|].
    cbn [fst]. rewrite c_str_terminated. reflexivity.
Qed.

Lemma ParseUrl_other_scheme (url room : string) :
  prefix "ws://" url = false ->
  ParseUrl url room
  = Some ("localhost"%string, 8080,
          ("/?room=" ++ room ++ "&role=receiver")%string).
Proof.
  intros H. unfold ParseUrl, Regex.regex_match, urlRegex.
  cbn [Regex.run]. rewrite run_lit_mismatch by exact H. reflexivity.
Qed.


(** The constructor of [typeRegex] refuses the pattern, so [OnMessage]
    never gets as far as its search. *)
Lemma OnMessage_throws (c : t) (message : string) :
  OnMessage c message = None.
Proof. reflexivity. Qed.

(** A turn of the receive loop that reads a message. *)
Lemma RunLoop_message (fuel : nat) (c c1 : t) (message : string) :
  m_running c = true -> m_socket c <> None ->
  ReadFrame_throws c = false ->
  ReadFrame c = (message, c1) -> message <> EmptyString ->
  RunLoop (S fuel) c = None.
Proof.
  intros Hr Hs Ht E Hm. cbn [RunLoop]. rewrite Hr, Ht, E.
  destruct (m_socket c); [|congruence].
  destruct message; [congruence|reflexivity].
Qed.

End Session.

Section SessionClaims.
Import SignalingClient.




(** C7, the code against the claim.  The pattern of [OnMessage], as
    its raw string literal delimits it, opens group 1 and does not
    close it: the constructor of [std::regex] refuses it with
    [regex_constants::error_paren].  So [OnMessage] leaves by
    [std::regex_error] on every message, before the search for the
    type tag and before the handler is called.  A running client with
    a handler registered whose peer sends the offer message in one
    frame reads the message whole, and its receive loop ends with that
    exception on the turn that reads it: the handler is not called. *)
Theorem OnMessage_refuses_its_pattern :
  Regex.compile type_pattern = Regex.error_paren
  /\ (forall c message, OnMessage c message = None)
  /\ m_messageCallback Scenario.listening = true
  /\ ReadFrame_throws Scenario.listening = false
  /\ fst (ReadFrame Scenario.listening) = Scenario.offer
  /\ forall fuel, RunLoop (S fuel) Scenario.listening = None.
Proof.
  split; [vm_compute; reflexivity|].
  split; [intros c message; apply OnMessage_throws|].
  split; [reflexivity|].
  split; [vm_compute; reflexivity|].
  split; [vm_compute; reflexivity|].
  intros fuel.
  apply (RunLoop_message fuel Scenario.listening
           (with_socket Scenario.listening (Some (mkSocket [] 0 [] true)))
           Scenario.offer).
  - reflexivity.
  - discriminate.
  - vm_compute. reflexivity.
  - vm_compute. reflexivity.
  - discriminate.
Qed.

(** C8 (as amended).  For the address ws://host:1234/ws and the room
    roomA, [Connect] takes the host to be host and the port 1234, and
    the request sent in the connect scenario is the handshake request
    for the path /ws?room=roomA&role=receiver, after which the client
    is [Connected].  For an address that does not start with ws://,
    host, port and path keep their defaults (localhost, 8080, /) and
    the path of the request is /?room=<room>&role=receiver. *)
Theorem Connect_request_path :
  let net := Scenario.mock (bytes_of_string Scenario.switching_protocols) in
  let key := base64 (map u8 (websocket_key net)) in
  ParseUrl "ws://host:1234/ws" "roomA"
  = Some ("host"%string, 1234, "/ws?room=roomA&role=receiver"%string)
  /\ (exists c',
         Connect net create "ws://host:1234/ws" "roomA" = Some (true, c')
         /\ Scenario.on_the_wire c'
            = [bytes_of_string
                 (handshake_request "/ws?room=roomA&role=receiver" key)]
         /\ m_state c' = Connected)
  /\ (forall url room,
         prefix "ws://" url = false ->
         ParseUrl url room
         = Some ("localhost"%string, 8080,
                 ("/?room=" ++ room ++ "&role=receiver")%string)).
Proof.
  intros net key. split; [vm_compute; reflexivity|]. split.
  - eexists. split; [vm_compute; reflexivity|].
    split; vm_compute; reflexivity.
  - apply ParseUrl_other_scheme.
Qed.

Lemma Connect_request_path_witness :
  ParseUrl "http://host:1234/ws" "roomA"
  = Some ("localhost"%string, 8080, "/?room=roomA&role=receiver"%string).
Proof.
  apply (proj2 (proj2 Connect_request_path)). reflexivity.
Defined.

(** C8, the claim as it is worded: for the address host:1234/ws the
    request has the path /?room=roomA&role=receiver, not
    /ws?room=roomA&role=receiver, and goes to localhost:8080. *)
Lemma Connect_without_scheme_uses_defaults :
  let net := Scenario.mock (bytes_of_string Scenario.switching_protocols) in
  let key := base64 (map u8 (websocket_key net)) in
  ParseUrl "host:1234/ws" "roomA"
  = Some ("localhost"%string, 8080, "/?room=roomA&role=receiver"%string)
  /\ exists c',
       Connect net create "host:1234/ws" "roomA" = Some (true, c')
       /\ Scenario.on_the_wire c'
          = [bytes_of_string
               (handshake_request "/?room=roomA&role=receiver" key)]
       /\ Scenario.on_the_wire c'
          <> [bytes_of_string
                (handshake_request "/ws?room=roomA&role=receiver" key)].
Proof.
  intros net key. split; [vm_compute; reflexivity|].
  eexists. split; [vm_compute; reflexivity|].
  split; [vm_compute; reflexivity|vm_compute; discriminate].
Qed.

(** C9 (as amended).  Once the request is sent, the handshake succeeds
    exactly when the octets of the response that come before its first
    NUL octet contain 101, the response being what one [recv] of at
    most 1023 octets returns.  It fails when the stream is closed or
    the read fails, and when the request cannot be sent. *)
Theorem PerformHandshake_succeeds_iff_101
        (net : Network) (c : t) (path : string) (sk : Socket)
        (Hsocket : m_socket c = Some sk) (Hwritable : writable sk = true)
        (Hfits : Z.of_nat
                   (String.length
                      (handshake_request
                         path (base64 (map u8 (websocket_key net)))))
                 <= INT_MAX) :
  let response :=
    match inbound sk with
    | reply :: _ => firstn 1023 reply
    | [] => []
    end in
  (fst (PerformHandshake net c path) = true
   <-> Wire.contains (c_str response) "101")
  /\ (inbound sk = [] -> fst (PerformHandshake net c path) = false)
  /\ (forall c0,
         m_socket c0 = None
         \/ (exists sk0, m_socket c0 = Some sk0 /\ writable sk0 = false) ->
         fst (PerformHandshake net c0 path) = false).
Proof.
  intros response. subst response.
  rewrite (PerformHandshake_reads_once net c path sk Hsocket Hwritable Hfits).
  split; [|split].
  - destruct (inbound sk) as [|reply more].
    + split; [discriminate|].
      intros H. apply strstr_contains in H. destruct H as [r H].
      discriminate H.
    + apply strstr_true_iff.
  - intros ->. reflexivity.
  - intros c0. apply PerformHandshake_send_fails.
Qed.

Lemma PerformHandshake_succeeds_iff_101_witness :
  fst (PerformHandshake
         (Scenario.mock [])
         (Scenario.receiving [bytes_of_string Scenario.switching_protocols])
         "/")
  = true.
Proof.
  pose proof (PerformHandshake_succeeds_iff_101
                (Scenario.mock [])
                (Scenario.receiving
                   [bytes_of_string Scenario.switching_protocols])
                "/"
                (mkSocket [bytes_of_string Scenario.switching_protocols]
                          0 [] true)
                eq_refl eq_refl) as H.
  apply H.
  - vm_compute. discriminate.
  - exists "HTTP/1.1 "%string.
    exists (" Switching Protocols" ++ CRLF ++ CRLF)%string.
    vm_compute. reflexivity.
Defined.

(** C9, the claim as it is worded: a response whose octets contain 101
    after a NUL octet is refused, because [strstr] reads the buffer as
    a C string. *)
Lemma PerformHandshake_stops_at_NUL :
  let reply := 0 :: bytes_of_string Scenario.switching_protocols in
  Wire.contains (string_of_bytes reply) "101"
  /\ fst (PerformHandshake (Scenario.mock reply)
                           (Scenario.receiving [reply]) "/")
     = false.
Proof.
  split.
  - exists (String zero "HTTP/1.1 ").
    exists (" Switching Protocols" ++ CRLF ++ CRLF)%string.
    vm_compute. reflexivity.
  - vm_compute. reflexivity.
Qed.

End SessionClaims.

(** * Further properties of the code *)

(** ** FrameBuffer: what the queue holds and hands out *)

Section FrameBufferMore.
Import FrameBuffer.
Local Open Scope nat_scope.

Lemma newest_app (A : Type) (n : nat) (l r : list A) :
  newest n (newest n l ++ r) = newest n (l ++ r).
Proof.
  unfold newest. rewrite !length_app, length_skipn.
  destruct (Nat.le_gt_cases (length l) n) as [H|H].
  - replace (length l - n) with 0 by lia. simpl. f_equal. lia.
  - replace (length l + length r - n)
      with (length r + (length l - n)) by lia.
    rewrite <- skipn_skipn, (skipn_app (length l - n) l r).
    replace (length l - n - length l) with 0 by lia. cbn [skipn].
    f_equal. lia.
Qed.

(** The eviction loop keeps the newest [maxFrames - 1] frames. *)
Lemma evict_newest (maxFrames : nat) (q : list VideoFrame) :
  1 <= maxFrames ->
  evict maxFrames q
  = Some (firstn (length q + 1 - maxFrames) q,
          skipn (length q + 1 - maxFrames) q).
Proof.
  intros Hmax. induction q as [|f q IH]; cbn [evict length].
  - destruct (Nat.leb_spec maxFrames 0); [lia|].
    rewrite firstn_nil, skipn_nil. reflexivity.
  - destruct (Nat.leb_spec maxFrames (S (length q))) as [H|H].
    + rewrite IH.
      replace (S (length q) + 1 - maxFrames)
        with (S (length q + 1 - maxFrames)) by lia.
      reflexivity.
    + replace (S (length q) + 1 - maxFrames) with 0 by lia.
      reflexivity.
Qed.

Lemma Push_newest (fb : t) (frame : VideoFrame) :
  1 <= m_maxFrames fb ->
  Push fb frame
  = Some (mk (newest (m_maxFrames fb) (m_frames fb ++ [frame]))
             (m_maxFrames fb)).
Proof.
  intros Hmax. unfold Push. rewrite evict_newest by exact Hmax.
  unfold newest. rewrite length_app, skipn_app. simpl length.
  replace (length (m_frames fb) + 1 - m_maxFrames fb - length (m_frames fb))
    with 0 by lia.
  reflexivity.
Qed.

Lemma newest_all (A : Type) (n : nat) (l : list A) :
  length l <= n -> newest n l = l.
Proof.
  intros H. unfold newest. replace (length l - n) with 0 by lia. reflexivity.
Qed.

Lemma length_newest (A : Type) (n : nat) (l : list A) :
  length (newest n l) = Nat.min n (length l).
Proof. unfold newest. rewrite length_skipn. lia. Qed.

Lemma step_push (fb : t) (f : VideoFrame) :
  1 <= m_maxFrames fb ->
  exists evs,
    step fb (OpPush f)
    = Some (mk (newest (m_maxFrames fb) (m_frames fb ++ [f]))
               (m_maxFrames fb), evs)
    /\ popped evs = [] /\ pushed evs = [f].
Proof.
  intros Hmax. cbn [step].
  rewrite Push_newest, evict_newest by exact Hmax.
  eexists. split; [reflexivity|].
  rewrite popped_app, pushed_app, pushed_evicted. split; [|reflexivity].
  simpl. rewrite app_nil_r.
  induction (firstn _ _); simpl; auto.
Qed.

Lemma run_pushes (fs : list VideoFrame) : forall fb,
  1 <= m_maxFrames fb -> Size fb <= m_maxFrames fb ->
  exists h,
    run fb (map OpPush fs)
    = Some (mk (newest (m_maxFrames fb) (m_frames fb ++ fs))
               (m_maxFrames fb), h)
    /\ popped h = [] /\ pushed h = fs.
Proof.
  induction fs as [|f fs IH]; intros fb Hmax Hsize.
  - exists []. cbn [map run]. rewrite app_nil_r, newest_all by exact Hsize.
    destruct fb. auto.
  - cbn [map run].
    destruct (step_push fb f Hmax) as (evs & E & Hpop & Hpush).
    rewrite E.
    destruct (IH (mk (newest (m_maxFrames fb) (m_frames fb ++ [f]))
                     (m_maxFrames fb)))
      as (h & E' & Hpop' & Hpush').
    + exact Hmax.
    + unfold Size. cbn [m_frames m_maxFrames]. rewrite length_newest. lia.
    + cbn [m_frames m_maxFrames] in E'. rewrite E'.
      rewrite newest_app, <- app_assoc. cbn [app].
      eexists. split; [reflexivity|].
      rewrite popped_app, pushed_app, Hpop, Hpop', Hpush, Hpush'. auto.
Qed.

(** [n] calls of [Pop] hand out the first [n] frames held, oldest
    first, and time out once the queue is empty. *)
Lemma run_pops (n : nat) : forall fb,
  exists h,
    run fb (repeat OpPop n)
    = Some (mk (skipn n (m_frames fb)) (m_maxFrames fb), h)
    /\ popped h = firstn n (m_frames fb) /\ pushed h = [].
Proof.
  induction n as [|n IH]; intros fb.
  - exists []. cbn [repeat run skipn firstn]. destruct fb. auto.
  - cbn [repeat run step]. unfold Pop.
    destruct (m_frames fb) as [|f q] eqn:E.
    + destruct (IH fb) as (h & E' & Hpop & Hpush). rewrite E'.
      rewrite E in *. rewrite skipn_nil in *. rewrite firstn_nil in *.
      eexists. split; [reflexivity|].
      rewrite popped_app, pushed_app, Hpop, Hpush. auto.
    + destruct (IH (mk q (m_maxFrames fb))) as (h & E' & Hpop & Hpush).
      rewrite E'. cbn [m_frames m_maxFrames skipn firstn] in *.
      eexists. split; [reflexivity|].
      rewrite popped_app, pushed_app, Hpop, Hpush. auto.
Qed.

Lemma run_app (ops1 ops2 : list op) : forall fb fb1 h1,
  run fb ops1 = Some (fb1, h1) ->
  run fb (ops1 ++ ops2)
  = match run fb1 ops2 with
    | Some (fb2, h2) => Some (fb2, h1 ++ h2)
    | None => None
    end.
Proof.
  induction ops1 as [|o ops1 IH]; intros fb fb1 h1; cbn [app run].
  - intros H; injection H as <- <-.
    destruct (run fb ops2) as [[fb2 h2]|]; reflexivity.
  - destruct (step fb o) as [[fb' evs]|]; [|discriminate].
    destruct (run fb' ops1) as [[fb'' evs']|] eqn:E; [|discriminate].
    intros H; injection H as <- <-.
    rewrite (IH _ _ _ E).
    destruct (run fb'' ops2) as [[fb2 h2]|]; [|reflexivity].
    now rewrite app_assoc.
Qed.

(** X1.  A [Push] on a buffer that is not full drops nothing: the
    frames held stay, in their order, and the new frame comes last. *)
Theorem Push_below_capacity_keeps_all (fb : t) (frame : VideoFrame)
        (Hroom : Size fb < m_maxFrames fb) :
  Push fb frame = Some (mk (m_frames fb ++ [frame]) (m_maxFrames fb)).
Proof.
  unfold Size in Hroom. rewrite Push_newest by lia.
  rewrite newest_all; [reflexivity|].
  rewrite length_app. simpl. lia.
Qed.

Lemma Push_below_capacity_keeps_all_witness :
  Push (mk [Scenario.blank 1] 3) (Scenario.blank 2)
  = Some (mk [Scenario.blank 1; Scenario.blank 2] 3).
Proof.
  apply (Push_below_capacity_keeps_all (mk [Scenario.blank 1] 3)).
  unfold Size. simpl. lia.
Defined.

(** X2.  After the frames [fs] have been pushed on a new buffer of
    capacity at least one, the buffer holds the newest [capacity] of
    them, and [n] calls of [Pop] hand out the first [n] of these,
    oldest first; the frames pushed before them are never handed out. *)
Theorem buffer_holds_newest_frames
        (capacity : nat) (fs : list VideoFrame) (n : nat)
        (Hcap : 1 <= capacity) :
  exists fb h,
    run (create capacity) (map OpPush fs ++ repeat OpPop n) = Some (fb, h)
    /\ pushed h = fs
    /\ popped h = firstn n (newest capacity fs)
    /\ m_frames fb = skipn n (newest capacity fs)
    /\ m_maxFrames fb = capacity.
Proof.
  destruct (run_pushes fs (create capacity)) as (h1 & E1 & Hpop1 & Hpush1).
  - exact Hcap.
  - unfold Size. simpl. lia.
  - rewrite (run_app _ (repeat OpPop n) _ _ _ E1).
    cbn [create m_frames m_maxFrames app].
    destruct (run_pops n (mk (newest capacity fs) capacity))
      as (h2 & E2 & Hpop2 & Hpush2).
    rewrite E2. cbn [m_frames m_maxFrames] in *.
    do 2 eexists. split; [reflexivity|].
    rewrite pushed_app, popped_app, Hpop1, Hpop2, Hpush1, Hpush2.
    rewrite app_nil_r. auto.
Qed.

Lemma buffer_holds_newest_frames_witness :
  exists fb h,
    run (create 2)
        (map OpPush [Scenario.blank 1; Scenario.blank 2; Scenario.blank 3]
         ++ repeat OpPop 1)
    = Some (fb, h)
    /\ popped h = [Scenario.blank 2]
    /\ m_frames fb = [Scenario.blank 3].
Proof.
  destruct (buffer_holds_newest_frames
              2 [Scenario.blank 1; Scenario.blank 2; Scenario.blank 3] 1)
    as (fb & h & E & _ & Hpop & Hfr & _).
  - lia.
  - exists fb, h. split; [exact E|]. split; [exact Hpop|exact Hfr].
Defined.

(** X3.  After a [Push], [Peek] shows the frame just pushed and [Pop]
    takes the oldest frame held; when the buffer then holds a single
    frame, the two are the same frame. *)
Theorem Peek_newest_Pop_oldest (fb : t) (frame : VideoFrame)
        (Hcap : 1 <= m_maxFrames fb) :
  exists fb' oldest rest,
    Push fb frame = Some fb'
    /\ Peek fb' = Some frame
    /\ m_frames fb' = oldest :: rest
    /\ Pop fb' = (Some oldest, mk rest (m_maxFrames fb))
    /\ (rest = [] -> oldest = frame)
    /\ Empty fb' = false.
Proof.
  destruct (Push_positive fb frame Hcap)
    as (fb' & E & _ & Hm & _ & kept & Hk).
  unfold Peek, Pop, Empty.
  destruct (m_frames fb') as [|oldest rest] eqn:Efr.
  - destruct kept; discriminate Hk.
  - exists fb', oldest, rest. rewrite Efr, Hm.
    repeat split; auto.
    + f_equal. destruct kept as [|k kept]; cbn [app] in Hk.
      * injection Hk as -> ->. reflexivity.
      * injection Hk as -> ->. rewrite last_last. reflexivity.
    + intros ->. destruct kept as [|k kept]; cbn [app] in Hk.
      * now injection Hk.
      * injection Hk as _ Hk. destruct kept; discriminate Hk.
Qed.

Lemma Peek_newest_Pop_oldest_witness :
  exists fb',
    Push (mk [Scenario.blank 1] 2) (Scenario.blank 2) = Some fb'
    /\ Peek fb' = Some (Scenario.blank 2)
    /\ fst (Pop fb') = Some (Scenario.blank 1).
Proof.
  destruct (Peek_newest_Pop_oldest (mk [Scenario.blank 1] 2)
                                   (Scenario.blank 2))
    as (fb' & oldest & rest & E & Hpeek & Hfr & Hpop & _).
  - simpl. lia.
  - exists fb'. split; [exact E|]. split; [exact Hpeek|].
    rewrite Hpop. cbn [fst]. f_equal.
    vm_compute in E. injection E as <-. now injection Hfr.
Defined.

(** X4.  [Clear] leaves what popping every frame leaves, without
    handing the frames out: an empty buffer of the same capacity, on
    which [Peek] and [Pop] find nothing and which a following [Push]
    fills with exactly the frame pushed (when the capacity is zero that
    [Push] pops the empty queue instead). *)
Theorem Clear_is_a_silent_drain (fb : t) :
  (exists h,
      run fb (repeat OpPop (Size fb)) = Some (Clear fb, h)
      /\ popped h = m_frames fb)
  /\ (exists h, run fb [OpClear] = Some (Clear fb, h) /\ popped h = [])
  /\ Size (Clear fb) = 0
  /\ Empty (Clear fb) = true
  /\ Peek (Clear fb) = None
  /\ Pop (Clear fb) = (None, Clear fb)
  /\ (forall frame,
         Push (Clear fb) frame
         = if 1 <=? m_maxFrames fb
           then Some (mk [frame] (m_maxFrames fb)) else None).
Proof.
  split.
  { destruct (run_pops (Size fb) fb) as (h & E & Hpop & _).
    unfold Size in *. rewrite skipn_all, firstn_all in *.
    exists h. auto. }
  split; [eexists; split; reflexivity|].
  repeat split.
  intros frame.
  destruct (Nat.leb_spec 1 (m_maxFrames fb)) as [Hcap|Hcap].
  - rewrite Push_newest by exact Hcap. cbn [Clear m_frames m_maxFrames app].
    rewrite newest_all by (simpl; lia). reflexivity.
  - unfold Push. cbn [Clear m_frames m_maxFrames evict].
    replace (m_maxFrames fb) with 0 by lia. reflexivity.
Qed.

End FrameBufferMore.

(** ** ReadFrame: payloads that arrive in pieces *)

Section Reassembly.
Import SignalingClient.

Lemma recv_piece (piece : list Z) (rest : list (list Z)) (d : Z)
      (o : list (list Z)) (w : bool) (len : Z) :
  0 < len -> len <= Z.of_nat (length piece) ->
  recv (Some (mkSocket (piece :: rest) d o w)) len
  = (len, firstn (Z.to_nat len) piece,
     Some (mkSocket (requeue (skipn (Z.to_nat len) piece) rest) d o w)).
Proof.
  intros Hpos Hlen. unfold recv.
  destruct (Z.ltb_spec len 0) as [H|_]; [lia|].
  cbn [inbound drained outbound writable].
  rewrite length_firstn, Nat.min_l by lia.
  rewrite Z2Nat.id by lia. reflexivity.
Qed.

Lemma recv_whole_piece (piece : list Z) (rest : list (list Z)) (d : Z)
      (o : list (list Z)) (w : bool) (len : Z) :
  piece <> [] -> Z.of_nat (length piece) <= len ->
  recv (Some (mkSocket (piece :: rest) d o w)) len
  = (Z.of_nat (length piece), piece, Some (mkSocket rest d o w)).
Proof.
  intros Hne Hlen. unfold recv.
  destruct (Z.ltb_spec len 0) as [H|_]; [lia|].
  cbn [inbound drained outbound writable].
  rewrite firstn_all2, skipn_all2 by lia. reflexivity.
Qed.

Lemma store_next (acc got : list Z) (k : nat) :
  store (acc ++ repeat 0 (length got + k)) (Z.of_nat (length acc)) got
  = (acc ++ got) ++ repeat 0 k.
Proof.
  unfold store. rewrite Nat2Z.id.
  rewrite firstn_app, firstn_all, Nat.sub_diag, firstn_O, app_nil_r.
  rewrite skipn_app, skipn_all2 by lia.
  replace (length acc + length got - length acc)%nat
    with (length got) by lia.
  rewrite <- (repeat_length 0 (length got)) at 1.
  rewrite repeat_app, skipn_app, skipn_all, repeat_length, Nat.sub_diag.
  cbn [app skipn]. now rewrite app_assoc.
Qed.

(** The loop of [ReadFrame] puts together a payload that arrives in
    any number of pieces. *)
Lemma read_payload_pieces (d : Z) (o : list (list Z)) (w : bool)
      (more : list (list Z)) (n : Z) (ps : list (list Z)) :
  forall (fuel : nat) (acc : list Z),
    Forall (fun piece => piece <> []) ps ->
    Z.of_nat (length acc + length (concat ps)) = n -> n <= INT_MAX ->
    (length (concat ps) <= fuel)%nat ->
    read_payload fuel (Some (mkSocket (ps ++ more) d o w)) n
                 (Z.of_nat (length acc))
                 (acc ++ repeat 0 (length (concat ps)))
    = (acc ++ concat ps, Some (mkSocket more d o w)).
Proof.
  unfold INT_MAX.
  induction ps as [|piece ps IH]; intros fuel acc Hne Hn Hmax Hfuel.
  - cbn [concat length app repeat] in *.
    destruct fuel as [|fuel]; cbn [read_payload]; [reflexivity|].
    destruct (Z.ltb_spec (Z.of_nat (length acc)) n); [lia|reflexivity].
  - inversion Hne as [|? ? Hpiece Hps]; subst.
    cbn [concat] in *. rewrite length_app in *.
    assert (Hlen : (0 < length piece)%nat)
      by (destruct piece; [congruence|simpl; lia]).
    destruct fuel as [|fuel]; [lia|].
    cbn [read_payload app].
    destruct (Z.ltb_spec (Z.of_nat (length acc)) (Z.of_nat (length acc + (length piece + length (concat ps)))));
      [|lia].
    rewrite to_int_small by lia.
    rewrite recv_whole_piece by (auto; lia).
    destruct (Z.leb_spec (Z.of_nat (length piece)) 0); [lia|].
    rewrite store_next.
    replace (Z.of_nat (length acc) + Z.of_nat (length piece))
      with (Z.of_nat (length (acc ++ piece))) by (rewrite length_app; lia).
    rewrite IH; try (rewrite ?length_app; lia); auto.
    now rewrite <- app_assoc.
Qed.

Lemma read_payload_start (d : Z) (o : list (list Z)) (w : bool)
      (p0 : list Z) (ps more : list (list Z)) :
  Forall (fun piece => piece <> []) ps ->
  Z.of_nat (length (p0 ++ concat ps)) <= INT_MAX ->
  read_payload (length (p0 ++ concat ps))
               (Some (mkSocket (requeue p0 (ps ++ more)) d o w))
               (Z.of_nat (length (p0 ++ concat ps))) 0
               (repeat 0 (length (p0 ++ concat ps)))
  = (p0 ++ concat ps, Some (mkSocket more d o w)).
Proof.
  intros Hne Hmax.
  destruct p0 as [|x p0]; cbn [requeue].
  - apply (read_payload_pieces d o w more _ ps _ []); auto.
  - change ((x :: p0) :: ps ++ more) with (((x :: p0) :: ps) ++ more).
    change ((x :: p0) ++ concat ps) with (concat ((x :: p0) :: ps)) in *.
    apply (read_payload_pieces d o w more _ ((x :: p0) :: ps) _ []); auto.
    constructor; [discriminate|exact Hne].
Qed.

Lemma ReadFrame_first_piece (c : t) (b0 b1 : Z) (tail : list Z)
      (rest : list (list Z)) (d : Z) (o : list (list Z)) (w : bool) :
  m_socket c = Some (mkSocket ((b0 :: b1 :: tail) :: rest) d o w) ->
  ReadFrame c
  = match read_length (Some (mkSocket (requeue tail rest) d o w)) [b0; b1]
    with
    | (None, s2) => (EmptyString, with_socket c s2)
    | (Some payloadLen, s2) =>
        let '(payload, s3) :=
          read_payload (Z.to_nat payloadLen) s2 payloadLen 0
                       (repeat 0 (Z.to_nat payloadLen)) in
        (string_of_bytes payload, with_socket c s3)
    end.
Proof.
  intros Hs. unfold ReadFrame. rewrite Hs.
  rewrite recv_piece by (cbn [length]; lia).
  reflexivity.
Qed.

(** [ReadFrame] on a frame whose header and length field come with the
    first piece and whose payload is spread over that piece and any
    number of further ones: the payload is returned whole and the
    pieces after it stay in the stream. *)
Lemma ReadFrame_pieces (c : t) (mask_bit : Z) (p0 : list Z)
      (ps more : list (list Z)) (d : Z) (o : list (list Z)) (w : bool) :
  mask_bit = 0 \/ mask_bit = 128 ->
  Forall (fun piece => piece <> []) ps ->
  Z.of_nat (length (p0 ++ concat ps)) <= INT_MAX ->
  m_socket c
  = Some (mkSocket
            (([0x81]
                ++ Wire.length_field
                     mask_bit (Z.of_nat (length (p0 ++ concat ps)))
                ++ p0) :: ps ++ more)
            d o w) ->
  ReadFrame c
  = (string_of_bytes (p0 ++ concat ps),
     with_socket c (Some (mkSocket more d o w))).
Proof.
  intros Hmb Hne Hmax.
  set (n := Z.of_nat (length (p0 ++ concat ps))) in *.
  assert (Hn : 0 <= n) by (subst n; lia).
  assert (Hnat : Z.to_nat n = length (p0 ++ concat ps))
    by (subst n; apply Nat2Z.id).
  pose proof (read_payload_start d o w p0 ps more Hne Hmax) as Hpay.
  fold n in Hpay. rewrite <- Hnat in Hpay.
  unfold Wire.length_field, INT_MAX in *.
  destruct (Z.leb_spec n 125) as [H|H];
    [|destruct (Z.leb_spec n 65535) as [H'|H']];
    cbn [app]; intros Hs;
    rewrite (ReadFrame_first_piece _ _ _ _ _ _ _ _ Hs);
    unfold read_length; cbn [nth].
  - assert (Hb1 : Z.land (mask_bit + n) 0x7F = n).
    { change 0x7F with (Z.ones 7). rewrite Z.land_ones by lia.
      destruct Hmb as [-> | ->].
      + apply Z.mod_small. lia.
      + replace (128 + n) with (n + 1 * 2 ^ 7) by lia.
        rewrite Z.mod_add by lia. apply Z.mod_small. lia. }
    rewrite Hb1.
    destruct (Z.eqb_spec n 126) as [E|_]; [lia|].
    destruct (Z.eqb_spec n 127) as [E|_]; [lia|].
    rewrite Hpay. reflexivity.
  - pose proof (decode_length_16 n ltac:(lia)) as H16.
    cbn [Wire.big_endian app] in *.
    assert (Hb1 : Z.land (mask_bit + 126) 0x7F = 126)
      by (destruct Hmb as [-> | ->]; reflexivity).
    rewrite Hb1. change (126 =? 126) with true. cbv iota.
    cbn [requeue].
    rewrite recv_piece by (cbn [length]; lia).
    change (Z.to_nat 2) with 2%nat. cbn [firstn skipn nth].
    change (negb (2 =? 2)) with false. cbv iota. rewrite H16.
    rewrite Hpay. reflexivity.
  - pose proof (decode_length_64 n ltac:(lia)) as H64.
    pose proof (length_big_endian 8 n) as Hl8.
    assert (Hb1 : Z.land (mask_bit + 127) 0x7F = 127)
      by (destruct Hmb as [-> | ->]; reflexivity).
    rewrite Hb1.
    change (127 =? 126) with false. change (127 =? 127) with true.
    cbv iota.
    destruct (Wire.big_endian 8 n)
      as [|e0 [|e1 [|e2 [|e3 [|e4 [|e5 [|e6 [|e7 [|e8 ext]]]]]]]]];
      try discriminate Hl8.
    cbn [app requeue].
    rewrite recv_piece by (cbn [length]; lia).
    change (Z.to_nat 8) with 8%nat. cbn [firstn skipn].
    change (negb (8 =? 8)) with false. cbv iota. rewrite H64.
    rewrite Hpay. reflexivity.
Qed.


End Reassembly.

Section CodecMore.
Import SignalingClient.

(** X5.  [ReadFrame] loops over partial reads: when the header and the
    length field of an unmasked frame come with the first piece and the
    payload is cut anywhere into further pieces, the payload is
    returned whole, and what the peer sent after the frame is left in
    the stream for the next call. *)
Theorem ReadFrame_reassembles
        (c : t) (data : string) (p0 : list Z) (ps more : list (list Z))
        (d : Z) (o : list (list Z)) (w : bool)
        (Hsplit : bytes_of_string data = p0 ++ concat ps)
        (Hpieces : Forall (fun piece => piece <> []) ps)
        (Hfits : Z.of_nat (String.length data) <= INT_MAX)
        (Hsocket :
           m_socket c
           = Some (mkSocket
                     (([0x81]
                         ++ Wire.length_field
                              0 (Z.of_nat (String.length data))
                         ++ p0) :: ps ++ more)
                     d o w)) :
  ReadFrame c = (data, with_socket c (Some (mkSocket more d o w))).
Proof.
  rewrite <- (string_of_bytes_of_string data). rewrite Hsplit.
  assert (Hlen : String.length data = length (p0 ++ concat ps))
    by (rewrite <- Hsplit; symmetry; apply length_bytes_of_string).
  rewrite Hlen in *.
  apply (ReadFrame_pieces c 0 p0 ps more d o w); auto.
Qed.

Lemma ReadFrame_reassembles_witness :
  ReadFrame (Scenario.receiving
               [[0x81; 5; 104; 101]; [108]; [108; 111]; [0x81; 0]])
  = ("hello"%string,
     with_socket (Scenario.receiving [])
                 (Some (mkSocket [[0x81; 0]] 0 [] true))).
Proof.
  apply (ReadFrame_reassembles
           (Scenario.receiving
              [[0x81; 5; 104; 101]; [108]; [108; 111]; [0x81; 0]])
           "hello" [104; 101] [[108]; [108; 111]] [[0x81; 0]] 0 [] true).
  - reflexivity.
  - repeat constructor; discriminate.
  - vm_compute. discriminate.
  - reflexivity.
Defined.

(** X6.  [ReadFrame] looks at nothing of the header but the low seven
    bits of its second octet: the FIN bit, the opcode and the mask bit
    do not change what it returns.  A control frame (close, ping) or a
    masked frame is returned like a text frame with the same length
    field. *)
Theorem ReadFrame_ignores_opcode_and_mask_bit
        (c c' : t) (b0 b1 b0' b1' : Z) (tail : list Z)
        (rest : list (list Z)) (d : Z) (o : list (list Z)) (w : bool)
        (Hlength : Z.land b1 0x7F = Z.land b1' 0x7F)
        (Hsocket :
           m_socket c = Some (mkSocket ((b0 :: b1 :: tail) :: rest) d o w))
        (Hsocket' :
           m_socket c'
           = Some (mkSocket ((b0' :: b1' :: tail) :: rest) d o w)) :
  fst (ReadFrame c) = fst (ReadFrame c')
  /\ m_socket (snd (ReadFrame c)) = m_socket (snd (ReadFrame c')).
Proof.
  rewrite (ReadFrame_first_piece _ _ _ _ _ _ _ _ Hsocket).
  rewrite (ReadFrame_first_piece _ _ _ _ _ _ _ _ Hsocket').
  assert (E : read_length (Some (mkSocket (requeue tail rest) d o w))
                          [b0; b1]
              = read_length (Some (mkSocket (requeue tail rest) d o w))
                            [b0'; b1']).
  { unfold read_length. cbn [nth]. rewrite Hlength. reflexivity. }
  rewrite E.
  destruct (read_length _ [b0'; b1']) as [[n|] s2]; [|split; reflexivity].
  destruct (read_payload _ _ _ _ _) as [payload s3]. split; reflexivity.
Qed.

Lemma ReadFrame_ignores_opcode_and_mask_bit_witness :
  fst (ReadFrame (Scenario.receiving [[0x88; 0x82; 3; 232]]))
  = fst (ReadFrame (Scenario.receiving [[0x81; 0x02; 3; 232]])).
Proof.
  apply (ReadFrame_ignores_opcode_and_mask_bit
           (Scenario.receiving [[0x88; 0x82; 3; 232]])
           (Scenario.receiving [[0x81; 0x02; 3; 232]])
           0x88 0x82 0x81 0x02 [3; 232] [] 0 [] true);
    reflexivity.
Defined.

Lemma unmask_octet (ch : ascii) (k : Z) :
  In k mask -> Z.lxor (u8 (chr (Z.lxor (u8 ch) k))) k = u8 ch.
Proof.
  intros Hk. simpl in Hk.
  destruct ch as [[] [] [] [] [] [] [] []];
    (destruct Hk as [<-|[<-|[<-|[<-|[]]]]]; vm_compute; reflexivity).
Qed.

Lemma unmask_from (chars : list ascii) : forall i : nat,
  Wire.masked_from i mask (map chr (Wire.masked_from i mask chars))
  = map u8 chars.
Proof.
  induction chars as [|ch chars IH]; intros i;
    cbn [Wire.masked_from map]; [reflexivity|].
  rewrite IH. f_equal. apply unmask_octet, nth_In.
  apply Nat.mod_upper_bound. discriminate.
Qed.

(** X7.  The last octets of the frame [WriteFrame] builds, as many as
    the payload has, are the payload masked; masking them once more
    with the same key gives the payload back, octet for octet. *)
Theorem masking_twice_gives_the_payload (data : string) :
  let frame := build_frame data in
  let body := skipn (length frame - String.length data) frame in
  body = Wire.masked mask data
  /\ Wire.masked mask (string_of_bytes body) = bytes_of_string data
  /\ string_of_bytes (Wire.masked mask (string_of_bytes body)) = data.
Proof.
  intros frame body.
  assert (Hbody : body = Wire.masked mask data).
  { subst body frame. rewrite build_frame_eq. unfold Wire.client_frame.
    rewrite !app_assoc, skipn_app, length_app, length_masked.
    rewrite skipn_all2 by lia.
    replace (_ - _)%nat with 0%nat by lia. reflexivity. }
  assert (Hun : Wire.masked mask (string_of_bytes body)
                = bytes_of_string data).
  { rewrite Hbody. unfold Wire.masked at 1, string_of_bytes.
    rewrite list_ascii_of_string_of_list_ascii. apply unmask_from. }
  split; [exact Hbody|]. split; [exact Hun|].
  rewrite Hun. apply string_of_bytes_of_string.
Qed.

Lemma list_ind3 (P : list Z -> Prop) :
  P [] -> (forall a, P [a]) -> (forall a b, P [a; b]) ->
  (forall a b c l, P l -> P (a :: b :: c :: l)) ->
  forall l, P l.
Proof.
  intros H0 H1 H2 H3 l.
  assert (H : forall n l, (length l <= n)%nat -> P l).
  { clear l. induction n as [|n IH]; intros l Hl.
    - destruct l; [exact H0|simpl in Hl; lia].
    - destruct l as [|a [|b [|c l]]]; auto.
      apply H3, IH. simpl in Hl. lia. }
  apply (H (length l)). lia.
Qed.

Lemma base64_char_alphabet (x : Z) :
  In (base64_char (Z.land x 0x3F)) (list_ascii_of_string base64_chars).
Proof.
  change 0x3F with (Z.ones 6). rewrite Z.land_ones by lia.
  pose proof (Z.mod_pos_bound x (2 ^ 6) ltac:(lia)) as Hx.
  assert (Hall : forallb
                   (fun i => existsb (Ascii.eqb (base64_char i))
                                     (list_ascii_of_string base64_chars))
                   (map Z.of_nat (seq 0 64)) = true)
    by (vm_compute; reflexivity).
  rewrite forallb_forall in Hall.
  specialize (Hall (x mod 2 ^ 6)).
  rewrite existsb_exists in Hall.
  destruct Hall as (ch & Hin & Heq).
  - rewrite <- (Z2Nat.id (x mod 2 ^ 6)) by lia.
    apply in_map, in_seq. change (2 ^ 6) with 64 in *. lia.
  - apply Ascii.eqb_eq in Heq. now rewrite Heq.
Qed.

(** X8.  The encoding of the handshake key: for every octet sequence
    the result has four characters for every three octets, rounded up,
    and each character is of the base64 alphabet or the padding sign.
    For the sixteen octets of the key, whatever the random generator
    gives, the encoded key has 24 characters: 22 of the alphabet
    followed by two padding signs. *)
Theorem base64_key_shape :
  (forall key,
      String.length (base64 key) = (4 * ((length key + 2) / 3))%nat
      /\ Forall (fun ch =>
                   ch = "="%char
                   \/ In ch (list_ascii_of_string base64_chars))
                (list_ascii_of_string (base64 key)))
  /\ forall net,
       exists body,
         base64 (map u8 (websocket_key net)) = (body ++ "==")%string
         /\ String.length body = 22%nat
         /\ Forall (fun ch => In ch (list_ascii_of_string base64_chars))
                   (list_ascii_of_string body).
Proof.
  split.
  - intros key. induction key as [|a|a b|a b c key [IHl IHa]] using list_ind3.
    + split; [reflexivity|constructor].
    + split; [reflexivity|].
      cbn [base64 list_ascii_of_string].
      do 2 (constructor; [right; apply base64_char_alphabet|]).
      do 2 (constructor; [left; reflexivity|]). constructor.
    + split; [reflexivity|].
      cbn [base64 list_ascii_of_string].
      do 3 (constructor; [right; apply base64_char_alphabet|]).
      constructor; [left; reflexivity|]. constructor.
    + split.
      * cbn [base64 String.length length]. rewrite IHl.
        replace (S (S (S (length key))) + 2)%nat
          with (length key + 2 + 1 * 3)%nat by lia.
        rewrite Nat.div_add by discriminate. lia.
      * cbn [base64 list_ascii_of_string].
        do 4 (constructor; [right; apply base64_char_alphabet|]).
        exact IHa.
  - intros net. unfold websocket_key.
    cbn [seq map base64].
    eexists (String _ (String _ (String _ (String _ (String _ (String _
            (String _ (String _ (String _ (String _ (String _ (String _
            (String _ (String _ (String _ (String _ (String _ (String _
            (String _ (String _ (String _ (String _ EmptyString)))))))))))
            ))))))))))).
    split; [reflexivity|]. split; [reflexivity|].
    cbn [list_ascii_of_string].
    do 22 (constructor; [apply base64_char_alphabet|]). constructor.
Qed.

End CodecMore.

(** ** The receive loop and the end of a session *)

Section SessionMore.
Import SignalingClient.

Lemma read_length_keeps_socket (s : SOCKET) (header : list Z) :
  s <> None -> snd (read_length s header) <> None.
Proof.
  intros Hs. unfold read_length.
  destruct (Z.land (nth 1 header 0) 0x7F =? 126).
  - pose proof (recv_keeps_socket s 2 Hs) as H.
    destruct (recv s 2) as [[received len16] s']. cbn [snd] in H.
    destruct (negb (received =? 2)); exact H.
  - destruct (Z.land (nth 1 header 0) 0x7F =? 127); [|exact Hs].
    pose proof (recv_keeps_socket s 8 Hs) as H.
    destruct (recv s 8) as [[received len64] s']. cbn [snd] in H.
    destruct (negb (received =? 8)); exact H.
Qed.

Lemma read_payload_keeps_socket (fuel : nat) :
  forall (s : SOCKET) (payloadLen totalReceived : Z) (payload : list Z),
    s <> None ->
    snd (read_payload fuel s payloadLen totalReceived payload) <> None.
Proof.
  induction fuel as [|fuel IH]; intros s n total payload Hs;
    cbn [read_payload]; [exact Hs|].
  destruct (total <? n); [|exact Hs].
  pose proof (recv_keeps_socket s (to_int (n - total)) Hs) as H.
  destruct (recv s (to_int (n - total))) as [[received got] s'].
  cbn [snd] in H.
  destruct (received <=? 0); [exact H|]. apply IH. exact H.
Qed.

(** [ReadFrame] changes nothing of the client but the state of its
    socket, which stays open. *)
Lemma ReadFrame_socket_only (c : t) :
  exists s',
    snd (ReadFrame c) = with_socket c s'
    /\ (m_socket c <> None -> s' <> None).
Proof.
  unfold ReadFrame.
  pose proof (recv_keeps_socket (m_socket c) 2) as H1.
  destruct (recv (m_socket c) 2) as [[received header] s1].
  cbn [snd] in H1.
  destruct (negb (received =? 2)); [exists s1; auto|].
  pose proof (read_length_keeps_socket s1 header) as H2.
  destruct (read_length s1 header) as [[n|] s2]; cbn [snd] in H2;
    [|exists s2; auto].
  pose proof (read_payload_keeps_socket (Z.to_nat n) s2 n 0
                (repeat 0 (Z.to_nat n))) as H3.
  destruct (read_payload _ _ _ _ _) as [payload s3]. cbn [snd] in H3.
  exists s3. auto.
Qed.

Lemma with_socket_same (c : t) : with_socket c (m_socket c) = c.
Proof. destruct c. reflexivity. Qed.

(** A receive loop that returns has handed nothing to [OnMessage]: it
    has changed the state of the socket and nothing else. *)
Lemma RunLoop_socket_only (fuel : nat) : forall c c' : t,
  RunLoop fuel c = Some c' ->
  exists s',
    c' = with_socket c s' /\ (m_socket c <> None -> s' <> None).
Proof.
  assert (Hsame : forall c c' : t,
             Some c = Some c' ->
             exists s',
               c' = with_socket c s' /\ (m_socket c <> None -> s' <> None)).
  { intros c c' H. injection H as <-. exists (m_socket c).
    split; [symmetry; apply with_socket_same|auto]. }
  induction fuel as [|fuel IH]; intros c c' H; cbn [RunLoop] in H;
    [now apply Hsame|].
  destruct (m_running c && _); [|now apply Hsame].
  destruct (ReadFrame_throws c); [discriminate H|].
  destruct (ReadFrame_socket_only c) as (s1 & E1 & H1).
  destruct (ReadFrame c) as [message c1]. cbn [snd] in E1. subst c1.
  destruct message as [|a message].
  - destruct (IH _ _ H) as (s' & -> & Hs'). exists s'.
    split; [reflexivity|]. intros Hc. apply Hs'. cbn. now apply H1.
  - rewrite OnMessage_throws in H. discriminate H.
Qed.

(** X9.  When the receive loop returns, it has changed nothing of the
    client but the state of its socket: it never clears [m_running],
    never closes or gives up the socket, never changes the connection
    state, and it has called no handler.  So on a running client with
    an open socket the condition of the loop still holds after any
    number of turns that end without an exception, whatever the peer
    does, end of stream and read errors included: only another thread
    or an exception ends the loop. *)
Theorem RunLoop_changes_only_the_socket (fuel : nat) (c c' : t)
        (Hreturns : RunLoop fuel c = Some c') :
  c' = with_socket c (m_socket c')
  /\ (m_socket c <> None -> m_socket c' <> None)
  /\ (m_running c = true -> m_socket c <> None ->
      m_running c'
      && (match m_socket c' with
          | Some _ => true
          | None => false
          end) = true).
Proof.
  destruct (RunLoop_socket_only fuel c c' Hreturns) as (s' & -> & Hs).
  cbn [with_socket m_socket m_running].
  split; [reflexivity|]. split; [exact Hs|].
  intros Hr Hc. rewrite Hr. specialize (Hs Hc).
  destruct s'; [reflexivity|congruence].
Qed.

Lemma RunLoop_changes_only_the_socket_witness :
  m_socket (with_running (Scenario.receiving []) true) <> None.
Proof.
  apply (RunLoop_changes_only_the_socket
           5
           (with_running
              (Scenario.receiving [Wire.server_frame EmptyString]) true)
           (with_running (Scenario.receiving []) true)).
  - vm_compute. reflexivity.
  - discriminate.
Defined.






Lemma Send_without_socket (c : t) (message : string) :
  m_socket c = None -> Send c message = (false, c).
Proof.
  intros Hs. unfold Send, WriteFrame, send. rewrite Hs. cbn.
  rewrite <- Hs. now rewrite with_socket_same.
Qed.

Lemma RunLoop_stopped (fuel : nat) (c : t) :
  m_running c = false \/ m_socket c = None -> RunLoop fuel c = Some c.
Proof.
  intros H. destruct fuel as [|fuel]; [reflexivity|]. cbn [RunLoop].
  destruct H as [-> | ->]; [reflexivity|].
  now rewrite andb_false_r.
Qed.

(** X11.  [Disconnect] ends the session from any state: the client
    holds no socket, is not running and is [Disconnected]; the socket
    it held, if any, has been closed, once; after it the receive loop
    stops at its first test and every [Send] fails without sending.
    A second [Disconnect] closes nothing more. *)
Theorem Disconnect_ends_the_session (c : t) :
  let c' := Disconnect c in
  m_socket c' = None
  /\ m_running c' = false
  /\ m_state c' = Disconnected
  /\ closed (observed c')
     = closed (observed c)
         ++ (match m_socket c with Some sk => [sk] | None => [] end)
  /\ states_entered (observed c')
     = states_entered (observed c) ++ [Disconnected]
  /\ (forall fuel, RunLoop fuel c' = Some c')
  /\ (forall message, Send c' message = (false, c'))
  /\ closed (observed (Disconnect c')) = closed (observed c').
Proof.
  intros c'.
  assert (Hs : m_socket c' = None)
    by (subst c'; destruct c as [[sk|] [|] ? ? ? ? ? ? ?]; reflexivity).
  assert (Hr : m_running c' = false)
    by (subst c'; destruct c as [[sk|] [|] ? ? ? ? ? ? ?]; reflexivity).
  split; [exact Hs|]. split; [exact Hr|].
  split; [reflexivity|].
  split.
  { subst c'. destruct c as [[sk|] [|] ? ? ? ? ? ? ?]; cbn;
      rewrite ?app_nil_r; reflexivity. }
  split.
  { subst c'. destruct c as [[sk|] [|] ? ? ? ? ? ? ?]; reflexivity. }
  split; [intros fuel; apply RunLoop_stopped; auto|].
  split; [intros message; apply Send_without_socket; exact Hs|].
  clearbody c'. unfold Disconnect. cbn [with_running m_socket].
  rewrite Hs.
  change (m_thread (with_running c' false)) with (m_thread c').
  destruct (m_thread c'); reflexivity.
Qed.

Lemma Connect_success (net : Network) (c c1 : t) (url room : string) :
  Connect net c url room = Some (true, c1) ->
  exists sk,
    m_socket c1 = Some sk
    /\ m_running c1 = true
    /\ m_state c1 = Connected
    /\ closed (observed c1) = closed (observed c)
    /\ states_entered (observed c1)
       = states_entered (observed c) ++ [Connected].
Proof.
  unfold Connect.
  destruct (ParseUrl url room) as [[[host port] path]|]; [|discriminate].
  unfold ConnectSocket.
  destruct (resolves net host port); cbn [negb]; [|discriminate].
  destruct (socket_created net); cbn [negb]; [|discriminate].
  destruct (connects net); cbn [negb]; [|discriminate].
  match goal with
  | |- context [PerformHandshake net ?c0 path] =>
      destruct (PerformHandshake_socket_only net c0 path)
        as (s' & Hsnd & Hvalid);
      destruct (PerformHandshake net c0 path) as [upgraded c2]
  end.
  simpl in Hsnd. subst c2.
  assert (Hs' : s' <> None) by (apply Hvalid; discriminate).
  destruct s' as [sk'|]; [|congruence].
  destruct upgraded; cbn [negb]; [|discriminate].
  unfold start_thread. cbn [with_running SetState with_socket m_thread].
  destruct (m_thread c); [discriminate|].
  intros H. injection H as <-. exists sk'. cbn. auto.
Qed.

(** X12.  A session from [Connect] to [Disconnect]: when [Connect]
    succeeds, the following [Disconnect] closes the socket that
    [Connect] opened, and no other; the client has gone through
    [Connected] and [Disconnected], in that order, and is left without
    socket and not running. *)
Theorem Connect_then_Disconnect_closes_the_socket
        (net : Network) (c c1 : t) (url room : string)
        (Hconnected : Connect net c url room = Some (true, c1)) :
  exists sk,
    m_socket c1 = Some sk
    /\ closed (observed (Disconnect c1)) = closed (observed c) ++ [sk]
    /\ states_entered (observed (Disconnect c1))
       = states_entered (observed c) ++ [Connected; Disconnected]
    /\ m_socket (Disconnect c1) = None
    /\ m_running (Disconnect c1) = false
    /\ m_state (Disconnect c1) = Disconnected.
Proof.
  destruct (Connect_success net c c1 url room Hconnected)
    as (sk & Hs & Hr & Hst & Hcl & Hse).
  exists sk. split; [exact Hs|].
  unfold Disconnect. cbn [with_running m_socket]. rewrite Hs.
  destruct (m_thread (close (with_running c1 false))); cbn;
    rewrite Hs, Hcl, Hse, <- app_assoc; auto.
Qed.

Lemma Connect_then_Disconnect_closes_the_socket_witness :
  exists c1 sk,
    Connect (Scenario.mock (bytes_of_string Scenario.switching_protocols))
            create "ws://host:1234/ws" "roomA"
    = Some (true, c1)
    /\ closed (observed (Disconnect c1)) = [sk]
    /\ states_entered (observed (Disconnect c1))
       = [Connected; Disconnected].
Proof.
  destruct (Connect (Scenario.mock
                       (bytes_of_string Scenario.switching_protocols))
                    create "ws://host:1234/ws" "roomA")
    as [[[|] c1]|] eqn:E; try (vm_compute in E; discriminate E).
  destruct (Connect_then_Disconnect_closes_the_socket _ _ _ _ _ E)
    as (sk & _ & Hcl & Hst & _).
  exists c1, sk. split; [reflexivity|]. split; [exact Hcl|exact Hst].
Defined.

End SessionMore.

(** ** The control messages: what is sent, and what the handler does *)

Section MessagesMore.
Import SignalingClient.

Lemma length_answer_json (sdp : string) :
  String.length (answer_json sdp) = (26 + String.length sdp)%nat.
Proof.
  unfold answer_json. cbn [append String.length].
  rewrite length_append. cbn [String.length]. lia.
Qed.

Lemma Send_one_frame (c : t) (sk : Socket) (message : string) :
  m_socket c = Some sk -> writable sk = true ->
  Z.of_nat (String.length message) + 14 <= INT_MAX ->
  Send c message
  = (true,
     with_socket c
       (Some (mkSocket (inbound sk) (drained sk)
                       (outbound sk ++ [Wire.client_frame mask message])
                       true))).
Proof.
  intros Hs Hw Hfits. unfold Send.
  rewrite (WriteFrame_sends c sk _ Hs Hw).
  - now rewrite build_frame_eq, Hw.
  - pose proof (length_build_frame message) as H. lia.
Qed.

(** X13.  What the handler of the application does with a message
    whose type is neither offer nor ice-candidate: for peer-joined and
    peer-left it updates the tray status, once; for any other type,
    the empty one included, it does nothing.  The payload is not
    looked at, and the handler returns. *)
Theorem OnSignalingMessage_other_types
        (CreateAnswer : string -> string) (app : Application.t)
        (type payload : string)
        (Hoffer : type <> "offer"%string)
        (Hcandidate : type <> "ice-candidate"%string) :
  Application.OnSignalingMessage CreateAnswer app type payload
  = Some (if String.eqb type "peer-joined" || String.eqb type "peer-left"
          then Application.UpdateTrayStatus app
          else app).
Proof.
  unfold Application.OnSignalingMessage.
  destruct (String.eqb_spec type "offer") as [E|_]; [contradiction|].
  destruct (String.eqb_spec type "ice-candidate") as [E|_];
    [contradiction|].
  destruct (String.eqb type "peer-joined"); [reflexivity|].
  destruct (String.eqb type "peer-left"); reflexivity.
Qed.

Lemma OnSignalingMessage_other_types_witness :
  Application.OnSignalingMessage
    (fun sdp => sdp) (Application.mk create [] 0) "peer-left" "{}"
  = Some (Application.mk create [] 1).
Proof.
  apply (OnSignalingMessage_other_types
           (fun sdp => sdp) (Application.mk create [] 0) "peer-left" "{}");
    discriminate.
Defined.

(** X14.  [SendAnswer] on a connected, writable socket puts one masked
    text frame on the wire, whose payload is the text [answer_json]
    makes of the SDP, and changes nothing else of the client.  On a
    client without socket it sends nothing and leaves the client as it
    is; the caller is not told. *)
Theorem SendAnswer_sends_one_frame
        (c : t) (sk : Socket) (sdp : string)
        (Hsocket : m_socket c = Some sk)
        (Hwritable : writable sk = true)
        (Hfits : Z.of_nat (String.length sdp) + 40 <= INT_MAX) :
  SendAnswer c sdp
  = with_socket c
      (Some (mkSocket (inbound sk) (drained sk)
                      (outbound sk
                         ++ [Wire.client_frame mask (answer_json sdp)])
                      true))
  /\ SendAnswer (with_socket c None) sdp = with_socket c None.
Proof.
  unfold SendAnswer. split.
  - rewrite (Send_one_frame c sk _ Hsocket Hwritable); [reflexivity|].
    rewrite length_answer_json. lia.
  - now rewrite Send_without_socket.
Qed.

Lemma SendAnswer_sends_one_frame_witness :
  Scenario.on_the_wire (SendAnswer (Scenario.receiving []) "v=0")
  = [Wire.client_frame mask (answer_json "v=0")].
Proof.
  unfold Scenario.on_the_wire.
  rewrite (proj1 (SendAnswer_sends_one_frame
                    (Scenario.receiving []) (mkSocket [] 0 [] true) "v=0"
                    eq_refl eq_refl ltac:(vm_compute; discriminate))).
  reflexivity.
Defined.

(** X15.  The handler of the application answers no offer and takes no
    ICE candidate.  The patterns for the fields sdp, sdpMid and
    candidate, as their raw string literals delimit them, each open
    group 1 and do not close it, and the constructor of [std::regex]
    refuses them; so for the types offer and ice-candidate the handler
    leaves by [std::regex_error] before it looks at the payload:
    [CreateAnswer], [SendAnswer] and [AddIceCandidate] are not
    reached. *)
Theorem offer_is_not_answered
        (CreateAnswer : string -> string) (app : Application.t)
        (payload : string) :
  Regex.compile Application.sdp_pattern = Regex.error_paren
  /\ Regex.compile Application.mid_pattern = Regex.error_paren
  /\ Regex.compile Application.candidate_pattern = Regex.error_paren
  /\ Application.OnSignalingMessage CreateAnswer app "offer" payload = None
  /\ Application.OnSignalingMessage CreateAnswer app "ice-candidate" payload
     = None.
Proof.
  split; [vm_compute; reflexivity|].
  split; [vm_compute; reflexivity|].
  split; [vm_compute; reflexivity|].
  split; reflexivity.
Qed.

(** X24.  [SendIceCandidate] on a connected, writable socket puts one
    masked text frame on the wire, whose payload is the text
    [candidate_json] makes of the three values, and changes nothing
    else of the client.  On a client without socket it sends nothing
    and leaves the client as it is. *)
Theorem SendIceCandidate_sends_one_frame
        (c : t) (sk : Socket) (sdpMid candidate : string) (index : Z)
        (Hsocket : m_socket c = Some sk)
        (Hwritable : writable sk = true)
        (Hfits :
           Z.of_nat (String.length (candidate_json sdpMid index candidate))
           + 14 <= INT_MAX) :
  SendIceCandidate c sdpMid index candidate
  = with_socket c
      (Some (mkSocket (inbound sk) (drained sk)
                      (outbound sk
                         ++ [Wire.client_frame
                               mask (candidate_json sdpMid index candidate)])
                      true))
  /\ SendIceCandidate (with_socket c None) sdpMid index candidate
     = with_socket c None.
Proof.
  unfold SendIceCandidate. split.
  - now rewrite (Send_one_frame c sk _ Hsocket Hwritable Hfits).
  - now rewrite Send_without_socket.
Qed.

Lemma SendIceCandidate_sends_one_frame_witness :
  Scenario.on_the_wire
    (SendIceCandidate (Scenario.receiving []) "0" 0 "candidate:1")
  = [Wire.client_frame mask (candidate_json "0" 0 "candidate:1")].
Proof.
  unfold Scenario.on_the_wire.
  rewrite (proj1 (SendIceCandidate_sends_one_frame
                    (Scenario.receiving []) (mkSocket [] 0 [] true)
                    "0" "candidate:1" 0
                    eq_refl eq_refl ltac:(vm_compute; discriminate))).
  reflexivity.
Defined.

End MessagesMore.

(** ** Connect: the address *)

Section UrlMore.
Import SignalingClient.

Lemma append_empty (s : string) : (s ++ EmptyString)%string = s.
Proof. induction s; simpl; congruence. Qed.

Lemma every_cons (p : ascii -> bool) (c : ascii) (s : string) :
  every p (String c s) = p c && every p s.
Proof. reflexivity. Qed.

(** The greedy iteration over a run [w] of characters that satisfy [p]
    takes all of [w] when the input after it does not go on with such
    a character and the rest of the pattern matches there. *)
Lemma iterate_every (R : Type) (p : ascii -> bool)
      (body : string -> Regex.captures -> Regex.cont R -> option R)
      (k : Regex.cont R) (x : R) (s : string) :
  (forall s caps k, body s caps k = Regex.one p s caps k) ->
  first_is p s = false ->
  forall (w : string) (fuel : nat) (caps : Regex.captures),
    every p w = true ->
    (String.length w < fuel)%nat ->
    k s caps = Some x ->
    Regex.iterate body [] k fuel (w ++ s) caps = Some x.
Proof.
  intros Hbody Hstop.
  induction w as [|c w IH]; intros fuel caps Hw Hfuel Hk.
  - destruct fuel as [|fuel]; [exact Hk|].
    cbn [append Regex.iterate]. rewrite Hbody. unfold Regex.one.
    destruct s as [|c s]; [exact Hk|].
    cbn [first_is] in Hstop. rewrite Hstop. exact Hk.
  - destruct fuel as [|fuel]; [simpl in Hfuel; lia|].
    rewrite every_cons in Hw. apply andb_true_iff in Hw as [Hc Hw].
    cbn [append Regex.iterate]. rewrite Hbody. cbn [Regex.one]. rewrite Hc.
    rewrite progress_tail, reset_nothing.
    rewrite IH; auto. simpl in Hfuel. lia.
Qed.

Lemma run_quest_take (R : Type) (r : Regex.t) (s : string)
      (caps : Regex.captures) (k : Regex.cont R) (x : R) :
  Regex.run r s (Regex.reset (Regex.groups r) caps) (Regex.progress s k)
  = Some x ->
  Regex.run (Regex.Quest r) s caps k = Some x.
Proof. intros H. cbn [Regex.run]. now rewrite H. Qed.

Lemma run_quest_skip (R : Type) (r : Regex.t) (s : string)
      (caps : Regex.captures) (k : Regex.cont R) :
  Regex.run r s (Regex.reset (Regex.groups r) caps) (Regex.progress s k)
  = None ->
  Regex.run (Regex.Quest r) s caps k = k s caps.
Proof. intros H. cbn [Regex.run]. now rewrite H. Qed.

Lemma progress_append (R : Type) (w s : string) (k : Regex.cont R)
      (caps : Regex.captures) :
  w <> EmptyString ->
  Regex.progress (w ++ s) k s caps = k s caps.
Proof.
  intros Hw. unfold Regex.progress. rewrite length_append.
  destruct w as [|c w]; [congruence|]. cbn [String.length].
  destruct (Nat.ltb_spec (String.length s)
                         (S (String.length w) + String.length s));
    [reflexivity|lia].
Qed.

Lemma run_plus_every (R : Type) (r : Regex.t) (p : ascii -> bool)
      (k : Regex.cont R) (x : R) (w s : string) (caps : Regex.captures) :
  (forall s caps (k : Regex.cont R),
      Regex.run r s caps k = Regex.one p s caps k) ->
  Regex.groups r = [] ->
  w <> EmptyString -> every p w = true -> first_is p s = false ->
  k s caps = Some x ->
  Regex.run (Regex.Plus r) (w ++ s) caps k = Some x.
Proof.
  intros Hr Hg Hne Hw Hstop Hk.
  destruct w as [|c w]; [congruence|].
  rewrite every_cons in Hw. apply andb_true_iff in Hw as [Hc Hw].
  cbn [Regex.run append]. rewrite Hr, Hg, reset_nothing.
  cbn [Regex.one]. rewrite Hc.
  apply (iterate_every R p (Regex.run r) k x s Hr Hstop); auto.
  rewrite length_append. lia.
Qed.

Lemma run_star_every (R : Type) (r : Regex.t) (p : ascii -> bool)
      (k : Regex.cont R) (x : R) (w s : string) (caps : Regex.captures) :
  (forall s caps (k : Regex.cont R),
      Regex.run r s caps k = Regex.one p s caps k) ->
  Regex.groups r = [] ->
  every p w = true -> first_is p s = false ->
  k s caps = Some x ->
  Regex.run (Regex.Star r) (w ++ s) caps k = Some x.
Proof.
  intros Hr Hg Hw Hstop Hk.
  cbn [Regex.run]. rewrite Hg.
  apply (iterate_every R p (Regex.run r) k x s Hr Hstop); auto.
  rewrite length_append. lia.
Qed.

(** The dots of group 3 take what is left of the address, [w], when
    it has no line terminator in it; [pre] is what the group has
    matched before them. *)
Lemma run_star_dot_rest (pre w : string) (caps : Regex.captures) :
  every not_line_terminator w = true ->
  (pre ++ w)%string <> EmptyString ->
  Regex.run (Regex.Star Regex.Dot) w caps
    (fun s1 caps1 =>
       Regex.progress
         (pre ++ w)
         (fun s' caps' =>
            match s' with EmptyString => Some caps' | _ => None end)
         s1 ((3%nat, Regex.consumed (pre ++ w) s1) :: caps1))
  = Some ((3%nat, (pre ++ w)%string) :: caps).
Proof.
  intros Hline Hne.
  pose proof (run_star_every
                Regex.captures Regex.Dot not_line_terminator
                (fun s1 caps1 =>
                   Regex.progress
                     (pre ++ w)
                     (fun s' caps' =>
                        match s' with
                        | EmptyString => Some caps'
                        | _ => None
                        end)
                     s1 ((3%nat, Regex.consumed (pre ++ w) s1) :: caps1))
                ((3%nat, (pre ++ w)%string) :: caps)
                w EmptyString caps) as H.
  rewrite append_empty in H.
  apply H; [reflexivity|reflexivity|exact Hline|reflexivity|].
  pose proof (progress_append Regex.captures (pre ++ w) EmptyString) as H1.
  rewrite append_empty in H1. rewrite H1 by exact Hne.
  pose proof (consumed_append (pre ++ w) EmptyString) as H2.
  rewrite append_empty in H2. now rewrite H2.
Qed.

(** The last part of the pattern, the optional group 3, on the rest
    [path] of the address. *)
Lemma run_path (path : string) (caps : Regex.captures) :
  every not_line_terminator path = true ->
  Regex.run
    (Regex.Quest
       (Regex.Group 3 (Regex.Seq (Regex.Quest (Regex.Chr "/"))
                                 (Regex.Star Regex.Dot))))
    path caps
    (fun s' caps' =>
       match s' with EmptyString => Some caps' | _ => None end)
  = Some (match path with
          | EmptyString => caps
          | _ => (3%nat, path) :: Regex.reset [3%nat] caps
          end).
Proof.
  intros Hline.
  destruct path as [|a p].
  - reflexivity.
  - apply run_quest_take. cbn [Regex.groups app].
    rewrite run_group, run_seq.
    destruct (ascii_dec "/" a) as [<-|Hslash].
    + erewrite run_quest_take; [reflexivity|].
      rewrite run_chr_match, progress_tail. cbn [Regex.groups].
      rewrite reset_nothing.
      rewrite every_cons in Hline. apply andb_true_iff in Hline as [_ Hline].
      apply (run_star_dot_rest "/" p); [exact Hline|discriminate].
    + rewrite run_quest_skip
        by (cbn [Regex.groups]; now apply run_chr_mismatch).
      apply (run_star_dot_rest EmptyString (String a p));
        [exact Hline|discriminate].
Qed.

Lemma match_host_port_path (host digits path : string) :
  host <> EmptyString -> every not_separator host = true ->
  digits <> EmptyString -> every Regex.is_digit digits = true ->
  first_is Regex.is_digit path = false ->
  every not_line_terminator path = true ->
  Regex.regex_match ("ws://" ++ host ++ ":" ++ digits ++ path) urlRegex
  = Some (match path with
          | EmptyString => [(2%nat, digits); (1%nat, host)]
          | _ => [(3%nat, path); (2%nat, digits); (1%nat, host)]
          end).
Proof.
  intros Hhost Hhost' Hdigits Hdigits' Hpath Hline.
  unfold Regex.regex_match, urlRegex.
  rewrite run_seq, run_lit_match, run_seq, run_group.
  apply (run_plus_every _ _ not_separator);
    [reflexivity|reflexivity|exact Hhost|exact Hhost'|reflexivity|].
  rewrite consumed_append, run_seq.
  erewrite run_quest_take; [reflexivity|].
  cbn [append]. rewrite run_chr_match, progress_tail.
  cbn [Regex.groups]. rewrite reset_nothing, run_seq.
  erewrite run_quest_take; [reflexivity|].
  rewrite run_group.
  apply (run_plus_every _ _ Regex.is_digit);
    [reflexivity|reflexivity|exact Hdigits|exact Hdigits'|exact Hpath|].
  rewrite progress_append by exact Hdigits.
  rewrite consumed_append.
  rewrite run_path by exact Hline.
  reflexivity.
Qed.

Lemma match_host_path (host path : string) :
  host <> EmptyString -> every not_separator host = true ->
  path = EmptyString \/ first_is (Ascii.eqb "/") path = true ->
  every not_line_terminator path = true ->
  Regex.regex_match ("ws://" ++ host ++ path) urlRegex
  = Some (match path with
          | EmptyString => [(1%nat, host)]
          | _ => [(3%nat, path); (1%nat, host)]
          end).
Proof.
  intros Hhost Hhost' Hpath Hline.
  unfold Regex.regex_match, urlRegex.
  rewrite run_seq, run_lit_match, run_seq, run_group.
  assert (Hsep : first_is not_separator path = false).
  { destruct Hpath as [->|Hpath]; [reflexivity|].
    destruct path as [|a p]; [discriminate|]. cbn [first_is] in *.
    apply Ascii.eqb_eq in Hpath. now subst a. }
  apply (run_plus_every _ _ not_separator);
    [reflexivity|reflexivity|exact Hhost|exact Hhost'|exact Hsep|].
  rewrite consumed_append, run_seq.
  rewrite run_quest_skip.
  2:{ destruct Hpath as [->|Hpath]; [reflexivity|].
      destruct path as [|a p]; [discriminate|]. cbn [first_is] in *.
      apply Ascii.eqb_eq in Hpath. now subst a. }
  rewrite run_seq, run_quest_skip.
  2:{ destruct Hpath as [->|Hpath]; [reflexivity|].
      destruct path as [|a p]; [discriminate|]. cbn [first_is] in *.
      apply Ascii.eqb_eq in Hpath. now subst a. }
  rewrite run_path by exact Hline.
  reflexivity.
Qed.

(** X16.  The address [ws://host:port] followed by [path]: [Connect]
    takes the host and the port from it, and [path] as the path of the
    request when it is not empty, the path [/] otherwise; the query
    with the room is added to it.  The host is any run of characters
    other than the colon and the slash, the port any run of digits, and
    [path] anything on one line that does not start with a digit (it
    need not start with a slash).  A port that does not fit an [int]
    makes [std::stoi] throw. *)
Theorem ParseUrl_host_port_path
        (host digits path room : string)
        (Hhost : host <> EmptyString)
        (Hname : every not_separator host = true)
        (Hport : digits <> EmptyString)
        (Hdigits : every Regex.is_digit digits = true)
        (Hpath : first_is Regex.is_digit path = false)
        (Hline : every not_line_terminator path = true) :
  ParseUrl ("ws://" ++ host ++ ":" ++ digits ++ path) room
  = match stoi digits with
    | Some port =>
        Some (host, port,
              ((if is_empty path then "/" else path)
                 ++ "?room=" ++ room ++ "&role=receiver")%string)
    | None => None
    end.
Proof.
  unfold ParseUrl.
  rewrite (match_host_port_path host digits path) by assumption.
  destruct path as [|a p]; cbn [Regex.sub_match Nat.eqb is_empty];
    destruct (stoi digits); reflexivity.
Qed.

Lemma ParseUrl_host_port_path_witness :
  ParseUrl "ws://192.168.1.20:9000/signal" "cam"
  = Some ("192.168.1.20"%string, 9000,
          "/signal?room=cam&role=receiver"%string).
Proof.
  apply (ParseUrl_host_port_path "192.168.1.20" "9000" "/signal" "cam");
    solve [reflexivity | discriminate].
Defined.

(** X17.  The address [ws://host] followed by [path], which is empty or
    starts with a slash: the port is 8080, and the path of the request
    is [path], or [/] when [path] is empty. *)
Theorem ParseUrl_host_path
        (host path room : string)
        (Hhost : host <> EmptyString)
        (Hname : every not_separator host = true)
        (Hpath : path = EmptyString \/ first_is (Ascii.eqb "/") path = true)
        (Hline : every not_line_terminator path = true) :
  ParseUrl ("ws://" ++ host ++ path) room
  = Some (host, 8080,
          ((if is_empty path then "/" else path)
             ++ "?room=" ++ room ++ "&role=receiver")%string).
Proof.
  unfold ParseUrl.
  rewrite (match_host_path host path) by assumption.
  destruct path as [|a p]; reflexivity.
Qed.

Lemma ParseUrl_host_path_witness :
  ParseUrl "ws://example.org/signal" "cam"
  = Some ("example.org"%string, 8080,
          "/signal?room=cam&role=receiver"%string).
Proof.
  apply (ParseUrl_host_path "example.org" "/signal" "cam");
    solve [reflexivity | discriminate | right; reflexivity].
Defined.


End UrlMore.

(** ** SimpleReceiver: frames from the stream to the buffer *)

Section SimpleReceiverMore.
Import SimpleReceiver.

Lemma VIDEO_WIDTH_nonneg : 0 <= VIDEO_WIDTH.
Proof. discriminate. Qed.

Lemma VIDEO_HEIGHT_nonneg : 0 <= VIDEO_HEIGHT.
Proof. discriminate. Qed.

Lemma assign_next (pre rest : list Z) (old v : Z) :
  assign (pre ++ old :: rest) (Z.of_nat (length pre)) v
  = Some (pre ++ v :: rest).
Proof.
  unfold assign. rewrite length_app. cbn [length].
  destruct (Z.leb_spec 0 (Z.of_nat (length pre))); [|lia].
  destruct (Z.ltb_spec (Z.of_nat (length pre))
                       (Z.of_nat (length pre + S (length rest)))); [|lia].
  cbn [andb]. rewrite Nat2Z.id.
  rewrite firstn_app, firstn_all, Nat.sub_diag, firstn_O, app_nil_r.
  change (S (length pre)) with (1 + length pre)%nat.
  rewrite <- skipn_skipn, skipn_app, skipn_all, Nat.sub_diag.
  reflexivity.
Qed.

(** The four octets the code stores for the pixel ([x], [y]). *)
Lemma set_pixel_next (jpeg_size y x : Z) (pre rest : list Z)
      (b0 b1 b2 b3 : Z) :
  Z.of_nat (length pre) = (y * VIDEO_WIDTH + x) * 4 ->
  set_pixel jpeg_size y (Some (pre ++ b0 :: b1 :: b2 :: b3 :: rest)) x
  = Some (pre
            ++ [to_uchar (Z.land (Z.shiftr jpeg_size 8) 0xFF);
                to_uchar (Z.rem y 256); to_uchar (Z.rem x 256); 255]
            ++ rest).
Proof.
  intros Hlen. unfold set_pixel. rewrite <- Hlen.
  rewrite Z.add_0_r, assign_next.
  set (v0 := to_uchar (Z.land (Z.shiftr jpeg_size 8) 255)).
  set (v1 := to_uchar (Z.rem y 256)).
  set (v2 := to_uchar (Z.rem x 256)).
  change (pre ++ v0 :: b1 :: b2 :: b3 :: rest)
    with (pre ++ [v0] ++ b1 :: b2 :: b3 :: rest).
  rewrite app_assoc.
  replace (Z.of_nat (length pre) + 1)
    with (Z.of_nat (length (pre ++ [v0])))
    by (rewrite length_app; cbn [length]; lia).
  rewrite assign_next.
  change ((pre ++ [v0]) ++ v1 :: b2 :: b3 :: rest)
    with ((pre ++ [v0]) ++ [v1] ++ b2 :: b3 :: rest).
  rewrite app_assoc.
  replace (Z.of_nat (length pre) + 2)
    with (Z.of_nat (length ((pre ++ [v0]) ++ [v1])))
    by (rewrite !length_app; cbn [length]; lia).
  rewrite assign_next.
  change (((pre ++ [v0]) ++ [v1]) ++ v2 :: b3 :: rest)
    with (((pre ++ [v0]) ++ [v1]) ++ [v2] ++ b3 :: rest).
  rewrite app_assoc.
  replace (Z.of_nat (length pre) + 3)
    with (Z.of_nat (length (((pre ++ [v0]) ++ [v1]) ++ [v2])))
    by (rewrite !length_app; cbn [length]; lia).
  rewrite assign_next.
  rewrite <- !app_assoc. reflexivity.
Qed.

Lemma length_pixels (f : Z -> list Z) (l : list Z) :
  (forall x, length (f x) = 4%nat) ->
  length (flat_map f l) = (4 * length l)%nat.
Proof.
  intros Hf. induction l as [|x l IH]; [reflexivity|].
  cbn [flat_map]. rewrite length_app, Hf, IH. cbn [length]. lia.
Qed.

Lemma flat_map_same (A B : Type) (f g : A -> list B) (l : list A) :
  (forall x, In x l -> f x = g x) -> flat_map f l = flat_map g l.
Proof.
  induction l as [|x l IH]; intros H; [reflexivity|].
  cbn [flat_map]. rewrite (H x) by (left; reflexivity).
  rewrite IH; [reflexivity|]. intros y Hy. apply H. right. exact Hy.
Qed.

Lemma in_range (n x : Z) : In x (range n) -> 0 <= x < n.
Proof.
  unfold range. rewrite in_map_iff. intros (i & <- & Hi).
  apply in_seq in Hi. lia.
Qed.

(** The inner loop, from column [a] on, over a block of [4 * k]
    octets. *)
Lemma fill_row (jpeg_size y : Z) (k : nat) :
  forall (a : nat) (pre block tail : list Z),
    Z.of_nat (length pre) = (y * VIDEO_WIDTH + Z.of_nat a) * 4 ->
    length block = (4 * k)%nat ->
    fold_left (set_pixel jpeg_size y) (map Z.of_nat (seq a k))
              (Some (pre ++ block ++ tail))
    = Some (pre
              ++ flat_map
                   (fun x => [to_uchar (Z.land (Z.shiftr jpeg_size 8) 0xFF);
                              to_uchar (Z.rem y 256);
                              to_uchar (Z.rem x 256); 255])
                   (map Z.of_nat (seq a k))
              ++ tail).
Proof.
  induction k as [|k IH]; intros a pre block tail Hpre Hblock.
  - destruct block; [reflexivity|discriminate].
  - destruct block as [|b0 [|b1 [|b2 [|b3 block]]]];
      try (cbn [length] in Hblock; lia).
    cbn [seq map fold_left flat_map].
    cbn [app]. rewrite (set_pixel_next _ _ _ _ _ _ _ _ _ Hpre).
    rewrite app_assoc.
    rewrite IH.
    + rewrite <- !app_assoc. reflexivity.
    + rewrite length_app. cbn [length]. lia.
    + cbn [length] in Hblock. lia.
Qed.

(** The outer loop, from row [b] on, over a block of [k] rows. *)
Lemma fill_rows (jpeg_size : Z) (k : nat) :
  forall (b : nat) (pre block tail : list Z),
    Z.of_nat (length pre) = Z.of_nat b * VIDEO_WIDTH * 4 ->
    length block = (k * (4 * Z.to_nat VIDEO_WIDTH))%nat ->
    fold_left
      (fun d y => fold_left (set_pixel jpeg_size y) (range VIDEO_WIDTH) d)
      (map Z.of_nat (seq b k)) (Some (pre ++ block ++ tail))
    = Some (pre
              ++ flat_map
                   (fun y =>
                      flat_map
                        (fun x =>
                           [to_uchar (Z.land (Z.shiftr jpeg_size 8) 0xFF);
                            to_uchar (Z.rem y 256);
                            to_uchar (Z.rem x 256); 255])
                        (range VIDEO_WIDTH))
                   (map Z.of_nat (seq b k))
              ++ tail).
Proof.
  pose proof VIDEO_WIDTH_nonneg as HW.
  induction k as [|k IH]; intros b pre block tail Hpre Hblock.
  - destruct block; [reflexivity|discriminate].
  - cbn [seq map fold_left flat_map].
    rewrite <- (firstn_skipn (4 * Z.to_nat VIDEO_WIDTH) block).
    rewrite <- (app_assoc (firstn _ block)).
    pose proof (fill_row jpeg_size (Z.of_nat b) (Z.to_nat VIDEO_WIDTH) 0
                         pre (firstn (4 * Z.to_nat VIDEO_WIDTH) block)
                         (skipn (4 * Z.to_nat VIDEO_WIDTH) block ++ tail))
      as Hrow.
    fold (range VIDEO_WIDTH) in Hrow.
    rewrite Hrow by (rewrite ?length_firstn; lia).
    rewrite app_assoc. rewrite IH.
    + rewrite <- !app_assoc. reflexivity.
    + rewrite length_app, length_pixels by reflexivity. unfold range.
      rewrite length_map, length_seq. lia.
    + rewrite length_skipn. lia.
Qed.

(** The two loops of [DecodeJPEG] write every octet of a picture of
    the size of a frame, and none outside it. *)
Lemma fill_gradient (jpeg_size : Z) (d : list Z) :
  length d = Z.to_nat (VIDEO_WIDTH * VIDEO_HEIGHT * 4) ->
  fill jpeg_size d = Some (gradient jpeg_size).
Proof.
  intros Hd. pose proof VIDEO_WIDTH_nonneg. pose proof VIDEO_HEIGHT_nonneg.
  unfold fill.
  pose proof (fill_rows jpeg_size (Z.to_nat VIDEO_HEIGHT) 0 [] d []) as H1.
  fold (range VIDEO_HEIGHT) in H1. cbn [app] in H1.
  rewrite !app_nil_r in H1. rewrite H1.
  - apply (f_equal (@Some (list Z))). unfold gradient.
    apply flat_map_same. intros y Hy.
    apply flat_map_same. intros x Hx.
    apply in_range in Hy. apply in_range in Hx.
    unfold to_uchar.
    rewrite Z.shiftr_div_pow2 by lia.
    change 255 with (Z.ones 8). rewrite Z.land_ones by lia.
    rewrite !Z.rem_mod_nonneg by lia.
    rewrite !Z.mod_mod by lia.
    reflexivity.
  - reflexivity.
  - rewrite Hd, !Z2Nat.inj_mul by lia.
    change (Z.to_nat 4) with 4%nat. lia.
Qed.

Lemma length_blocks (A B : Type) (n : nat) (f : A -> list B) (l : list A) :
  (forall x, length (f x) = n) ->
  length (flat_map f l) = (length l * n)%nat.
Proof.
  intros Hf. induction l as [|x l IH]; [reflexivity|].
  cbn [flat_map length]. rewrite length_app, Hf, IH. lia.
Qed.

Lemma length_range (n : Z) : length (range n) = Z.to_nat n.
Proof. unfold range. now rewrite length_map, length_seq. Qed.

Lemma length_gradient (jpeg_size : Z) :
  Z.of_nat (length (gradient jpeg_size)) = VIDEO_WIDTH * VIDEO_HEIGHT * 4.
Proof.
  pose proof VIDEO_WIDTH_nonneg. pose proof VIDEO_HEIGHT_nonneg.
  unfold gradient.
  rewrite (length_blocks _ _ (Z.to_nat VIDEO_WIDTH * 4)).
  - rewrite length_range. lia.
  - intros y. rewrite (length_blocks _ _ 4) by reflexivity.
    now rewrite length_range.
Qed.

Lemma DecodeJPEG_gradient (now_ms : nat -> Z) (c : t) (jpeg : list Z) :
  DecodeJPEG now_ms c jpeg
  = Some (true,
          mkVideoFrame (gradient (Z.of_nat (length jpeg)))
                       VIDEO_WIDTH VIDEO_HEIGHT
                       (now_ms (clock_readings c)),
          mk (m_frameBuffer c) (m_clientSocket c) (m_running c)
             (m_stateCallback c) (notified c) (S (clock_readings c))).
Proof.
  unfold DecodeJPEG, VideoFrame_sized. cbv zeta. cbn [data width height].
  rewrite fill_gradient by apply repeat_length.
  reflexivity.
Qed.

(** X18.  [DecodeJPEG] does not look at the octets of the frame it is
    given: for every frame it returns true with a picture of 1280 by
    720 pixels that depends on the size of the frame alone (a frame
    of as many zeros gives the same), stamped with the time read from
    the clock.  Its two loops write each of the 1280 * 720 * 4 octets
    of the picture and nothing outside them. *)
Theorem DecodeJPEG_draws_the_placeholder
        (now_ms : nat -> Z) (c : t) (jpeg : list Z) :
  exists frame c',
    DecodeJPEG now_ms c jpeg = Some (true, frame, c')
    /\ data frame = gradient (Z.of_nat (length jpeg))
    /\ Z.of_nat (length (data frame)) = 1280 * 720 * 4
    /\ width frame = 1280 /\ height frame = 720
    /\ timestamp frame = now_ms (clock_readings c)
    /\ clock_readings c' = S (clock_readings c)
    /\ m_frameBuffer c' = m_frameBuffer c
    /\ m_clientSocket c' = m_clientSocket c
    /\ notified c' = notified c
    /\ DecodeJPEG now_ms c (repeat 0 (length jpeg))
       = DecodeJPEG now_ms c jpeg.
Proof.
  eexists. eexists. split; [apply DecodeJPEG_gradient|].
  cbn [data width height timestamp clock_readings m_frameBuffer
       m_clientSocket notified].
  split; [reflexivity|]. split; [apply length_gradient|].
  do 7 (split; [reflexivity|]).
  rewrite !DecodeJPEG_gradient, repeat_length. reflexivity.
Qed.

(** *** ReceiveExact *)

Lemma receive_done (fuel : nat) (s : SOCKET) (running : bool) (size : Z)
      (buffer : list Z) :
  receive fuel s running size size buffer = (true, buffer, s).
Proof.
  destruct fuel as [|fuel]; cbn [receive]; rewrite ?Z.ltb_irrefl, Z.eqb_refl;
    reflexivity.
Qed.

(** [ReceiveExact] on a stream that holds the [r] octets still asked
    for, cut in any way: it takes exactly these and leaves the rest of
    the stream, whether a piece has to be split or not. *)
Lemma receive_enough (d : Z) (o : list (list Z)) (w : bool) (size : Z) :
  forall (inb : list (list Z)) (fuel : nat) (acc : list Z) (r : nat),
    Forall (fun piece => piece <> []) inb ->
    Z.of_nat (length acc + r) = size -> size <= INT_MAX ->
    (r <= length (concat inb))%nat -> (r <= fuel)%nat ->
    exists inb',
      receive fuel (Some (mkSocket inb d o w)) true size
              (Z.of_nat (length acc)) (acc ++ repeat 0 r)
      = (true, acc ++ firstn r (concat inb), Some (mkSocket inb' d o w))
      /\ concat inb' = skipn r (concat inb)
      /\ Forall (fun piece => piece <> []) inb'.
Proof.
  unfold INT_MAX.
  induction inb as [|piece rest IH]; intros fuel acc r Hne Hsize Hmax Hr Hfuel.
  - cbn [concat length] in Hr. assert (r = 0%nat) by lia. subst r.
    exists []. replace (Z.of_nat (length acc)) with size by lia.
    rewrite receive_done. cbn [repeat firstn concat skipn]. auto.
  - destruct r as [|r'].
    + exists (piece :: rest). replace (Z.of_nat (length acc)) with size by lia.
      rewrite receive_done. cbn [repeat firstn skipn]. auto.
    + inversion Hne as [|? ? Hpiece Hrest]; subst.
      assert (Hlen : (0 < length piece)%nat)
        by (destruct piece; [congruence|simpl; lia]).
      destruct fuel as [|fuel]; [lia|].
      cbn [receive concat].
      destruct (Z.ltb_spec (Z.of_nat (length acc))
                           (Z.of_nat (length acc + S r'))); [|lia].
      cbn [andb]. rewrite to_int_small by lia.
      replace (Z.of_nat (length acc + S r') - Z.of_nat (length acc))
        with (Z.of_nat (S r')) by lia.
      destruct (Nat.le_gt_cases (length piece) (S r')) as [Hwhole|Hpart].
      * rewrite recv_whole_piece by (auto; lia).
        destruct (Z.leb_spec (Z.of_nat (length piece)) 0); [lia|].
        replace (repeat 0 (S r'))
          with (repeat 0 (length piece + (S r' - length piece)))
          by (f_equal; lia).
        rewrite store_next.
        replace (Z.of_nat (length acc) + Z.of_nat (length piece))
          with (Z.of_nat (length (acc ++ piece)))
          by (rewrite length_app; lia).
        cbn [concat] in Hr. rewrite length_app in Hr.
        destruct (IH fuel (acc ++ piece) (S r' - length piece)%nat)
          as (inb' & E & Hcat & Hne');
          try (rewrite ?length_app; lia); auto.
        exists inb'. rewrite E.
        rewrite firstn_app, skipn_app.
        rewrite (firstn_all2 (n := S r') piece) by lia.
        rewrite (skipn_all2 (n := S r') piece) by lia.
        rewrite <- app_assoc. auto.
      * rewrite recv_piece by lia.
        destruct (Z.leb_spec (Z.of_nat (S r')) 0); [lia|].
        rewrite Nat2Z.id.
        assert (Hgot : length (firstn (S r') piece) = S r')
          by (rewrite length_firstn; lia).
        replace (repeat 0 (S r'))
          with (repeat 0 (length (firstn (S r') piece) + 0))
          by (now rewrite Hgot, Nat.add_0_r).
        rewrite store_next.
        replace (Z.of_nat (length acc) + Z.of_nat (S r'))
          with (Z.of_nat (length acc + S r')) by lia.
        rewrite receive_done.
        assert (Hleft : skipn (S r') piece <> []).
        { intros E. apply (f_equal (@length Z)) in E.
          rewrite length_skipn in E. cbn [length] in E. lia. }
        exists (skipn (S r') piece :: rest).
        replace (requeue (skipn (S r') piece) rest)
          with (skipn (S r') piece :: rest)
          by (unfold requeue; destruct (skipn (S r') piece); congruence).
        rewrite firstn_app, skipn_app.
        replace (S r' - length piece)%nat with 0%nat by lia.
        cbn [repeat firstn skipn concat]. rewrite !app_nil_r.
        split; [reflexivity|]. split; [reflexivity|].
        constructor; assumption.
Qed.

(** [ReceiveExact] on a stream that ends before the octets asked for
    have come: it takes what there is and fails. *)
Lemma receive_short (d : Z) (o : list (list Z)) (w : bool) (size : Z) :
  d <= 0 ->
  forall (inb : list (list Z)) (fuel : nat) (acc : list Z) (r : nat),
    Forall (fun piece => piece <> []) inb ->
    Z.of_nat (length acc + r) = size -> size <= INT_MAX ->
    (length (concat inb) < r)%nat -> (r <= fuel)%nat ->
    exists buffer,
      receive fuel (Some (mkSocket inb d o w)) true size
              (Z.of_nat (length acc)) (acc ++ repeat 0 r)
      = (false, buffer, Some (mkSocket [] d o w)).
Proof.
  unfold INT_MAX. intros Hd.
  induction inb as [|piece rest IH]; intros fuel acc r Hne Hsize Hmax Hr Hfuel;
    (destruct fuel as [|fuel]; [lia|]); cbn [receive];
    (destruct (Z.ltb_spec (Z.of_nat (length acc)) size); [|lia]);
    cbn [andb]; rewrite to_int_small by lia.
  - rewrite recv_drained by lia.
    destruct (Z.leb_spec d 0); [|lia]. eexists. reflexivity.
  - inversion Hne as [|? ? Hpiece Hrest]; subst.
    assert (Hlen : (0 < length piece)%nat)
      by (destruct piece; [congruence|simpl; lia]).
    cbn [concat] in Hr. rewrite length_app in Hr.
    rewrite recv_whole_piece by (auto; lia).
    destruct (Z.leb_spec (Z.of_nat (length piece)) 0); [lia|].
    replace (repeat 0 r)
      with (repeat 0 (length piece + (r - length piece)))
      by (f_equal; lia).
    rewrite store_next.
    replace (Z.of_nat (length acc) + Z.of_nat (length piece))
      with (Z.of_nat (length (acc ++ piece)))
      by (rewrite length_app; lia).
    apply IH; try (rewrite ?length_app; lia); auto.
Qed.

(** X19.  [ReceiveExact] is all or nothing.  On a running receiver
    whose stream is cut into pieces in any way and then ends, it
    returns true exactly when the stream holds the [size] octets asked
    for; the buffer is then the first [size] octets of the stream and
    the rest of the stream is left for the next call, also when the
    last piece read had more than what was missing.  When the stream
    is shorter it returns false with the stream used up. *)
Theorem ReceiveExact_all_or_nothing
        (c : t) (inb : list (list Z)) (d : Z) (o : list (list Z)) (w : bool)
        (size : nat)
        (Hrunning : m_running c = true)
        (Hsocket : m_clientSocket c = Some (mkSocket inb d o w))
        (Hpieces : Forall (fun piece => piece <> []) inb)
        (Hdrained : d <= 0)
        (Hsize : Z.of_nat size <= INT_MAX) :
  if (size <=? length (concat inb))%nat
  then exists inb',
      ReceiveExact c (repeat 0 size) (Z.of_nat size)
      = (true, firstn size (concat inb),
         with_socket c (Some (mkSocket inb' d o w)))
      /\ concat inb' = skipn size (concat inb)
  else exists buffer,
      ReceiveExact c (repeat 0 size) (Z.of_nat size)
      = (false, buffer, with_socket c (Some (mkSocket [] d o w))).
Proof.
  unfold ReceiveExact. rewrite Hrunning, Hsocket, Nat2Z.id.
  destruct (Nat.leb_spec size (length (concat inb))) as [H|H].
  - destruct (receive_enough d o w (Z.of_nat size) inb size [] size)
      as (inb' & E & Hcat & _); auto.
    exists inb'. cbn [length app Z.of_nat] in E. rewrite E. auto.
  - destruct (receive_short d o w (Z.of_nat size) Hdrained inb size [] size)
      as (buffer & E); auto.
    exists buffer. cbn [length app Z.of_nat] in E. rewrite E. reflexivity.
Qed.

Lemma ReceiveExact_all_or_nothing_witness :
  exists inb',
    ReceiveExact (mk (FrameBuffer.create 3)
                     (Some (mkSocket [[1; 2]; [3; 4; 5]] 0 [] true))
                     true false [] 0)
                 (repeat 0 3) 3
    = (true, [1; 2; 3],
       with_socket (mk (FrameBuffer.create 3)
                       (Some (mkSocket [[1; 2]; [3; 4; 5]] 0 [] true))
                       true false [] 0)
                   (Some (mkSocket inb' 0 [] true)))
    /\ concat inb' = [4; 5].
Proof.
  apply (ReceiveExact_all_or_nothing
           (mk (FrameBuffer.create 3)
               (Some (mkSocket [[1; 2]; [3; 4; 5]] 0 [] true))
               true false [] 0)
           [[1; 2]; [3; 4; 5]] 0 [] true 3).
  - reflexivity.
  - reflexivity.
  - repeat constructor; discriminate.
  - lia.
  - vm_compute. discriminate.
Defined.

(** *** ReceiveLoop *)

Lemma uint32_of_little_endian (n : Z) :
  0 <= n < 2 ^ 32 -> uint32_of (little_endian 4 n) = n.
Proof.
  intros Hn. unfold uint32_of.
  change (little_endian 4 n)
    with [(n / 1) mod 256; (n / 256) mod 256; (n / 65536) mod 256;
          (n / 16777216) mod 256].
  cbn [nth].
  change (2 ^ 8) with 256. change (2 ^ 16) with 65536.
  change (2 ^ 24) with 16777216. change (2 ^ 32) with 4294967296 in Hn.
  rewrite Z.div_1_r.
  pose proof (Z.div_mod n 256 ltac:(lia)).
  pose proof (Z.mod_pos_bound n 256 ltac:(lia)).
  pose proof (Z.div_div n 256 256 ltac:(lia) ltac:(lia)) as H2.
  pose proof (Z.div_div n 65536 256 ltac:(lia) ltac:(lia)) as H3.
  change (256 * 256) with 65536 in H2.
  change (65536 * 256) with 16777216 in H3.
  pose proof (Z.div_mod (n / 256) 256 ltac:(lia)).
  pose proof (Z.div_mod (n / 65536) 256 ltac:(lia)).
  assert (Htop : (n / 16777216) mod 256 = n / 16777216).
  { apply Z.mod_small. split; [apply Z.div_pos; lia|].
    apply Z.div_lt_upper_bound; lia. }
  rewrite Htop. lia.
Qed.

Section Receiving.
Variable now_ms : nat -> Z.
Variables (d : Z) (o : list (list Z)) (w : bool).
Variables (cb : bool) (ns : list ConnectionState).

(** A turn of the loop on a stream that starts with a frame, cut in
    any way: the frame is decoded and pushed, what follows it stays in
    the stream. *)
Lemma ReceiveLoop_frame (fuel : nat) (fb : FrameBuffer.t)
      (inb : list (list Z)) (jpeg rest : list Z) (k : nat) :
  Forall (fun piece => piece <> []) inb ->
  concat inb = stream_frame jpeg ++ rest ->
  (1 <= length jpeg)%nat -> Z.of_nat (length jpeg) <= 10 * 1024 * 1024 ->
  (1 <= FrameBuffer.m_maxFrames fb)%nat ->
  exists inb',
    ReceiveLoop now_ms (S fuel)
                (mk fb (Some (mkSocket inb d o w)) true cb ns k)
    = ReceiveLoop
        now_ms fuel
        (mk (FrameBuffer.mk
               (newest (FrameBuffer.m_maxFrames fb)
                       (FrameBuffer.m_frames fb
                          ++ decoded_frames now_ms k [jpeg]))
               (FrameBuffer.m_maxFrames fb))
            (Some (mkSocket inb' d o w)) true cb ns (S k))
    /\ concat inb' = rest
    /\ Forall (fun piece => piece <> []) inb'.
Proof.
  intros Hne Hcat Hmin Hmax Hcap. unfold stream_frame in Hcat.
  rewrite <- app_assoc in Hcat.
  cbn [ReceiveLoop m_running m_clientSocket andb].
  unfold ReceiveExact at 1. cbn [m_running m_clientSocket].
  destruct (receive_enough d o w 4 inb 4 [] 4) as (inb1 & E1 & Hcat1 & Hne1);
    auto; try (unfold INT_MAX; lia).
  { rewrite Hcat, !length_app. cbn [little_endian seq map length]. lia. }
  cbn [length app Z.of_nat repeat] in E1.
  change (Z.to_nat 4) with 4%nat. rewrite E1. cbn [negb].
  rewrite Hcat in E1, Hcat1 |- *.
  rewrite firstn_app, firstn_all2 by reflexivity.
  change (4 - length (little_endian 4 (Z.of_nat (length jpeg))))%nat
    with 0%nat.
  cbn [firstn]. rewrite app_nil_r.
  rewrite uint32_of_little_endian by (change (2 ^ 32) with 4294967296; lia).
  destruct (Z.eqb_spec (Z.of_nat (length jpeg)) 0); [lia|].
  destruct (Z.gtb_spec (Z.of_nat (length jpeg)) (10 * 1024 * 1024)); [lia|].
  cbn [orb]. unfold ReceiveExact. cbn [with_socket m_running m_clientSocket].
  rewrite Nat2Z.id.
  change (skipn 4 (little_endian 4 (Z.of_nat (length jpeg)) ++ jpeg ++ rest))
    with (jpeg ++ rest) in Hcat1.
  destruct (receive_enough d o w (Z.of_nat (length jpeg)) inb1
                           (length jpeg) [] (length jpeg))
    as (inb2 & E2 & Hcat2 & Hne2);
    auto; try (unfold INT_MAX; lia).
  { rewrite Hcat1, length_app. lia. }
  cbn [length app Z.of_nat] in E2. rewrite E2. cbn [negb].
  rewrite Hcat1, firstn_app, firstn_all, Nat.sub_diag in *.
  cbn [firstn]. rewrite app_nil_r.
  rewrite DecodeJPEG_gradient. cbn [and_then m_frameBuffer clock_readings].
  rewrite Push_newest by exact Hcap. cbn [and_then with_buffer].
  cbn [m_clientSocket m_running m_stateCallback notified clock_readings].
  exists inb2. split; [reflexivity|]. split; [|exact Hne2].
  rewrite Hcat2, skipn_app, skipn_all, Nat.sub_diag. reflexivity.
Qed.

(** A turn of the loop on a stream that does not start with a frame:
    the loop is left, and the callback told [Disconnected]. *)
Lemma ReceiveLoop_stops (fuel : nat) (fb : FrameBuffer.t)
      (inb : list (list Z)) (k : nat) :
  d <= 0 ->
  Forall (fun piece => piece <> []) inb ->
  ends_stream (concat inb) ->
  exists sk,
    ReceiveLoop now_ms (S fuel)
                (mk fb (Some (mkSocket inb d o w)) true cb ns k)
    = Some (notify (mk fb (Some sk) true cb ns k) Disconnected).
Proof.
  intros Hd Hne Hend.
  cbn [ReceiveLoop m_running m_clientSocket andb].
  unfold ReceiveExact at 1. cbn [m_running m_clientSocket].
  change (Z.to_nat 4) with 4%nat.
  destruct (Nat.le_gt_cases 4 (length (concat inb))) as [Hhead|Hhead].
  2:{ destruct (receive_short d o w 4 Hd inb 4 [] 4) as (buffer & E);
        auto; try (unfold INT_MAX; lia).
      cbn [length app Z.of_nat repeat] in E. rewrite E. cbn [negb].
      eexists. reflexivity. }
  destruct (receive_enough d o w 4 inb 4 [] 4) as (inb1 & E1 & Hcat1 & Hne1);
    auto; try (unfold INT_MAX; lia).
  cbn [length app Z.of_nat repeat] in E1. rewrite E1. cbn [negb].
  set (n := uint32_of (firstn 4 (concat inb))) in *.
  destruct (Z.eqb_spec n 0) as [|Hzero]; [eexists; reflexivity|].
  destruct (Z.gtb_spec n (10 * 1024 * 1024)) as [|Hbig];
    [eexists; reflexivity|].
  cbn [orb]. unfold ReceiveExact. cbn [with_socket m_running m_clientSocket].
  assert (Hshort : Z.of_nat (length (concat inb)) < 4 + n).
  { destruct Hend as [H|[H|[H|H]]]; [lia|contradiction|lia|exact H]. }
  destruct (receive_short d o w n Hd inb1 (Z.to_nat n) [] (Z.to_nat n))
    as (buffer & E); auto; try (unfold INT_MAX; cbn [length]; lia).
  { rewrite Hcat1, length_skipn. lia. }
  cbn [length app Z.of_nat] in E. rewrite E. cbn [negb].
  eexists. reflexivity.
Qed.

(** The loop on a stream of frames followed by something that is not a
    frame. *)
Lemma ReceiveLoop_frames (tail : list Z) (cap : nat) :
  d <= 0 -> ends_stream tail -> (1 <= cap)%nat ->
  forall (jpegs : list (list Z)) (fuel : nat) (frames : list VideoFrame)
         (inb : list (list Z)) (k : nat),
    Forall (fun piece => piece <> []) inb ->
    concat inb = concat (map stream_frame jpegs) ++ tail ->
    Forall (fun jpeg => (1 <= length jpeg)%nat
                        /\ Z.of_nat (length jpeg) <= 10 * 1024 * 1024)
           jpegs ->
    (length frames <= cap)%nat ->
    (length jpegs < fuel)%nat ->
    exists sk,
      ReceiveLoop now_ms fuel
                  (mk (FrameBuffer.mk frames cap)
                      (Some (mkSocket inb d o w)) true cb ns k)
      = Some (notify
                (mk (FrameBuffer.mk
                       (newest cap (frames ++ decoded_frames now_ms k jpegs))
                       cap)
                    (Some sk) true cb ns (length jpegs + k))
                Disconnected).
Proof.
  intros Hd Hend Hcap.
  induction jpegs as [|jpeg jpegs IH];
    intros fuel frames inb k Hne Hcat Hjpegs Hframes Hfuel;
    (destruct fuel as [|fuel]; [cbn [length] in Hfuel; lia|]).
  - cbn [map concat app] in Hcat.
    destruct (ReceiveLoop_stops fuel (FrameBuffer.mk frames cap) inb k)
      as (sk & E); auto; [now rewrite Hcat|].
    exists sk. rewrite E. cbn [decoded_frames length Nat.add].
    rewrite app_nil_r, newest_all by exact Hframes. reflexivity.
  - inversion Hjpegs as [|? ? [Hmin Hmax] Hrest]; subst.
    cbn [map concat] in Hcat. rewrite <- app_assoc in Hcat.
    destruct (ReceiveLoop_frame fuel (FrameBuffer.mk frames cap) inb jpeg
                                (concat (map stream_frame jpegs) ++ tail) k)
      as (inb' & E & Hcat' & Hne'); auto.
    rewrite E. cbn [FrameBuffer.m_maxFrames FrameBuffer.m_frames].
    destruct (IH fuel
                 (newest cap (frames ++ decoded_frames now_ms k [jpeg]))
                 inb' (S k))
      as (sk & E'); auto.
    + rewrite length_newest. lia.
    + cbn [length] in Hfuel. lia.
    + exists sk. rewrite E'. rewrite newest_app, <- app_assoc.
      cbn [decoded_frames app length].
      replace (S (length jpegs) + k)%nat with (length jpegs + S k)%nat by lia.
      reflexivity.
Qed.

End Receiving.

(** X20.  [ReceiveLoop] on a stream that carries the frames [jpegs],
    each of 1 octet to 10 MiB, and then something that is not a frame
    (the end of the stream, a size of zero or above 10 MiB, or a frame
    cut short), the stream being cut into pieces in any way: every
    frame is decoded and pushed, in order, so that the buffer ends with
    the newest frames up to its capacity; then the loop is left, the
    callback is told [Disconnected] once, and the socket is not
    closed.  One turn more than there are frames is enough. *)
Theorem ReceiveLoop_pushes_every_frame
        (now_ms : nat -> Z) (c : t)
        (inb : list (list Z)) (d : Z) (o : list (list Z)) (w : bool)
        (jpegs : list (list Z)) (tail : list Z) (fuel : nat)
        (Hrunning : m_running c = true)
        (Hsocket : m_clientSocket c = Some (mkSocket inb d o w))
        (Hpieces : Forall (fun piece => piece <> []) inb)
        (Hstream : concat inb = concat (map stream_frame jpegs) ++ tail)
        (Hsizes : Forall (fun jpeg =>
                            (1 <= length jpeg)%nat
                            /\ Z.of_nat (length jpeg) <= 10 * 1024 * 1024)
                         jpegs)
        (Htail : ends_stream tail)
        (Hdrained : d <= 0)
        (Hcapacity : (1 <= FrameBuffer.m_maxFrames (m_frameBuffer c))%nat)
        (Hsize : (FrameBuffer.Size (m_frameBuffer c)
                  <= FrameBuffer.m_maxFrames (m_frameBuffer c))%nat)
        (Hfuel : (length jpegs < fuel)%nat) :
  exists c',
    ReceiveLoop now_ms fuel c = Some c'
    /\ FrameBuffer.m_frames (m_frameBuffer c')
       = newest (FrameBuffer.m_maxFrames (m_frameBuffer c))
                (FrameBuffer.m_frames (m_frameBuffer c)
                   ++ decoded_frames now_ms (clock_readings c) jpegs)
    /\ FrameBuffer.m_maxFrames (m_frameBuffer c')
       = FrameBuffer.m_maxFrames (m_frameBuffer c)
    /\ notified c'
       = notified c ++ (if m_stateCallback c then [Disconnected] else [])
    /\ m_clientSocket c' <> None
    /\ m_running c' = true
    /\ clock_readings c' = (length jpegs + clock_readings c)%nat.
Proof.
  destruct c as [[frames cap] s running cb ns k].
  cbn [m_running m_clientSocket m_frameBuffer FrameBuffer.m_maxFrames
       FrameBuffer.m_frames FrameBuffer.Size notified m_stateCallback
       clock_readings] in *.
  subst s running.
  destruct (ReceiveLoop_frames now_ms d o w cb ns tail cap
                               Hdrained Htail Hcapacity
                               jpegs fuel frames inb k)
    as (sk & E); auto.
  rewrite E. eexists. split; [reflexivity|].
  unfold notify. cbn [m_stateCallback].
  destruct cb;
    cbn [m_running m_clientSocket m_frameBuffer FrameBuffer.m_maxFrames
         FrameBuffer.m_frames notified m_stateCallback clock_readings];
    rewrite ?app_nil_r; repeat split; discriminate.
Qed.

Lemma ReceiveLoop_pushes_every_frame_witness :
  exists c',
    ReceiveLoop (fun _ => 0) 2
                (mk (FrameBuffer.create 2)
                    (Some (mkSocket [[3; 0]; [0; 0; 7]; [8; 9]] 0 [] true))
                    true true [] 0)
    = Some c'
    /\ FrameBuffer.m_frames (m_frameBuffer c')
       = newest 2 (decoded_frames (fun _ => 0) 0 [[7; 8; 9]])
    /\ notified c' = [Disconnected].
Proof.
  destruct (ReceiveLoop_pushes_every_frame
              (fun _ => 0)
              (mk (FrameBuffer.create 2)
                  (Some (mkSocket [[3; 0]; [0; 0; 7]; [8; 9]] 0 [] true))
                  true true [] 0)
              [[3; 0]; [0; 0; 7]; [8; 9]] 0 [] true [[7; 8; 9]] [] 2)
    as (c' & E & Hframes & _ & Hnotified & _).
  - reflexivity.
  - reflexivity.
  - repeat constructor; discriminate.
  - reflexivity.
  - constructor; [split; [cbn [length]; lia|vm_compute; discriminate]|].
    constructor.
  - left. cbn [length]. lia.
  - lia.
  - cbn [m_frameBuffer FrameBuffer.create FrameBuffer.m_maxFrames]. lia.
  - cbn [m_frameBuffer FrameBuffer.create FrameBuffer.m_maxFrames
         FrameBuffer.Size FrameBuffer.m_frames length]. lia.
  - cbn [length]. lia.
  - exists c'. split; [exact E|]. split; [exact Hframes|exact Hnotified].
Defined.

End SimpleReceiverMore.

(** ** VirtualCamera: frames from the buffer to the shared memory *)

Section VirtualCameraMore.
Import VirtualCamera.

Lemma to_int_mod (z : Z) : to_int z mod 2 ^ 32 = z mod 2 ^ 32.
Proof.
  unfold to_int.
  rewrite Zminus_mod, Z.mod_mod, <- Zminus_mod by lia.
  f_equal. lia.
Qed.

(** The two halves of a time stamp as [PushFrame] stores them. *)
Lemma timestamp_halves (ts : Z) :
  to_int (Z.land ts 0xFFFFFFFF) mod 2 ^ 32
  + 2 ^ 32 * (to_int (Z.land (Z.shiftr ts 32) 0xFFFFFFFF) mod 2 ^ 32)
  = ts mod 2 ^ 64.
Proof.
  rewrite !to_int_mod.
  change 0xFFFFFFFF with (Z.ones 32).
  rewrite !Z.land_ones, Z.shiftr_div_pow2, !Z.mod_mod by lia.
  change (2 ^ 64) with (2 ^ 32 * 2 ^ 32).
  rewrite Z.rem_mul_r by lia. reflexivity.
Qed.

Lemma PushFrame_with_buffer (c : t) (fb : FrameBuffer.t) (frame : VideoFrame) :
  PushFrame (with_buffer c fb) frame = with_buffer (PushFrame c frame) fb.
Proof.
  destruct c as [fb0 running [mem|] event n]; [|reflexivity].
  destruct event; reflexivity.
Qed.

(** X21.  [PushFrame] with the shared memory mapped and the event
    created: the header takes the width and the height of the frame and
    its time stamp in two halves, from which the time stamp is got back
    as a 64-bit value; the picture keeps its size whatever the size of
    the data of the frame, so nothing is written past it; a frame with
    less data than a picture leaves the end of the previous picture in
    place, and of a frame with more data the excess is not copied; the
    event is set once. *)
Theorem PushFrame_stays_within_the_picture
        (c : t) (mem : SharedMemory) (frame : VideoFrame)
        (Hmapped : m_sharedMemoryPtr c = Some mem)
        (Hevent : m_frameEvent c = true)
        (Hpicture : Z.of_nat (length (pixels mem))
                    = VIDEO_WIDTH * VIDEO_HEIGHT * 4) :
  exists lo hi picture,
    PushFrame c frame
    = mk (m_frameBuffer c) (m_running c)
         (Some (mkSharedMemory [width frame; height frame; lo; hi] picture))
         true (S (events_set c))
    /\ lo mod 2 ^ 32 + 2 ^ 32 * (hi mod 2 ^ 32) = timestamp frame mod 2 ^ 64
    /\ length picture = length (pixels mem)
    /\ (Z.of_nat (length (data frame)) <= VIDEO_WIDTH * VIDEO_HEIGHT * 4 ->
        picture = data frame ++ skipn (length (data frame)) (pixels mem))
    /\ (VIDEO_WIDTH * VIDEO_HEIGHT * 4 <= Z.of_nat (length (data frame)) ->
        picture = firstn (length (pixels mem)) (data frame)).
Proof.
  unfold PushFrame. rewrite Hmapped, Hevent. cbn [negb].
  eexists. eexists. eexists. split; [reflexivity|].
  split; [apply timestamp_halves|].
  set (N := VIDEO_WIDTH * VIDEO_HEIGHT * 4) in *.
  split; [|split].
  - rewrite length_app, length_firstn, length_skipn. lia.
  - intros Hsmall. rewrite Z.min_l by exact Hsmall.
    now rewrite Nat2Z.id, firstn_all.
  - intros Hlarge. rewrite Z.min_r by exact Hlarge.
    rewrite <- Hpicture, Nat2Z.id, skipn_all, app_nil_r. reflexivity.
Qed.

Lemma PushFrame_stays_within_the_picture_witness :
  exists lo hi picture,
    PushFrame (mk (FrameBuffer.create 3) true
                  (Some (mkSharedMemory
                           [0; 0; 0; 0] (gradient 0)))
                  true 0)
              (Scenario.blank 5)
    = mk (FrameBuffer.create 3) true
         (Some (mkSharedMemory [0; 0; lo; hi] picture)) true 1
    /\ lo mod 2 ^ 32 + 2 ^ 32 * (hi mod 2 ^ 32) = 5 mod 2 ^ 64
    /\ length picture = length (gradient 0).
Proof.
  destruct (PushFrame_stays_within_the_picture
              (mk (FrameBuffer.create 3) true
                  (Some (mkSharedMemory [0; 0; 0; 0] (gradient 0)))
                  true 0)
              (mkSharedMemory [0; 0; 0; 0] (gradient 0))
              (Scenario.blank 5))
    as (lo & hi & picture & E & Hts & Hlen & _).
  - reflexivity.
  - reflexivity.
  - apply length_gradient.
  - exists lo, hi, picture. split; [exact E|]. split; [exact Hts|exact Hlen].
Defined.

Lemma with_buffer_twice (c : t) (fb fb' : FrameBuffer.t) :
  with_buffer (with_buffer c fb) fb' = with_buffer c fb'.
Proof. reflexivity. Qed.

Lemma with_buffer_same (c : t) : with_buffer c (m_frameBuffer c) = c.
Proof. destruct c. reflexivity. Qed.

Lemma fold_PushFrame_with_buffer (fs : list VideoFrame) :
  forall (c : t) (fb : FrameBuffer.t),
    fold_left PushFrame fs (with_buffer c fb)
    = with_buffer (fold_left PushFrame fs c) fb.
Proof.
  induction fs as [|f fs IH]; intros c fb; [reflexivity|].
  cbn [fold_left]. now rewrite PushFrame_with_buffer, IH.
Qed.

Lemma PushFrame_running (c : t) (frame : VideoFrame) :
  m_running (PushFrame c frame) = m_running c.
Proof.
  destruct c as [fb0 running [mem|] event n]; [|reflexivity].
  destruct event; reflexivity.
Qed.

(** Once the buffer is empty every [Pop] times out and the loop
    changes nothing. *)
Lemma FrameLoop_idle (fuel : nat) (c : t) :
  FrameBuffer.m_frames (m_frameBuffer c) = [] -> FrameLoop fuel c = c.
Proof.
  intros Hempty. induction fuel as [|fuel IH]; [reflexivity|].
  cbn [FrameLoop]. destruct (m_running c); [|reflexivity].
  unfold FrameBuffer.Pop. rewrite Hempty.
  now rewrite with_buffer_same.
Qed.

(** The loop hands the frames held to [PushFrame], oldest first. *)
Lemma FrameLoop_frames (fs : list VideoFrame) (cap : nat) :
  forall (fuel : nat) (c : t),
    m_running c = true ->
    m_frameBuffer c = FrameBuffer.mk fs cap ->
    (length fs <= fuel)%nat ->
    FrameLoop fuel c
    = with_buffer (fold_left PushFrame fs c) (FrameBuffer.mk [] cap).
Proof.
  induction fs as [|f fs IH]; intros fuel c Hrun Hfb Hfuel.
  - rewrite FrameLoop_idle by (now rewrite Hfb).
    cbn [fold_left]. now rewrite <- Hfb, with_buffer_same.
  - destruct fuel as [|fuel]; [cbn [length] in Hfuel; lia|].
    cbn [FrameLoop]. rewrite Hrun. unfold FrameBuffer.Pop. rewrite Hfb.
    cbn [FrameBuffer.m_frames FrameBuffer.m_maxFrames fold_left].
    rewrite PushFrame_with_buffer.
    rewrite IH.
    + now rewrite fold_PushFrame_with_buffer, with_buffer_twice.
    + cbn [with_buffer m_running]. now rewrite PushFrame_running.
    + reflexivity.
    + cbn [length] in Hfuel. lia.
Qed.

Lemma PushFrame_unmapped (c : t) (frame : VideoFrame) :
  m_sharedMemoryPtr c = None \/ m_frameEvent c = false ->
  PushFrame c frame = c.
Proof.
  unfold PushFrame. intros [H|H]; rewrite H; [reflexivity|].
  destruct (m_sharedMemoryPtr c); reflexivity.
Qed.

Lemma fold_PushFrame_unmapped (fs : list VideoFrame) (c : t) :
  m_sharedMemoryPtr c = None \/ m_frameEvent c = false ->
  fold_left PushFrame fs c = c.
Proof.
  intros H. induction fs as [|f fs IH]; [reflexivity|].
  cbn [fold_left]. now rewrite PushFrame_unmapped.
Qed.

(** With the memory mapped and the event created every frame handed
    to [PushFrame] sets the event once, and the picture keeps its
    size. *)
Lemma fold_PushFrame_mapped (fs : list VideoFrame) :
  forall (c : t) (mem : SharedMemory),
    m_sharedMemoryPtr c = Some mem -> m_frameEvent c = true ->
    Z.of_nat (length (pixels mem)) = VIDEO_WIDTH * VIDEO_HEIGHT * 4 ->
    exists mem',
      m_sharedMemoryPtr (fold_left PushFrame fs c) = Some mem'
      /\ m_frameEvent (fold_left PushFrame fs c) = true
      /\ Z.of_nat (length (pixels mem')) = VIDEO_WIDTH * VIDEO_HEIGHT * 4
      /\ events_set (fold_left PushFrame fs c)
         = (events_set c + length fs)%nat.
Proof.
  induction fs as [|f fs IH]; intros c mem Hmem Hev Hpic.
  - exists mem. cbn [fold_left length]. rewrite Nat.add_0_r. auto.
  - cbn [fold_left length].
    set (N := VIDEO_WIDTH * VIDEO_HEIGHT * 4) in *.
    destruct (IH (PushFrame c f)
                 (mkSharedMemory
                    [width f; height f;
                     to_int (Z.land (timestamp f) 0xFFFFFFFF);
                     to_int (Z.land (Z.shiftr (timestamp f) 32) 0xFFFFFFFF)]
                    (firstn (Z.to_nat (Z.min (Z.of_nat (length (data f))) N))
                            (data f)
                       ++ skipn (Z.to_nat
                                   (Z.min (Z.of_nat (length (data f))) N))
                                (pixels mem))))
      as (mem' & E & Hev' & Hpic' & Hn).
    + unfold PushFrame. rewrite Hmem, Hev. reflexivity.
    + unfold PushFrame. rewrite Hmem, Hev. reflexivity.
    + cbn [pixels]. rewrite length_app, length_firstn, length_skipn. lia.
    + exists mem'. rewrite E, Hev', Hn. repeat split; auto.
      unfold PushFrame. rewrite Hmem, Hev. cbn [negb events_set]. lia.
Qed.

(** X22.  [FrameLoop] on a running camera hands the frames held by the
    buffer to [PushFrame], oldest first, and leaves the buffer empty;
    as many turns as there are frames are enough, and further turns
    change nothing.  With the memory mapped and the event created the
    event is set once for each frame.  Without them the frames are
    taken out of the buffer all the same, and lost. *)
Theorem FrameLoop_shows_the_frames_in_order
        (c : t) (fuel : nat)
        (Hrunning : m_running c = true)
        (Hfuel : (FrameBuffer.Size (m_frameBuffer c) <= fuel)%nat) :
  let fs := FrameBuffer.m_frames (m_frameBuffer c) in
  let emptied :=
    FrameBuffer.mk [] (FrameBuffer.m_maxFrames (m_frameBuffer c)) in
  FrameLoop fuel c = with_buffer (fold_left PushFrame fs c) emptied
  /\ (forall mem,
         m_sharedMemoryPtr c = Some mem -> m_frameEvent c = true ->
         Z.of_nat (length (pixels mem)) = VIDEO_WIDTH * VIDEO_HEIGHT * 4 ->
         events_set (FrameLoop fuel c) = (events_set c + length fs)%nat)
  /\ (m_sharedMemoryPtr c = None \/ m_frameEvent c = false ->
      FrameLoop fuel c = with_buffer c emptied).
Proof.
  intros fs emptied.
  assert (E : FrameLoop fuel c
              = with_buffer (fold_left PushFrame fs c) emptied).
  { apply FrameLoop_frames; [exact Hrunning| |exact Hfuel].
    destruct c as [[frames cap] ? ? ? ?]. reflexivity. }
  split; [exact E|]. split.
  - intros mem Hmem Hev Hpic.
    destruct (fold_PushFrame_mapped fs c mem Hmem Hev Hpic)
      as (mem' & _ & _ & _ & Hn).
    rewrite E. exact Hn.
  - intros H. rewrite E. now rewrite fold_PushFrame_unmapped.
Qed.

Lemma FrameLoop_shows_the_frames_in_order_witness :
  FrameLoop 2 (mk (FrameBuffer.mk [Scenario.blank 1; Scenario.blank 2] 3)
                  true None false 0)
  = mk (FrameBuffer.mk [] 3) true None false 0.
Proof.
  apply (FrameLoop_shows_the_frames_in_order
           (mk (FrameBuffer.mk [Scenario.blank 1; Scenario.blank 2] 3)
               true None false 0) 2).
  - reflexivity.
  - cbn [m_frameBuffer FrameBuffer.Size FrameBuffer.m_frames length]. lia.
  - left. reflexivity.
Defined.

End VirtualCameraMore.

(** ** From the stream to the shared memory *)

Section Pipeline.

Lemma decoded_frames_app (now_ms : nat -> Z) (js1 js2 : list (list Z)) :
  forall k,
    decoded_frames now_ms k (js1 ++ js2)
    = decoded_frames now_ms k js1
        ++ decoded_frames now_ms (k + length js1) js2.
Proof.
  induction js1 as [|j js1 IH]; intros k; cbn [app decoded_frames length].
  - now rewrite Nat.add_0_r.
  - rewrite IH. now rewrite Nat.add_succ_r.
Qed.

Lemma newest_last (A : Type) (n : nat) (l : list A) (x : A) :
  (1 <= n)%nat -> newest n (l ++ [x]) = newest (n - 1) l ++ [x].
Proof.
  intros Hn. unfold newest. rewrite length_app. cbn [length].
  rewrite skipn_app.
  replace (length l + 1 - n)%nat with (length l - (n - 1))%nat by lia.
  replace (length l - (n - 1) - length l)%nat with 0%nat by lia.
  reflexivity.
Qed.

(** The last frame handed to [PushFrame] is the one the shared memory
    shows, when it carries a whole picture. *)
Lemma fold_PushFrame_last (fs : list VideoFrame) (last : VideoFrame)
      (c : VirtualCamera.t) (mem : VirtualCamera.SharedMemory) :
  VirtualCamera.m_sharedMemoryPtr c = Some mem ->
  VirtualCamera.m_frameEvent c = true ->
  Z.of_nat (length (VirtualCamera.pixels mem))
  = VIDEO_WIDTH * VIDEO_HEIGHT * 4 ->
  Z.of_nat (length (data last)) = VIDEO_WIDTH * VIDEO_HEIGHT * 4 ->
  VirtualCamera.m_sharedMemoryPtr
    (fold_left VirtualCamera.PushFrame (fs ++ [last]) c)
  = Some (VirtualCamera.mkSharedMemory
            [width last; height last;
             to_int (Z.land (timestamp last) 0xFFFFFFFF);
             to_int (Z.land (Z.shiftr (timestamp last) 32) 0xFFFFFFFF)]
            (data last)).
Proof.
  intros Hmem Hev Hpic Hlast.
  destruct (fold_PushFrame_mapped fs c mem Hmem Hev Hpic)
    as (mem' & E & Hev' & Hpic' & _).
  rewrite fold_left_app. cbn [fold_left].
  unfold VirtualCamera.PushFrame at 1. rewrite E, Hev'.
  cbn [negb VirtualCamera.m_sharedMemoryPtr].
  set (N := VIDEO_WIDTH * VIDEO_HEIGHT * 4) in *.
  rewrite Hlast, Z.min_id.
  rewrite <- Hlast at 1. rewrite <- Hpic', !Nat2Z.id.
  now rewrite firstn_all, skipn_all, app_nil_r.
Qed.

Lemma notify_buffer (c : SimpleReceiver.t) (state : ConnectionState) :
  SimpleReceiver.m_frameBuffer (SimpleReceiver.notify c state)
  = SimpleReceiver.m_frameBuffer c.
Proof.
  unfold SimpleReceiver.notify.
  destruct (SimpleReceiver.m_stateCallback c); reflexivity.
Qed.

(** X23.  The receiver and the camera share the buffer.  When the
    receive loop has taken the frames of a stream, cut in any way, and
    the frame loop of a camera with mapped memory then runs on the
    buffer for as many turns as the buffer has room, the shared memory
    shows the picture made for the last frame of the stream, of 1280
    by 720 pixels, with the time read from the clock for that frame,
    and the buffer is empty. *)
Theorem last_frame_received_is_shown
        (now_ms : nat -> Z)
        (c : SimpleReceiver.t) (cam : VirtualCamera.t)
        (mem : VirtualCamera.SharedMemory)
        (inb : list (list Z)) (d : Z) (o : list (list Z)) (w : bool)
        (earlier : list (list Z)) (last tail : list Z) (fuel turns : nat)
        (Hrunning : SimpleReceiver.m_running c = true)
        (Hsocket : SimpleReceiver.m_clientSocket c
                   = Some (mkSocket inb d o w))
        (Hpieces : Forall (fun piece => piece <> []) inb)
        (Hstream : concat inb
                   = concat (map stream_frame (earlier ++ [last])) ++ tail)
        (Hsizes : Forall (fun jpeg =>
                            (1 <= length jpeg)%nat
                            /\ Z.of_nat (length jpeg) <= 10 * 1024 * 1024)
                         (earlier ++ [last]))
        (Htail : ends_stream tail)
        (Hdrained : d <= 0)
        (Hcapacity : (1 <= FrameBuffer.m_maxFrames
                             (SimpleReceiver.m_frameBuffer c))%nat)
        (Hsize : (FrameBuffer.Size (SimpleReceiver.m_frameBuffer c)
                  <= FrameBuffer.m_maxFrames
                       (SimpleReceiver.m_frameBuffer c))%nat)
        (Hfuel : (length (earlier ++ [last]) < fuel)%nat)
        (Hcamera : VirtualCamera.m_running cam = true)
        (Hmapped : VirtualCamera.m_sharedMemoryPtr cam = Some mem)
        (Hevent : VirtualCamera.m_frameEvent cam = true)
        (Hpicture : Z.of_nat (length (VirtualCamera.pixels mem))
                    = VIDEO_WIDTH * VIDEO_HEIGHT * 4)
        (Hturns : (FrameBuffer.m_maxFrames (SimpleReceiver.m_frameBuffer c)
                   <= turns)%nat) :
  exists c' lo hi,
    SimpleReceiver.ReceiveLoop now_ms fuel c = Some c'
    /\ let cam' :=
         VirtualCamera.FrameLoop
           turns
           (VirtualCamera.with_buffer cam (SimpleReceiver.m_frameBuffer c')) in
       VirtualCamera.m_sharedMemoryPtr cam'
       = Some (VirtualCamera.mkSharedMemory
                 [1280; 720; lo; hi] (gradient (Z.of_nat (length last))))
       /\ lo mod 2 ^ 32 + 2 ^ 32 * (hi mod 2 ^ 32)
          = now_ms (SimpleReceiver.clock_readings c + length earlier)%nat
            mod 2 ^ 64
       /\ FrameBuffer.m_frames (VirtualCamera.m_frameBuffer cam') = [].
Proof.
  destruct c as [[frames cap] s running cb ns k].
  cbn [SimpleReceiver.m_running SimpleReceiver.m_clientSocket
       SimpleReceiver.m_frameBuffer FrameBuffer.m_maxFrames
       FrameBuffer.m_frames FrameBuffer.Size
       SimpleReceiver.clock_readings] in *.
  subst s running.
  destruct (ReceiveLoop_frames now_ms d o w cb ns tail cap
                               Hdrained Htail Hcapacity
                               (earlier ++ [last]) fuel frames inb k)
    as (sk & E); auto.
  rewrite E.
  eexists. eexists. eexists. split; [reflexivity|].
  cbv zeta. rewrite notify_buffer. cbn [SimpleReceiver.m_frameBuffer].
  rewrite decoded_frames_app. cbn [decoded_frames].
  rewrite app_assoc, newest_last by exact Hcapacity.
  set (fs := newest (cap - 1) (frames ++ decoded_frames now_ms k earlier)).
  set (shown := mkVideoFrame (gradient (Z.of_nat (length last)))
                             VIDEO_WIDTH VIDEO_HEIGHT
                             (now_ms (k + length earlier)%nat)).
  rewrite (FrameLoop_frames (fs ++ [shown]) cap).
  - cbn [VirtualCamera.with_buffer VirtualCamera.m_sharedMemoryPtr
         VirtualCamera.m_frameBuffer FrameBuffer.m_frames].
    rewrite fold_PushFrame_with_buffer.
    cbn [VirtualCamera.with_buffer VirtualCamera.m_sharedMemoryPtr].
    rewrite (fold_PushFrame_last fs shown cam mem Hmapped Hevent Hpicture)
      by apply length_gradient.
    split; [reflexivity|]. split; [apply timestamp_halves|reflexivity].
  - exact Hcamera.
  - reflexivity.
  - rewrite length_app. unfold fs. rewrite length_newest.
    cbn [length]. lia.
Qed.

Lemma last_frame_received_is_shown_witness :
  exists c' lo hi,
    SimpleReceiver.ReceiveLoop
      (fun _ => 0) 2
      (SimpleReceiver.mk
         (FrameBuffer.create 2)
         (Some (mkSocket [[3; 0]; [0; 0; 7]; [8; 9]] 0 [] true))
         true true [] 0)
    = Some c'
    /\ VirtualCamera.m_sharedMemoryPtr
         (VirtualCamera.FrameLoop
            2
            (VirtualCamera.with_buffer
               (VirtualCamera.mk
                  (FrameBuffer.create 2) true
                  (Some (VirtualCamera.mkSharedMemory
                           [0; 0; 0; 0] (gradient 0)))
                  true 0)
               (SimpleReceiver.m_frameBuffer c')))
       = Some (VirtualCamera.mkSharedMemory [1280; 720; lo; hi] (gradient 3)).
Proof.
  destruct (last_frame_received_is_shown
              (fun _ => 0)
              (SimpleReceiver.mk
                 (FrameBuffer.create 2)
                 (Some (mkSocket [[3; 0]; [0; 0; 7]; [8; 9]] 0 [] true))
                 true true [] 0)
              (VirtualCamera.mk
                 (FrameBuffer.create 2) true
                 (Some (VirtualCamera.mkSharedMemory
                          [0; 0; 0; 0] (gradient 0)))
                 true 0)
              (VirtualCamera.mkSharedMemory [0; 0; 0; 0] (gradient 0))
              [[3; 0]; [0; 0; 7]; [8; 9]] 0 [] true [] [7; 8; 9] [] 2 2)
    as (c' & lo & hi & E & Hshown & _).
  - reflexivity.
  - reflexivity.
  - repeat constructor; discriminate.
  - reflexivity.
  - constructor; [split; [cbn [length]; lia|vm_compute; discriminate]|].
    constructor.
  - left. cbn [length]. lia.
  - lia.
  - cbn [SimpleReceiver.m_frameBuffer FrameBuffer.create
         FrameBuffer.m_maxFrames]. lia.
  - cbn [SimpleReceiver.m_frameBuffer FrameBuffer.create
         FrameBuffer.m_maxFrames FrameBuffer.Size FrameBuffer.m_frames
         length]. lia.
  - cbn [length app]. lia.
  - reflexivity.
  - reflexivity.
  - reflexivity.
  - apply length_gradient.
  - cbn [SimpleReceiver.m_frameBuffer FrameBuffer.create
         FrameBuffer.m_maxFrames]. lia.
  - exists c', lo, hi. split; [exact E|exact Hshown].
Defined.

End Pipeline.

